(** * MakerDAO job monitor: the block-window scanner, the per-job tracker,
      the retry wrapper, the alert rule and the SQLite gateway

    A shallow embedding of [src/services/monitor.ts], [src/services/ethereum.ts],
    [src/services/discord.ts], [src/database/sqlite.ts] and the parts of
    [src/utils/config.ts], [src/types] and [src/contracts/sequencer.ts] they use.

    Conventions.
    - A JavaScript [number] that holds a block number or a counter is a [Z];
      the code only adds, subtracts and compares them, and the values stay
      far below 2^53, so no rounding is modelled.
    - [async] methods are run to completion one after the other: a method is
      a function from the world before the call to its result and the world
      after it.  Only the scheduler section models interleaving.
    - What the collaborators answer (the JSON-RPC node, sql.js, the file
      system, the webhook) is not decided by this code.  It is read from an
      environment of oracles indexed by a logical clock that advances at
      every such call.
    - A thrown value is kept with the side effects made before the throw. *)

From Stdlib Require Import ZArith Lia Ascii String Sorted.
From stdpp Require Import base decidable option list strings gmap pretty sorting.

Local Open Scope Z_scope.

(** ** JavaScript helpers *)

Module Js.

(** [s.toLowerCase()] on the ASCII letters (the signatures searched for are
    ASCII). *)
Definition lower_ascii (c : ascii) : ascii :=
  let n := Ascii.nat_of_ascii c in
  if ((65 <=? n) && (n <=? 90))%nat then Ascii.ascii_of_nat (n + 32) else c.

Fixpoint toLowerCase (s : string) : string :=
  match s with
  | EmptyString => EmptyString
  | String c r => String (lower_ascii c) (toLowerCase r)
  end.

(** [s.startsWith(p)] *)
Fixpoint startsWith (p s : string) : bool :=
  match p, s with
  | EmptyString, _ => true
  | String a p', String b s' => if Ascii.eqb a b then startsWith p' s' else false
  | String _ _, EmptyString => false
  end.

(** [s.includes(p)] *)
Fixpoint includes (p s : string) : bool :=
  startsWith p s ||
  match s with
  | EmptyString => false
  | String _ s' => includes p s'
  end.

(** [s.slice(0, n)] *)
Fixpoint slice0 (n : nat) (s : string) : string :=
  match n, s with
  | S n', String c r => String c (slice0 n' r)
  | _, _ => EmptyString
  end.

(** Truthiness of a string: [''] is falsy. *)
Definition truthyString (s : string) : bool :=
  match s with EmptyString => false | String _ _ => true end.

(** Truthiness of an optional string ([undefined] and [null] are falsy). *)
Definition truthyStr (o : option string) : bool :=
  match o with Some s => truthyString s | None => false end.

(** Truthiness of an optional number ([undefined], [null] and [0] are falsy). *)
Definition truthyNum (o : option Z) : bool :=
  match o with Some z => negb (z =? 0) | None => false end.

(** [x || null] and [x || undefined] for an optional value: a falsy [x] is
    replaced by the absent value. *)
Definition orAbsentStr (o : option string) : option string :=
  if truthyStr o then o else None.

Definition orAbsentNum (o : option Z) : option Z :=
  if truthyNum o then o else None.

(** [`${n}`] for an integer. *)
Definition showZ (z : Z) : string := pretty z.

End Js.

(** ** Types ([src/types/index.ts]) *)

Record JobInfo := mkJobInfo {
  address : string;
  name : option string;
  description : option string;
  lastWorkedBlock : option Z;
  consecutiveWorkableBlocks : Z;
  isCurrentlyWorkable : bool;
  lastCheckedBlock : Z;
  alertsSent : Z;
  lastAlertBlock : option Z;
}.

Record JobStatus := mkJobStatus {
  st_address : string;
  workable : bool;
  blockNumber : Z;
  error : option string;
}.

Record AlertData := mkAlertData {
  jobAddress : string;
  jobName : option string;
  alert_consecutiveWorkableBlocks : Z;
  currentBlock : Z;
  threshold : Z;
}.

(** A row of table [jobs].  [is_currently_workable] holds the integer that
    was bound (1 or 0); [created_at] and [updated_at] are never read back. *)
Record DatabaseJob := mkDatabaseJob {
  db_address : string;
  db_name : option string;
  last_worked_block : option Z;
  consecutive_workable_blocks : Z;
  is_currently_workable : Z;
  last_checked_block : Z;
  alerts_sent : Z;
  last_alert_block : option Z;
}.

(** The three numbers of [MonitoringConfig] the service reads, as integers.
    [loadConfig] gets them from [parseInt], which can also give NaN; that
    case is outside this record, and a theorem that needs a number to be
    positive says so in a hypothesis. *)
Record MonitoringConfig := mkConfig {
  alertThresholdBlocks : Z;
  checkIntervalSeconds : Z;
  maxBlocksPerQuery : Z;
}.

(** The defaults of [loadConfig]. *)
Definition defaultConfig : MonitoringConfig :=
  {| alertThresholdBlocks := 1000; checkIntervalSeconds := 30; maxBlocksPerQuery := 100 |}.

(** ** Thrown values, results, events *)

(** What a [catch] clause receives: an [Error] with its [message], or some
    other value ([error instanceof Error] is false). *)
Inductive Thrown :=
| JsError (message : string)
| JsOther.

(** [error instanceof Error ? error.message : dflt] *)
Definition messageOr (dflt : string) (e : Thrown) : string :=
  match e with JsError m => m | JsOther => dflt end.

Inductive Result (A : Type) :=
| Ok (a : A)
| Throw (e : Thrown).
Arguments Ok {A} a.
Arguments Throw {A} e.

Inductive LogLevel := ERROR | WARN | INFO | DEBUG.

(** What the process does that an observer can see, newest first in the
    world's trace.  [EvAttempt] marks a call of [this.processBlock] by the
    retry wrapper, [EvDelay] a [setTimeout] wait. *)
Inductive Event :=
| EvHeadQuery
| EvWorkableQuery (job : string) (blockTag : option Z)
| EvWorkedQuery (job : string) (block : Z)
| EvAttempt (block : Z) (attempt : nat)
| EvDelay (ms : Z)
| EvAlert (alert : AlertData)
| EvLog (level : LogLevel) (message : string).

(** ** The environment and the world *)

(** What the collaborators answer at logical time [t]. *)
Record Env := mkEnv {
  (** [provider.getBlock('latest')]: the block (its number), [null], or a rejection *)
  rpc_latest : nat -> Result (option Z);
  (** [jobContract.workable(overrides)] *)
  rpc_workable : nat -> string -> option Z -> Result bool;
  (** [checkWorkTransactionInBlock], whose body is one [try] that returns
      [false] from its [catch] *)
  rpc_worked : nat -> string -> Z -> bool;
  (** [db.prepare] / [stmt.getAsObject] throwing *)
  sql_select : nat -> option Thrown;
  (** [db.run] throwing *)
  sql_run : nat -> option Thrown;
  (** [fs.writeFileSync] throwing *)
  fs_write : nat -> option Thrown;
  (** [fetch(webhookUrl, ...)]: [response.ok], or a rejection *)
  webhook : nat -> Result bool;
}.

Record World := mkWorld {
  clock : nat;
  (** [this.db] of the gateway: the in-memory sql.js table, [None] before [initialize] *)
  db : option (gmap string DatabaseJob);
  (** the table in the file at [dbPath], as last written by [save] *)
  disk : option (gmap string DatabaseJob);
  lastProcessedBlock : Z;
  jobAddresses : list string;
  trace : list Event;
}.

Definition tick (w : World) : World :=
  {| clock := S (clock w); db := db w; disk := disk w;
     lastProcessedBlock := lastProcessedBlock w;
     jobAddresses := jobAddresses w; trace := trace w |}.

Definition emit (e : Event) (w : World) : World :=
  {| clock := clock w; db := db w; disk := disk w;
     lastProcessedBlock := lastProcessedBlock w;
     jobAddresses := jobAddresses w; trace := e :: trace w |}.

Definition set_db (t : gmap string DatabaseJob) (w : World) : World :=
  {| clock := clock w; db := Some t; disk := disk w;
     lastProcessedBlock := lastProcessedBlock w;
     jobAddresses := jobAddresses w; trace := trace w |}.

Definition set_disk (t : option (gmap string DatabaseJob)) (w : World) : World :=
  {| clock := clock w; db := db w; disk := t;
     lastProcessedBlock := lastProcessedBlock w;
     jobAddresses := jobAddresses w; trace := trace w |}.

Definition set_lastProcessedBlock (b : Z) (w : World) : World :=
  {| clock := clock w; db := db w; disk := disk w;
     lastProcessedBlock := b;
     jobAddresses := jobAddresses w; trace := trace w |}.

(** ** The monad of methods *)

Definition M (A : Type) : Type := World -> Result A * World.

Definition ret {A} (a : A) : M A := fun w => (Ok a, w).

Definition bind {A B} (m : M A) (k : A -> M B) : M B :=
  fun w => match m w with
           | (Ok a, w') => k a w'
           | (Throw e, w') => (Throw e, w')
           end.

Definition throw {A} (e : Thrown) : M A := fun w => (Throw e, w).

(** [try { m } catch (error) { h error }] *)
Definition try_catch {A} (m : M A) (h : Thrown -> M A) : M A :=
  fun w => match m w with
           | (Ok a, w') => (Ok a, w')
           | (Throw e, w') => h e w'
           end.

Definition get_world : M World := fun w => (Ok w, w).
Definition modify (f : World -> World) : M unit := fun w => (Ok tt, f w).
Definition log (l : LogLevel) (msg : string) : M unit := modify (emit (EvLog l msg)).
Definition record (e : Event) : M unit := modify (emit e).

(** Ask an oracle at the current time and advance the clock. *)
Definition ask {A} (oracle : nat -> A) : M A :=
  fun w => (Ok (oracle (clock w)), tick w).

(** Await a promise whose outcome is given: a rejection is thrown. *)
Definition await {A} (r : Result A) : M A :=
  match r with Ok a => ret a | Throw e => throw e end.

Declare Scope js_scope.
Delimit Scope js_scope with js.
Notation "x <~ c ;; k" := (bind c (fun x => k))
  (at level 100, c at next level, right associativity) : js_scope.
Notation "c ;;; k" := (bind c (fun _ => k))
  (at level 100, right associativity) : js_scope.
Local Open Scope js_scope.

(** [for (const x of l) { await f x }] *)
Fixpoint forEach {A} (f : A -> M unit) (l : list A) : M unit :=
  match l with
  | [] => ret tt
  | x :: r => f x ;;; forEach f r
  end.

(** ** The persistence gateway ([src/database/sqlite.ts]) *)

Section Gateway.
Variable env : Env.

(** [save()]: export the table and write the file. *)
Definition save : M unit :=
  w <~ get_world ;;
  match db w with
  | None => ret tt
  | Some t =>
      failure <~ ask (fs_write env) ;;
      match failure with
      | Some e => throw e
      | None => modify (set_disk (Some t))
      end
  end.

(** The bound parameters of the INSERT OR REPLACE. *)
Definition params (jobInfo : JobInfo) : DatabaseJob :=
  {| db_address := address jobInfo;
     db_name := Js.orAbsentStr (name jobInfo);
     last_worked_block := Js.orAbsentNum (lastWorkedBlock jobInfo);
     consecutive_workable_blocks := consecutiveWorkableBlocks jobInfo;
     is_currently_workable := if isCurrentlyWorkable jobInfo then 1 else 0;
     last_checked_block := lastCheckedBlock jobInfo;
     alerts_sent := alertsSent jobInfo;
     last_alert_block := Js.orAbsentNum (lastAlertBlock jobInfo) |}.

(** [db.run(query, params)]: the row replaces the one with the same primary key. *)
Definition run (row : DatabaseJob) : M unit :=
  w <~ get_world ;;
  match db w with
  | None => ret tt
  | Some t =>
      failure <~ ask (sql_run env) ;;
      match failure with
      | Some e => throw e
      | None => modify (set_db (<[db_address row := row]> t))
      end
  end.

Definition upsertJob (jobInfo : JobInfo) : M unit :=
  w <~ get_world ;;
  match db w with
  | None => throw (JsError "Database not initialized")
  | Some _ =>
      try_catch
        (run (params jobInfo) ;;;
         save ;;;
         log DEBUG "Job updated in database")
        (fun err =>
           log ERROR "Failed to upsert job" ;;;
           throw err)
  end.

(** The record built from a selected row. *)
Definition jobInfoOfRow (result : DatabaseJob) : JobInfo :=
  {| address := db_address result;
     name := Js.orAbsentStr (db_name result);
     description := None;
     lastWorkedBlock := Js.orAbsentNum (last_worked_block result);
     consecutiveWorkableBlocks := consecutive_workable_blocks result;
     isCurrentlyWorkable := negb (is_currently_workable result =? 0);
     lastCheckedBlock := last_checked_block result;
     alertsSent := alerts_sent result;
     lastAlertBlock := Js.orAbsentNum (last_alert_block result) |}.

(** The row of [SELECT * FROM jobs WHERE address = ?], if there is one. *)
Definition selectRow (t : gmap string DatabaseJob) (addr : string) : option DatabaseJob :=
  match t !! addr with
  | Some row => if String.eqb (db_address row) addr then Some row else None
  | None => None
  end.

(** [stmt.getAsObject([address])] for [SELECT * FROM jobs WHERE address = ?]:
    the row whose [address] column is the parameter; without one every
    column of the object is undefined. *)
Definition select (addr : string) : M (option DatabaseJob) :=
  w <~ get_world ;;
  match db w with
  | None => ret None
  | Some t =>
      failure <~ ask (sql_select env) ;;
      match failure with
      | Some e => throw e
      | None =>
          ret (selectRow t addr)
      end
  end.

(** [if (result && result.address) { ... } else { return null }] *)
Definition jobOfResult (result : option DatabaseJob) : option JobInfo :=
  match result with
  | Some row =>
      if Js.truthyString (db_address row) then Some (jobInfoOfRow row) else None
  | None => None
  end.

Definition getJob (addr : string) : M (option JobInfo) :=
  w <~ get_world ;;
  match db w with
  | None => throw (JsError "Database not initialized")
  | Some _ =>
      try_catch
        (result <~ select addr ;;
         ret (jobOfResult result))
        (fun err =>
           log ERROR "Failed to get job" ;;;
           throw err)
  end.

End Gateway.

(** ** The ledger client ([src/services/ethereum.ts]) *)

Section EthereumService.
Variable env : Env.

(** [monitorLogger.rpcError] *)
Definition rpcError : M unit := log ERROR "RPC call failed".

Definition getLatestBlock : M Z :=
  try_catch
    (record EvHeadQuery ;;;
     r <~ ask (rpc_latest env) ;;
     block <~ await r ;;
     match block with
     | None => throw (JsError "Failed to get latest block")
     | Some number => ret number
     end)
    (fun error => rpcError ;;; throw error).

(** The signatures [checkJobWorkable] and [checkMultipleJobsWorkable] look
    for in a lower-cased message. *)
Definition rateLimitSignature (errorMessage : string) : bool :=
  let m := Js.toLowerCase errorMessage in
  Js.includes "too many requests" m || Js.includes "rate limit" m || Js.includes "429" m.

(** [blockNumber ? { blockTag: blockNumber } : {}] *)
Definition overridesOf (blockNumber : Z) : option Z :=
  if blockNumber =? 0 then None else Some blockNumber.

Definition checkJobWorkable (jobAddress : string) (blockNumber : Z) : M JobStatus :=
  try_catch
    (record (EvWorkableQuery jobAddress (overridesOf blockNumber)) ;;;
     r <~ ask (fun t => rpc_workable env t jobAddress (overridesOf blockNumber)) ;;
     workable <~ await r ;;
     number <~ (if blockNumber =? 0 then getLatestBlock else ret blockNumber) ;;
     ret {| st_address := jobAddress; workable := workable;
            blockNumber := number; error := None |})
    (fun error =>
       let errorMessage := messageOr "Unknown error" error in
       if rateLimitSignature errorMessage then
         rpcError ;;;
         throw error
       else
         rpcError ;;;
         ret {| st_address := jobAddress; workable := false;
                blockNumber := blockNumber; error := Some errorMessage |}).

(** [Promise.allSettled]: every promise is run to its outcome, none is
    skipped because an earlier one rejected. *)
Fixpoint allSettled {A} (promises : list (M A)) : M (list (Result A)) :=
  match promises with
  | [] => ret []
  | p :: rest =>
      fun w => let '(r, w') := p w in
               (rs <~ allSettled rest ;; ret (r :: rs)) w'
  end.

(** The filter on the settled results. *)
Definition isRateLimitingRejection (result : Result JobStatus) : bool :=
  match result with
  | Throw (JsError message) => rateLimitSignature message
  | _ => false
  end.

(** The result kept for the job at the same index. *)
Definition statusOfSettled (blockNumber : Z) (jobAddress : string)
    (result : Result JobStatus) : JobStatus :=
  match result with
  | Ok value => value
  | Throw reason =>
      {| st_address := jobAddress; workable := false;
         blockNumber := blockNumber;
         error := Some (messageOr "Unknown error" reason) |}
  end.

Definition checkMultipleJobsWorkable (jobAddresses : list string) (blockNumber : Z)
    : M (list JobStatus) :=
  results <~ allSettled (map (fun a => checkJobWorkable a blockNumber) jobAddresses) ;;
  match List.filter isRateLimitingRejection results with
  | Throw reason :: _ => throw reason
  | _ => ret (zip_with (statusOfSettled blockNumber) jobAddresses results)
  end.

Definition checkWorkTransactionInBlock (jobAddress : string) (blockNumber : Z) : M bool :=
  record (EvWorkedQuery jobAddress blockNumber) ;;;
  ask (fun t => rpc_worked env t jobAddress blockNumber).

End EthereumService.

(** ** The alert sink ([src/services/discord.ts]) *)

Section DiscordService.
Variable env : Env.

(** [DiscordService.sendAlert]; [EvAlert] is the POST to the webhook. *)
Definition discordSendAlert (alertData : AlertData) : M bool :=
  try_catch
    (record (EvAlert alertData) ;;;
     r <~ ask (webhook env) ;;
     ok <~ await r ;;
     if ok : bool then
       log INFO "Discord alert sent successfully" ;;;
       ret true
     else throw (JsError "Discord API error"))
    (fun error =>
       log ERROR "Failed to send Discord alert" ;;;
       ret false).

End DiscordService.

(** ** The monitoring service ([src/services/monitor.ts]) *)

(** [KNOWN_JOBS] of [src/contracts/sequencer.ts], in declaration order. *)
Definition KNOWN_JOBS : list (string * string) :=
  [ ("AutoLineJob", "0x67AD4000e73579B9725eE3A149F85C4Af0A61361");
    ("LerpJob", "0x8F8f2FC1F0380B9Ff4fE5c3142d0811aC89E32fB");
    ("D3MJob", "0x2Ea4aDE144485895B923466B4521F5ebC03a0AeF");
    ("ClipperMomJob", "0x7E93C4f61C8E8874e7366cDbfeFF934Ed089f9fF");
    ("OracleJob", "0xe717Ec34b2707fc8c226b34be5eae8482d06ED03");
    ("FlapJob", "0xc32506E9bB590971671b649d9B8e18CB6260559F") ].

Fixpoint getJobNameIn (known : list (string * string)) (addr : string) : string :=
  match known with
  | [] => "Job " +:+ Js.slice0 8 addr +:+ "..."
  | (name, knownAddress) :: rest =>
      if String.eqb (Js.toLowerCase knownAddress) (Js.toLowerCase addr)
      then name
      else getJobNameIn rest addr
  end.

Definition getJobName (addr : string) : string := getJobNameIn KNOWN_JOBS addr.

(** Assignments to the fields of the [jobInfo] object. *)
Definition set_isCurrentlyWorkable (v : bool) (j : JobInfo) : JobInfo :=
  mkJobInfo (address j) (name j) (description j) (lastWorkedBlock j)
    (consecutiveWorkableBlocks j) v (lastCheckedBlock j) (alertsSent j) (lastAlertBlock j).

Definition set_lastCheckedBlock (v : Z) (j : JobInfo) : JobInfo :=
  mkJobInfo (address j) (name j) (description j) (lastWorkedBlock j)
    (consecutiveWorkableBlocks j) (isCurrentlyWorkable j) v (alertsSent j) (lastAlertBlock j).

Definition set_consecutiveWorkableBlocks (v : Z) (j : JobInfo) : JobInfo :=
  mkJobInfo (address j) (name j) (description j) (lastWorkedBlock j)
    v (isCurrentlyWorkable j) (lastCheckedBlock j) (alertsSent j) (lastAlertBlock j).

Definition set_alertsSent (v : Z) (j : JobInfo) : JobInfo :=
  mkJobInfo (address j) (name j) (description j) (lastWorkedBlock j)
    (consecutiveWorkableBlocks j) (isCurrentlyWorkable j) (lastCheckedBlock j) v (lastAlertBlock j).

Definition set_lastAlertBlock (v : Z) (j : JobInfo) : JobInfo :=
  mkJobInfo (address j) (name j) (description j) (lastWorkedBlock j)
    (consecutiveWorkableBlocks j) (isCurrentlyWorkable j) (lastCheckedBlock j) (alertsSent j) (Some v).

Definition set_lastWorkedBlock (v : Z) (j : JobInfo) : JobInfo :=
  mkJobInfo (address j) (name j) (description j) (Some v)
    (consecutiveWorkableBlocks j) (isCurrentlyWorkable j) (lastCheckedBlock j) (alertsSent j) (lastAlertBlock j).

(** The record [processJobStatus] starts from when the store has none. *)
Definition freshJobInfo (addr : string) (blockNumber : Z) : JobInfo :=
  {| address := addr; name := Some (getJobName addr); description := None;
     lastWorkedBlock := None; consecutiveWorkableBlocks := 0;
     isCurrentlyWorkable := false; lastCheckedBlock := blockNumber;
     alertsSent := 0; lastAlertBlock := None |}.

(** [jobStatus.workable && !jobStatus.error] *)
Definition isWorkableStatus (jobStatus : JobStatus) : bool :=
  workable jobStatus && negb (Js.truthyStr (error jobStatus)).

(** [jobInfo.lastAlertBlock ? blockNumber - jobInfo.lastAlertBlock : Infinity],
    with [None] for [Infinity]. *)
Definition blocksSinceLastAlert (jobInfo : JobInfo) (blockNumber : Z) : option Z :=
  match lastAlertBlock jobInfo with
  | Some last => if last =? 0 then None else Some (blockNumber - last)
  | None => None
  end.

(** [blocksSinceLastAlert >= threshold]; [Infinity] is at least any threshold. *)
Definition sinceAtLeast (since : option Z) (thresholdBlocks : Z) : bool :=
  match since with
  | Some d => thresholdBlocks <=? d
  | None => true
  end.

(** The four signatures [processBlockWithRetry] looks for. *)
Definition isRateLimited (errorMsg : string) : bool :=
  let m := Js.toLowerCase errorMsg in
  Js.includes "rate limit" m || Js.includes "too many requests" m
  || Js.includes "429" m || Js.includes "-32005" m.

(** [Math.pow(3, attempt + 4) * 1000] *)
Definition backoffDelay (attempt : nat) : Z := 3 ^ (Z.of_nat attempt + 4) * 1000.

Definition exhaustedMessage (blockNumber : Z) (retries : nat) : string :=
  "Failed to process block " +:+ Js.showZ blockNumber +:+ " after "
  +:+ Js.showZ (Z.of_nat retries) +:+ " attempts due to rate limiting".

Definition skipMessage : string := "Failed to process block after all retries - skipping".

(** The [alertData] object [sendAlert] builds (its [timestamp], the wall
    clock, is left out). *)
Definition alertFor (config : MonitoringConfig) (jobInfo : JobInfo) (blockNumber : Z)
    : AlertData :=
  {| jobAddress := address jobInfo; jobName := name jobInfo;
     alert_consecutiveWorkableBlocks := consecutiveWorkableBlocks jobInfo;
     currentBlock := blockNumber;
     threshold := alertThresholdBlocks config |}.

Section MonitoringService.
Variable env : Env.
Variable config : MonitoringConfig.

Definition sendAlert (jobInfo : JobInfo) (blockNumber : Z) : M unit :=
  try_catch
    (let alertData := alertFor config jobInfo blockNumber in
     discordSendAlert env alertData ;;;
     log WARN "Job alert triggered")
    (fun error => log ERROR "Failed to send alert").

(** The branch of [processJobStatus] taken when the job is workable. *)
Definition whenWorkable (wasWorkable : bool) (jobInfo : JobInfo) (blockNumber : Z)
    : M JobInfo :=
  let jobInfo :=
    if wasWorkable
    then set_consecutiveWorkableBlocks (consecutiveWorkableBlocks jobInfo + 1) jobInfo
    else set_consecutiveWorkableBlocks 1 jobInfo in
  if alertThresholdBlocks config <=? consecutiveWorkableBlocks jobInfo then
    if sinceAtLeast (blocksSinceLastAlert jobInfo blockNumber) (alertThresholdBlocks config)
    then
      sendAlert jobInfo blockNumber ;;;
      ret (set_lastAlertBlock blockNumber (set_alertsSent (alertsSent jobInfo + 1) jobInfo))
    else ret jobInfo
  else ret jobInfo.

(** The branch taken when it is not. *)
Definition whenNotWorkable (wasWorkable : bool) (jobInfo : JobInfo) (blockNumber : Z)
    : M JobInfo :=
  jobInfo <~
    (if wasWorkable then
       wasWorked <~ checkWorkTransactionInBlock env (address jobInfo) blockNumber ;;
       if wasWorked : bool then
         log INFO "Job was worked" ;;;
         ret (set_lastWorkedBlock blockNumber jobInfo)
       else ret jobInfo
     else ret jobInfo) ;;
  ret (set_consecutiveWorkableBlocks 0 jobInfo).

Definition processJobStatus (jobStatus : JobStatus) (blockNumber : Z) : M unit :=
  try_catch
    (found <~ getJob env (st_address jobStatus) ;;
     let jobInfo :=
       match found with
       | Some j => j
       | None => freshJobInfo (st_address jobStatus) blockNumber
       end in
     let wasWorkable := isCurrentlyWorkable jobInfo in
     let isWorkable := isWorkableStatus jobStatus in
     let jobInfo :=
       set_lastCheckedBlock blockNumber (set_isCurrentlyWorkable isWorkable jobInfo) in
     jobInfo <~
       (if isWorkable
        then whenWorkable wasWorkable jobInfo blockNumber
        else whenNotWorkable wasWorkable jobInfo blockNumber) ;;
     upsertJob env jobInfo ;;;
     log DEBUG "Job check completed")
    (fun error => log ERROR "Error processing job status").

Definition processBlock (blockNumber : Z) : M unit :=
  try_catch
    (w <~ get_world ;;
     jobStatuses <~ checkMultipleJobsWorkable env (jobAddresses w) blockNumber ;;
     forEach (fun jobStatus => processJobStatus jobStatus blockNumber) jobStatuses)
    (fun error =>
       log ERROR "Error processing block" ;;;
       throw error).

(** The loop of [processBlockWithRetry], [remaining] iterations before
    [attempt < retries] fails.  [attemptBlock] is the method called for one
    attempt, [this.processBlock]. *)
Fixpoint retryLoop (attemptBlock : Z -> M unit) (blockNumber : Z) (retries : nat)
    (remaining attempt : nat) : M unit :=
  match remaining with
  | O => throw (JsError (exhaustedMessage blockNumber retries))
  | S remaining' =>
      try_catch
        (record (EvAttempt blockNumber attempt) ;;;
         attemptBlock blockNumber)
        (fun error =>
           let errorMsg := messageOr "" error in
           log DEBUG "Processing block error details" ;;;
           if isRateLimited errorMsg then
             let delay := backoffDelay attempt in
             log WARN ("Rate limited, backing off for " +:+ Js.showZ delay +:+ "ms") ;;;
             record (EvDelay delay) ;;;
             retryLoop attemptBlock blockNumber retries remaining' (S attempt)
           else
             log ERROR "Error processing block (non-rate-limit)" ;;;
             throw error)
  end.

Definition processBlockWithRetryOn (attemptBlock : Z -> M unit) (blockNumber : Z)
    (retries : nat) : M unit :=
  retryLoop attemptBlock blockNumber retries retries 0.

(** [processBlockWithRetry(blockNumber)] with the default [retries = 3]. *)
Definition processBlockWithRetry (blockNumber : Z) : M unit :=
  processBlockWithRetryOn processBlock blockNumber 3.

(** The [for] loop of [monitoringLoop] over the block numbers still to visit. *)
Fixpoint scanBlocks (blocks : list Z) (successfullyProcessed : Z) : M Z :=
  match blocks with
  | [] => ret successfullyProcessed
  | blockNum :: rest =>
      successfullyProcessed <~
        try_catch
          (processBlockWithRetry blockNum ;;;
           ret blockNum)
          (fun error =>
             log ERROR skipMessage ;;;
             ret blockNum) ;;
      scanBlocks rest successfullyProcessed
  end.

Definition monitoringLoop : M unit :=
  try_catch
    (currentBlock <~ getLatestBlock env ;;
     w <~ get_world ;;
     if currentBlock <=? lastProcessedBlock w then ret tt
     else
       let blocksToProcess :=
         Z.min (currentBlock - lastProcessedBlock w) (maxBlocksPerQuery config) in
       let endBlock := lastProcessedBlock w + blocksToProcess in
       log DEBUG "Processing blocks with limit" ;;;
       successfullyProcessed <~
         scanBlocks (seqZ (lastProcessedBlock w + 1) blocksToProcess)
                    (lastProcessedBlock w) ;;
       modify (set_lastProcessedBlock successfullyProcessed) ;;;
       (if endBlock <? currentBlock
        then log INFO "Still catching up on blocks"
        else ret tt) ;;;
       log INFO "Block processed")
    (fun error => log ERROR "Error in monitoring loop").

End MonitoringService.

(** ** The scheduler ([start], [stop], [forceCheck] and the interval timer)

    Calls of [monitoringLoop] overlap in time only here, so the scheduler is
    a transition system of its own: the state counts the calls of
    [monitoringLoop] that have begun and not yet settled.  A call does not
    settle in the step that begins it, since its first statement awaits the
    node. *)

Module Scheduler.

Record State := mkState {
  isRunning : bool;
  (** [this.monitoringInterval] holds a registered timer *)
  monitoringInterval : bool;
  (** calls of [monitoringLoop] begun and not settled *)
  inFlight : nat;
  (** [forceCheck] calls that threw *)
  rejected : nat;
}.

Definition initial : State :=
  {| isRunning := false; monitoringInterval := false; inFlight := 0; rejected := 0 |}.

Inductive Input :=
| CallStart
| TimerFires
| LoopSettles
| CallStop
| CallForceCheck.

(** [this.monitoringLoop()] is called. *)
Definition beginLoop (s : State) : State :=
  {| isRunning := isRunning s; monitoringInterval := monitoringInterval s;
     inFlight := S (inFlight s); rejected := rejected s |}.

Definition step (s : State) (i : Input) : State :=
  match i with
  | CallStart =>
      if isRunning s then s
      else beginLoop {| isRunning := true; monitoringInterval := true;
                        inFlight := inFlight s; rejected := rejected s |}
  | TimerFires =>
      (* the callback given to setInterval: () => this.monitoringLoop().catch(...) *)
      if monitoringInterval s then beginLoop s else s
  | LoopSettles =>
      {| isRunning := isRunning s; monitoringInterval := monitoringInterval s;
         inFlight := pred (inFlight s); rejected := rejected s |}
  | CallStop =>
      if isRunning s
      then {| isRunning := false; monitoringInterval := false;
              inFlight := inFlight s; rejected := rejected s |}
      else s
  | CallForceCheck =>
      if isRunning s then beginLoop s
      else {| isRunning := isRunning s; monitoringInterval := monitoringInterval s;
              inFlight := inFlight s; rejected := S (rejected s) |}
  end.

Definition run (s : State) (inputs : list Input) : State := fold_left step inputs s.

End Scheduler.

(** ** The rest of the gateway: [initialize], the listings, [deleteJob], [close] *)

(** What the collaborators answer, at logical time [t], to the calls made
    outside a scan: at start-up, for a listing, at shutdown. *)
Record SetupEnv := mkSetupEnv {
  (** [initSqlJs()] rejecting *)
  sql_init : nat -> option Thrown;
  (** [fs.readFileSync] / [new SQL.Database(filebuffer)] throwing *)
  sql_open : nat -> option Thrown;
  (** [db.exec] throwing *)
  sql_exec : nat -> option Thrown;
  (** [db.close()] throwing *)
  sql_close : nat -> option Thrown;
  (** [sequencerContract.numJobs()], through [Number] *)
  rpc_numJobs : nat -> Result Z;
  (** [sequencerContract.jobAt(index)] *)
  rpc_jobAt : nat -> Z -> Result string;
}.

(** A call that throws what its oracle says. *)
Definition failing (oracle : nat -> option Thrown) : M unit :=
  failure <~ ask oracle ;;
  match failure with
  | Some e => throw e
  | None => ret tt
  end.

(** The rows of the table: the entries filed under their own address (the
    only ones [selectRow] finds). *)
Definition rowsOf (t : gmap string DatabaseJob) : list DatabaseJob :=
  omap (fun kr : string * DatabaseJob =>
          if String.eqb (db_address kr.2) kr.1 then Some kr.2 else None)
       (map_to_list t).

(** [ORDER BY address]: the column has the BINARY collation, which compares
    the bytes. *)
Definition byAddress (r1 r2 : DatabaseJob) : Prop :=
  String.le (db_address r1) (db_address r2).

Definition byAddress_dec : RelDecision byAddress :=
  fun r1 r2 => String.le_dec (db_address r1) (db_address r2).
#[global] Existing Instance byAddress_dec.

(** [ORDER BY consecutive_workable_blocks DESC].  SQL leaves the order of
    rows with equal counters open; the sort used here is one such order. *)
Definition byCounterDesc (r1 r2 : DatabaseJob) : Prop :=
  consecutive_workable_blocks r2 <= consecutive_workable_blocks r1.

Definition byCounterDesc_dec : RelDecision byCounterDesc :=
  fun r1 r2 => Z_le_dec (consecutive_workable_blocks r2) (consecutive_workable_blocks r1).
#[global] Existing Instance byCounterDesc_dec.

(** [SELECT * FROM jobs ORDER BY address] *)
Definition selectAll (t : gmap string DatabaseJob) : list DatabaseJob :=
  merge_sort byAddress (rowsOf t).

(** [SELECT * FROM jobs WHERE is_currently_workable = 1
     ORDER BY consecutive_workable_blocks DESC] *)
Definition selectWorkable (t : gmap string DatabaseJob) : list DatabaseJob :=
  merge_sort byCounterDesc
    (List.filter (fun row => is_currently_workable row =? 1) (rowsOf t)).

Section GatewayRest.
Variable env : Env.
Variable setup : SetupEnv.

(** [initialize()].  The field [isInitialized] is passed in and its value
    after the call is returned; a throw leaves it [false].  The table of a
    new [SQL.Database] is the one in the file when there is a file, and
    CREATE TABLE IF NOT EXISTS leaves a table that exists as it is. *)
Definition initialize (isInitialized : bool) : M bool :=
  if isInitialized then ret true
  else
    try_catch
      (failing (sql_init setup) ;;;
       w <~ get_world ;;
       failing (sql_open setup) ;;;
       modify (set_db (default ∅ (disk w))) ;;;
       failing (sql_exec setup) ;;;
       save env ;;;
       log INFO "Database initialized successfully" ;;;
       ret true)
      (fun err =>
         log ERROR "Failed to create jobs table" ;;;
         throw err).

(** The loop over [stmt.step()] of the two listings: [db.prepare],
    [stmt.step] or [stmt.getAsObject] may throw. *)
Definition selectMany (rows : list DatabaseJob) : M (list JobInfo) :=
  failing (sql_select env) ;;;
  ret (map jobInfoOfRow rows).

Definition getAllJobs : M (list JobInfo) :=
  w <~ get_world ;;
  match db w with
  | None => throw (JsError "Database not initialized")
  | Some t =>
      try_catch
        (selectMany (selectAll t))
        (fun err =>
           log ERROR "Failed to get all jobs" ;;;
           throw err)
  end.

Definition getWorkableJobs : M (list JobInfo) :=
  w <~ get_world ;;
  match db w with
  | None => throw (JsError "Database not initialized")
  | Some t =>
      try_catch
        (selectMany (selectWorkable t))
        (fun err =>
           log ERROR "Failed to get workable jobs" ;;;
           throw err)
  end.

(** [db.run('DELETE FROM jobs WHERE address = ?', [address])] *)
Definition runDelete (addr : string) : M unit :=
  w <~ get_world ;;
  match db w with
  | None => ret tt
  | Some t =>
      failing (sql_run env) ;;;
      modify (set_db (delete addr t))
  end.

Definition deleteJob (addr : string) : M unit :=
  w <~ get_world ;;
  match db w with
  | None => throw (JsError "Database not initialized")
  | Some _ =>
      try_catch
        (runDelete addr ;;;
         save env ;;;
         log INFO "Job deleted from database")
        (fun err =>
           log ERROR "Failed to delete job" ;;;
           throw err)
  end.

(** [close()].  The field [db] keeps the closed handle; what a later call on
    it does is what the oracles of that call say. *)
Definition close : M unit :=
  w <~ get_world ;;
  match db w with
  | None => ret tt
  | Some _ =>
      try_catch
        (save env ;;;
         failing (sql_close setup) ;;;
         log INFO "Database connection closed")
        (fun err =>
           log ERROR "Failed to close database" ;;;
           throw err)
  end.

End GatewayRest.

(** ** The rest of the ledger client: the job list, the health check, the
       search for a [work] transaction *)

Section EthereumRest.
Variable env : Env.
Variable setup : SetupEnv.

Definition getJobCount : M Z :=
  try_catch
    (r <~ ask (rpc_numJobs setup) ;;
     await r)
    (fun error => rpcError ;;; throw error).

Definition getJobAddress (index : Z) : M string :=
  try_catch
    (r <~ ask (fun t => rpc_jobAt setup t index) ;;
     await r)
    (fun error => rpcError ;;; throw error).

(** [results.forEach((result, index) => ...)]: a fulfilled result is pushed,
    a rejected one is logged. *)
Fixpoint pushFulfilled (results : list (Result string)) (addresses : list string)
    : M (list string) :=
  match results with
  | [] => ret addresses
  | Ok value :: rest => pushFulfilled rest (addresses ++ [value])
  | Throw reason :: rest =>
      log WARN "Failed to get job address at index" ;;;
      pushFulfilled rest addresses
  end.

Definition getAllJobAddresses : M (list string) :=
  try_catch
    (jobCount <~ getJobCount ;;
     results <~ allSettled (map getJobAddress (seqZ 0 jobCount)) ;;
     addresses <~ pushFulfilled results [] ;;
     log INFO "Retrieved job addresses" ;;;
     ret addresses)
    (fun error =>
       log ERROR "Failed to get all job addresses" ;;;
       throw error).

Definition healthCheck : M bool :=
  try_catch
    (getLatestBlock env ;;;
     getJobCount ;;;
     log DEBUG "Ethereum service health check passed" ;;;
     ret true)
    (fun error =>
       log ERROR "Ethereum service health check failed" ;;;
       ret false).

End EthereumRest.

(** What [checkWorkTransactionInBlock] does with the answers of the node,
    which the oracle [rpc_worked] stands for.  The answers are given per
    call: a block is [null] or lists its transaction hashes. *)
Record Transaction := mkTransaction {
  (** [tx.to], [null] for a contract creation *)
  tx_to : option string;
  tx_data : string;
}.

Section WorkTransaction.
(** [provider.getBlock(blockNumber, true)] *)
Variable getBlock : Z -> Result (option (list string)).
(** [provider.getTransaction(txHash)] *)
Variable getTransaction : string -> Result (option Transaction).
(** [provider.getTransactionReceipt(txHash)]: the [status] of the receipt *)
Variable getTransactionReceipt : string -> Result (option (option Z)).

(** [tx.to?.toLowerCase() === jobAddress.toLowerCase()] *)
Definition sentTo (jobAddress : string) (tx : Transaction) : bool :=
  match tx_to tx with
  | Some to => String.eqb (Js.toLowerCase to) (Js.toLowerCase jobAddress)
  | None => false
  end.

(** [receipt && receipt.status === 1] *)
Definition succeeded (receipt : option (option Z)) : bool :=
  match receipt with
  | Some (Some status) => status =? 1
  | _ => false
  end.

(** The body of the [for] loop for one hash; an exception is caught and the
    loop continues. *)
Definition isWorkTransaction (jobAddress txHash : string) : bool :=
  match getTransaction txHash with
  | Ok (Some tx) =>
      if sentTo jobAddress tx then
        if Js.startsWith "0x26b6308e" (tx_data tx) then
          match getTransactionReceipt txHash with
          | Ok receipt => succeeded receipt
          | Throw _ => false
          end
        else false
      else false
  | Ok None => false
  | Throw _ => false
  end.

Fixpoint anyWorkTransaction (jobAddress : string) (transactions : list string) : bool :=
  match transactions with
  | [] => false
  | txHash :: rest =>
      if isWorkTransaction jobAddress txHash then true
      else anyWorkTransaction jobAddress rest
  end.

Definition workTransactionInBlock (jobAddress : string) (blockNumber : Z) : bool :=
  match getBlock blockNumber with
  | Ok (Some transactions) => anyWorkTransaction jobAddress transactions
  | Ok None => false
  | Throw _ => false
  end.

End WorkTransaction.

(** ** The rest of the alert sink and of the monitoring service: start-up,
       status, reports *)

Section DiscordRest.
Variable env : Env.

Definition testWebhook : M bool :=
  try_catch
    (r <~ ask (webhook env) ;;
     ok <~ await r ;;
     if ok : bool then
       log INFO "Discord webhook test successful" ;;;
       ret true
     else throw (JsError "Discord API error"))
    (fun error =>
       log ERROR "Discord webhook test failed" ;;;
       ret false).

End DiscordRest.

(** The figures of a summary report and of [getStatus]. *)
Definition workableJobsOf (jobs : list JobInfo) : list JobInfo :=
  List.filter isCurrentlyWorkable jobs.

Definition criticalJobsOf (config : MonitoringConfig) (jobs : list JobInfo) : list JobInfo :=
  List.filter (fun job => alertThresholdBlocks config <=? consecutiveWorkableBlocks job)
              (workableJobsOf jobs).

(** [job.name || `Job ${job.address.slice(0, 8)}...`] *)
Definition reportName (job : JobInfo) : string :=
  if Js.truthyStr (name job) then default "" (name job)
  else "Job " +:+ Js.slice0 8 (address job) +:+ "...".

(** What [DiscordService.sendSummaryReport] puts in the embed: whether it is
    red, the three counts, and the jobs named in the details field, which
    is there when the list is not empty. *)
Record SummaryReport := mkSummaryReport {
  red : bool;
  totalJobs : Z;
  workableJobs : Z;
  criticalJobs : Z;
  criticalDetails : list (string * Z);
}.

Definition summaryOf (config : MonitoringConfig) (jobs : list JobInfo) : SummaryReport :=
  let workable := workableJobsOf jobs in
  let critical := criticalJobsOf config jobs in
  {| red := 0 <? Z.of_nat (length critical);
     totalJobs := Z.of_nat (length jobs);
     workableJobs := Z.of_nat (length workable);
     criticalJobs := Z.of_nat (length critical);
     criticalDetails :=
       map (fun job => (reportName job, consecutiveWorkableBlocks job)) (take 5 critical) |}.

(** The object [getStatus] returns, without the copy of the configuration. *)
Record Status := mkStatus {
  status_isRunning : bool;
  status_lastProcessedBlock : Z;
  status_totalJobs : Z;
  status_workableJobs : Z;
  status_criticalJobs : Z;
  status_jobs : list (string * option string * bool * Z * Z);
}.

Section MonitoringRest.
Variable env : Env.
Variable setup : SetupEnv.
Variable config : MonitoringConfig.

Definition set_jobAddresses (l : list string) (w : World) : World :=
  {| clock := clock w; db := db w; disk := disk w;
     lastProcessedBlock := lastProcessedBlock w;
     jobAddresses := l; trace := trace w |}.

Definition loadJobAddresses : M unit :=
  try_catch
    (addresses <~ getAllJobAddresses setup ;;
     modify (set_jobAddresses addresses) ;;;
     log INFO "Loaded job addresses from Sequencer")
    (fun error =>
       log ERROR "Failed to load job addresses" ;;;
       throw error).

Definition initializeJobTracking : M unit :=
  w <~ get_world ;;
  forEach
    (fun addr =>
       existingJob <~ getJob env addr ;;
       match existingJob with
       | Some _ => ret tt
       | None =>
           w <~ get_world ;;
           upsertJob env (freshJobInfo addr (lastProcessedBlock w)) ;;;
           log DEBUG "Initialized tracking for new job"
       end)
    (jobAddresses w).

(** [MonitoringService.initialize()], with the [isInitialized] of its
    gateway passed in and returned as for [initialize]. *)
Definition initializeService (isInitialized : bool) : M bool :=
  try_catch
    (log INFO "Initializing monitoring service..." ;;;
     isInitialized <~ initialize env setup isInitialized ;;
     healthCheck env setup ;;;
     testWebhook env ;;;
     loadJobAddresses ;;;
     initializeJobTracking ;;;
     latestBlock <~ getLatestBlock env ;;
     modify (set_lastProcessedBlock latestBlock) ;;;
     log INFO "Monitoring service initialized successfully" ;;;
     ret isInitialized)
    (fun error =>
       log ERROR "Failed to initialize monitoring service" ;;;
       throw error).

Definition getStatus (isRunning : bool) : M Status :=
  jobs <~ getAllJobs env ;;
  w <~ get_world ;;
  ret {| status_isRunning := isRunning;
         status_lastProcessedBlock := lastProcessedBlock w;
         status_totalJobs := Z.of_nat (length jobs);
         status_workableJobs := Z.of_nat (length (workableJobsOf jobs));
         status_criticalJobs := Z.of_nat (length (criticalJobsOf config jobs));
         status_jobs :=
           map (fun job => (address job, name job, isCurrentlyWorkable job,
                            consecutiveWorkableBlocks job, alertsSent job)) jobs |}.

End MonitoringRest.

(** ** Notions used to state the properties *)

(** The record [getJob] would return for [addr] in world [w]. *)
Definition stored (w : World) (addr : string) : option JobInfo :=
  match db w with
  | Some t => jobOfResult (selectRow t addr)
  | None => None
  end.

(** What was recorded so far, oldest first, seen through [f]. *)
Definition history {X} (f : Event -> option X) (w : World) : list X :=
  omap f (reverse (trace w)).
Arguments history : simpl never.

Definition alertOf (e : Event) : option AlertData :=
  match e with EvAlert a => Some a | _ => None end.

Definition attemptOf (e : Event) : option (Z * nat) :=
  match e with EvAttempt b k => Some (b, k) | _ => None end.

(** The block of a first attempt: a unit the scanner starts on. *)
Definition unitOf (e : Event) : option Z :=
  match e with EvAttempt b O => Some b | _ => None end.

(** The events of the retry wrapper itself. *)
Definition retryEventOf (e : Event) : option Event :=
  match e with
  | EvAttempt _ _ | EvDelay _ => Some e
  | _ => None
  end.

(** The block a query to the node is about; [None] is the latest block. *)
Definition queryOf (e : Event) : option (option Z) :=
  match e with
  | EvHeadQuery => Some None
  | EvWorkableQuery _ tag => Some tag
  | EvWorkedQuery _ b => Some (Some b)
  | _ => None
  end.

Definition skipOf (e : Event) : option unit :=
  match e with
  | EvLog ERROR m => if String.eqb m skipMessage then Some tt else None
  | _ => None
  end.

Definition errorLogOf (e : Event) : option string :=
  match e with EvLog ERROR m => Some m | _ => None end.

(** The number of units skipped so far. *)
Definition skipped (w : World) : Z := Z.of_nat (length (history skipOf w)).

(** The store answers: no SELECT and no INSERT throws.  (Writing the file may.) *)
Definition store_ok (env : Env) : Prop :=
  forall t, sql_select env t = None /\ sql_run env t = None.

(** One check result handed to the tracker for a job. *)
Record Observation := mkObservation {
  obs_unit : Z;
  obs_workable : bool;
  obs_error : option string;
}.

Definition statusOf (addr : string) (o : Observation) : JobStatus :=
  {| st_address := addr; workable := obs_workable o;
     blockNumber := obs_unit o; error := obs_error o |}.

(** [eligible && !errored] *)
Definition eligible (o : Observation) : bool :=
  obs_workable o && negb (Js.truthyStr (obs_error o)).

Definition observe (env : Env) (config : MonitoringConfig) (addr : string)
    (o : Observation) : M unit :=
  processJobStatus env config (statusOf addr o) (obs_unit o).

Definition observeAll (env : Env) (config : MonitoringConfig) (addr : string)
    (l : list Observation) : M unit :=
  forEach (observe env config addr) l.

(** The length of the run of [true] at the head of a list, and at its end. *)
Fixpoint leadingRun (l : list bool) : nat :=
  match l with
  | true :: r => S (leadingRun r)
  | _ => O
  end.

Definition trailingRun (l : list bool) : nat := leadingRun (reverse l).

(** The alert rule on the record as it is after the counter update. *)
Definition alertDue (config : MonitoringConfig) (jobInfo : JobInfo) (blockNumber : Z) : bool :=
  (alertThresholdBlocks config <=? consecutiveWorkableBlocks jobInfo)
  && sinceAtLeast (blocksSinceLastAlert jobInfo blockNumber) (alertThresholdBlocks config).

(** The record after the counter update of the workable branch. *)
Definition counted (wasWorkable : bool) (jobInfo : JobInfo) : JobInfo :=
  if wasWorkable
  then set_consecutiveWorkableBlocks (consecutiveWorkableBlocks jobInfo + 1) jobInfo
  else set_consecutiveWorkableBlocks 1 jobInfo.

(** The record [processJobStatus] hands to [upsertJob], from the record it
    loaded, the status, and what [checkWorkTransactionInBlock] answered. *)
Definition nextJobInfo (config : MonitoringConfig) (loaded : JobInfo)
    (isWorkable wasWorked : bool) (blockNumber : Z) : JobInfo :=
  let wasWorkable := isCurrentlyWorkable loaded in
  let j := set_lastCheckedBlock blockNumber (set_isCurrentlyWorkable isWorkable loaded) in
  if isWorkable then
    let j := counted wasWorkable j in
    if alertDue config j blockNumber
    then set_lastAlertBlock blockNumber (set_alertsSent (alertsSent j + 1) j)
    else j
  else
    set_consecutiveWorkableBlocks 0
      (if wasWorkable && wasWorked then set_lastWorkedBlock blockNumber j else j).

(** The record the tracker starts from for [addr] at [blockNumber]. *)
Definition loadedOr (w : World) (addr : string) (blockNumber : Z) : JobInfo :=
  match stored w addr with
  | Some j => j
  | None => freshJobInfo addr blockNumber
  end.

(** An attempt whose outcome at time [t] is [outs t]. *)
Definition scripted (outs : nat -> Result unit) (blockNumber : Z) : M unit :=
  r <~ ask outs ;;
  await r.

(** Whether the retry wrapper takes an outcome as a rate-limit failure. *)
Definition retryable (r : Result unit) : bool :=
  match r with
  | Throw e => isRateLimited (messageOr "" e)
  | Ok _ => false
  end.

(** How many of the attempts made from time [c] on, at most [budget], fail
    with a rate-limit signature before one does not. *)
Fixpoint leadingRetryable (outs : nat -> Result unit) (c : nat) (budget : nat) : nat :=
  match budget with
  | O => O
  | S budget' =>
      if retryable (outs c) then S (leadingRetryable outs (S c) budget') else O
  end.

(** The attempts and waits of a run in which [n] attempts, numbered from
    [k], failed with a rate-limit signature, and which then made one more
    attempt or not. *)
Definition schedule (b : Z) (k n : nat) (oneMore : bool) : list Event :=
  flat_map (fun i => [EvAttempt b i; EvDelay (backoffDelay i)]) (seq k n)
  ++ (if oneMore then [EvAttempt b (k + n)] else []).

(** ** Concrete environments and worlds *)

(** Every collaborator answers; the head is block [head], every job
    answers [workableNow]. *)
Definition calmEnv (head : Z) (workableNow : bool) : Env :=
  {| rpc_latest := fun _ => Ok (Some head);
     rpc_workable := fun _ _ _ => Ok workableNow;
     rpc_worked := fun _ _ _ => false;
     sql_select := fun _ => None;
     sql_run := fun _ => None;
     fs_write := fun _ => None;
     webhook := fun _ => Ok true |}.

(** An initialized gateway with an empty table, the cursor at [cursor]. *)
Definition emptyWorld (cursor : Z) (jobs : list string) : World :=
  {| clock := 0; db := Some ∅; disk := None; lastProcessedBlock := cursor;
     jobAddresses := jobs; trace := [] |}.

Definition autoLine : string := "0x67AD4000e73579B9725eE3A149F85C4Af0A61361".
Definition lerp : string := "0x8F8f2FC1F0380B9Ff4fE5c3142d0811aC89E32fB".

(** The [mockJob] of [test/database.test.ts]. *)
Definition mockJob : JobInfo :=
  {| address := autoLine; name := Some "AutoLineJob"; description := None;
     lastWorkedBlock := None; consecutiveWorkableBlocks := 5;
     isCurrentlyWorkable := true; lastCheckedBlock := 18500000;
     alertsSent := 1; lastAlertBlock := Some 18499995 |}.

(** The same record under the empty address. *)
Definition namelessJob : JobInfo :=
  {| address := ""; name := Some "AutoLineJob"; description := None;
     lastWorkedBlock := None; consecutiveWorkableBlocks := 5;
     isCurrentlyWorkable := true; lastCheckedBlock := 18500000;
     alertsSent := 1; lastAlertBlock := Some 18499995 |}.

(** Observations of one job: workable at two blocks, then an error. *)
Definition twiceWorkable : list Observation :=
  [ {| obs_unit := 101; obs_workable := true; obs_error := None |};
    {| obs_unit := 102; obs_workable := true; obs_error := None |} ].

Definition thenReverted : Observation :=
  {| obs_unit := 103; obs_workable := false; obs_error := Some "execution reverted" |}.

(** The settings of [test/setup.ts]. *)
Definition testConfig : MonitoringConfig :=
  {| alertThresholdBlocks := 10; checkIntervalSeconds := 5; maxBlocksPerQuery := 100 |}.

(** A job seen workable for nine blocks in a row, never alerted on. *)
Definition nineInARow : JobInfo :=
  {| address := autoLine; name := Some "AutoLineJob"; description := None;
     lastWorkedBlock := None; consecutiveWorkableBlocks := 9;
     isCurrentlyWorkable := true; lastCheckedBlock := 109;
     alertsSent := 0; lastAlertBlock := None |}.

Definition worldWith (jobInfo : JobInfo) (cursor : Z) : World :=
  {| clock := 0; db := Some {[ address jobInfo := params jobInfo ]}; disk := None;
     lastProcessedBlock := cursor; jobAddresses := [address jobInfo]; trace := [] |}.

Definition workableAt (u : Z) : Observation :=
  {| obs_unit := u; obs_workable := true; obs_error := None |}.

(** As [calmEnv], but every POST to the webhook is rejected. *)
Definition deafSinkEnv (head : Z) (workableNow : bool) : Env :=
  {| rpc_latest := fun _ => Ok (Some head);
     rpc_workable := fun _ _ _ => Ok workableNow;
     rpc_worked := fun _ _ _ => false;
     sql_select := fun _ => None;
     sql_run := fun _ => None;
     fs_write := fun _ => None;
     webhook := fun _ => Throw (JsError "fetch failed") |}.

(** One job answers with a revert, the others are workable. *)
Definition revertingEnv (failing : string) : Env :=
  {| rpc_latest := fun _ => Ok (Some 200);
     rpc_workable := fun _ a _ =>
       if String.eqb a failing then Throw (JsError "execution reverted") else Ok true;
     rpc_worked := fun _ _ _ => false;
     sql_select := fun _ => None;
     sql_run := fun _ => None;
     fs_write := fun _ => None;
     webhook := fun _ => Ok true |}.

(** Two rate-limit failures, then success. *)
Definition twoRateLimits (t : nat) : Result unit :=
  match t with
  | O => Throw (JsError "429 Too Many Requests")
  | S O => Throw (JsError "Rate limit exceeded")
  | _ => Ok tt
  end.

(** Every check of every job is answered with HTTP 429. *)
Definition rateLimitedEnv (head : Z) : Env :=
  {| rpc_latest := fun _ => Ok (Some head);
     rpc_workable := fun _ _ _ => Throw (JsError "429 Too Many Requests");
     rpc_worked := fun _ _ _ => false;
     sql_select := fun _ => None;
     sql_run := fun _ => None;
     fs_write := fun _ => None;
     webhook := fun _ => Ok true |}.



(** ** Notions used in the proofs *)

(** A method keeps a relation between the world before and the world after. *)
Definition preserves (R : relation World) {A} (m : M A) : Prop :=
  forall w, R w (snd (m w)).

(** A relation every clock tick and every log line keeps. *)
Class Frame (R : relation World) := {
  frame_preorder : PreOrder R;
  frame_tick : forall w, R w (tick w);
  frame_log : forall l m w, R w (emit (EvLog l m) w);
}.
#[global] Existing Instance frame_preorder.

(** What else a relation may allow. *)
Definition allows (R : relation World) (e : Event) : Prop := forall w, R w (emit e w).
Definition writes_db (R : relation World) : Prop := forall t w, R w (set_db t w).
Definition writes_disk (R : relation World) : Prop := forall t w, R w (set_disk t w).

(** What a relation must allow for the scan of block [b]. *)
Definition allows_unit (R : relation World) (b : Z) : Prop :=
  b <> 0 /\
  (forall a, allows R (EvWorkedQuery a b)) /\
  (forall a, allows R (EvWorkableQuery a (Some b))) /\
  (forall k, (k < 3)%nat -> allows R (EvAttempt b k)).

(** An observation of the world has the same value after as before. *)
Definition same {X} (f : World -> X) : relation World := fun w w' => f w' = f w.

(** The history seen through [f] grows by items that satisfy [Q]. *)
Definition adds {X} (f : Event -> option X) (Q : X -> Prop) : relation World :=
  fun w w' => exists xs, history f w' = history f w ++ xs /\ Forall Q xs.

(** The record read back after [jobInfo] was written. *)
Definition reread (jobInfo : JobInfo) : JobInfo := jobInfoOfRow (params jobInfo).

(** The branch of [processJobStatus] between the read and the write. *)
Definition trackerBranch (env : Env) (config : MonitoringConfig)
    (isWorkable was : bool) (j : JobInfo) (b : Z) : M JobInfo :=
  if isWorkable then whenWorkable env config was j b else whenNotWorkable env was j b.

(** The run the store holds for a job: its counter while it is workable. *)
Definition effectiveRun (w : World) (addr : string) : Z :=
  match stored w addr with
  | Some j => if isCurrentlyWorkable j then consecutiveWorkableBlocks j else 0
  | None => 0
  end.

(** The run after a sequence, from the run before it. *)
Definition runFrom (c : Z) (l : list Observation) : Z :=
  fold_left (fun c o => if eligible o then c + 1 else 0) l c.

(** The record of the workable branch before the alert rule is applied. *)
Definition counting (loaded : JobInfo) (isWorkable : bool) (b : Z) : JobInfo :=
  counted (isCurrentlyWorkable loaded)
    (set_lastCheckedBlock b (set_isCurrentlyWorkable isWorkable loaded)).

(** The alert [processJobStatus] sends, if it sends one. *)
Definition alertSent (config : MonitoringConfig) (loaded : JobInfo) (isWorkable : bool) (b : Z) : list AlertData :=
  let j := counted (isCurrentlyWorkable loaded)
             (set_lastCheckedBlock b (set_isCurrentlyWorkable isWorkable loaded)) in
  if isWorkable && alertDue config j b then [alertFor config j b] else [].

(** Whether [processJobStatus] sends an alert. *)
Definition fires (config : MonitoringConfig) (loaded : JobInfo) (isWorkable : bool) (b : Z) : bool :=
  isWorkable && alertDue config (counting loaded isWorkable b) b.

(** The rule in the words of the claim, on the counter after the update and
    the last alert block before it. *)
Definition dueBy (config : MonitoringConfig) (counterAfter : Z) (lastAlert : option Z) (U : Z) : Prop :=
  alertThresholdBlocks config <= counterAfter /\
  (lastAlert = None \/
   exists A, lastAlert = Some A /\ alertThresholdBlocks config <= U - A).

(** Units that rise strictly, starting above [u]. *)
Fixpoint risingFrom (u : Z) (l : list Observation) : Prop :=
  match l with
  | [] => True
  | o :: r => u < obs_unit o /\ risingFrom (obs_unit o) r
  end.

(** The unit of the last observation, [u] when there is none. *)
Definition lastUnit (u : Z) (l : list Observation) : Z :=
  fold_left (fun _ o => obs_unit o) l u.

(** Every alert of the job was sent at or before unit [u], and before the
    run the job is in began, unless that run already reached the threshold. *)
Definition alertInv (config : MonitoringConfig) (addr : string) (u : Z) (w : World) : Prop :=
  forall j A, stored w addr = Some j -> lastAlertBlock j = Some A ->
    A <= u /\
    (effectiveRun w addr < alertThresholdBlocks config -> A + effectiveRun w addr <= u).

(** What [checkJobWorkable] settles to, from what the node answered. *)
Definition settledCheck (b : Z) (a : string) (r : Result bool) : Result JobStatus :=
  match r with
  | Ok v => Ok {| st_address := a; workable := v; blockNumber := b; error := None |}
  | Throw e =>
      if rateLimitSignature (messageOr "Unknown error" e) then Throw e
      else Ok {| st_address := a; workable := false; blockNumber := b;
                 error := Some (messageOr "Unknown error" e) |}
  end.

(** The world of a new process over the same file: the fields of the
    service and of the gateway have their initial values. *)
Definition restarted (w : World) : World :=
  {| clock := clock w; db := None; disk := disk w; lastProcessedBlock := 0;
     jobAddresses := []; trace := trace w |}.

(** Every row holds 0 or 1 in [is_currently_workable]. *)
Definition booleanFlags (w : World) : Prop :=
  forall t k row, db w = Some t -> t !! k = Some row ->
    is_currently_workable row = 0 \/ is_currently_workable row = 1.

(** A table of two jobs, one workable. *)
Definition idleLerp : JobInfo :=
  {| address := lerp; name := Some "LerpJob"; description := None;
     lastWorkedBlock := Some 18499000; consecutiveWorkableBlocks := 0;
     isCurrentlyWorkable := false; lastCheckedBlock := 18500000;
     alertsSent := 0; lastAlertBlock := None |}.

Definition twoJobs : World :=
  {| clock := 0;
     db := Some (<[lerp := params idleLerp]> {[ autoLine := params mockJob ]});
     disk := None; lastProcessedBlock := 18500000;
     jobAddresses := [autoLine; lerp]; trace := [] |}.

(** No oracle of the start-up reports a failure; the Sequencer lists [jobs]. *)
Definition calmSetup (jobs : list string) : SetupEnv :=
  {| sql_init := fun _ => None;
     sql_open := fun _ => None;
     sql_exec := fun _ => None;
     sql_close := fun _ => None;
     rpc_numJobs := fun _ => Ok (Z.of_nat (length jobs));
     rpc_jobAt := fun _ i =>
       match jobs !! Z.to_nat i with
       | Some a => Ok a
       | None => Throw (JsError "execution reverted")
       end |}.

(** A method keeps an invariant of the world. *)
Definition keeps (I : World -> Prop) : relation World := fun w w' => I w -> I w'.

(** [n] ticks one after the other, each begun when the one before has
    settled. *)
Fixpoint ticks (env : Env) (config : MonitoringConfig) (n : nat) : M unit :=
  match n with
  | O => ret tt
  | S n' => monitoringLoop env config ;;; ticks env config n'
  end.

(** The job and block of a question to the ledger whether [work] was called. *)
Definition workedOf (e : Event) : option (string * Z) :=
  match e with EvWorkedQuery a b => Some (a, b) | _ => None end.

(** The number of alerts the store holds for a job: [alertsSent], 0 without
    a record. *)
Definition sentCount (w : World) (addr : string) : Z :=
  match stored w addr with
  | Some j => alertsSent j
  | None => 0
  end.

(** The value of a fulfilled promise. *)
Definition fulfilled {A} (r : Result A) : option A :=
  match r with
  | Ok a => Some a
  | Throw _ => None
  end.

(** What the node answers to the [jobAt] calls of [getAllJobAddresses]
    begun at time [c] for [n] jobs, in index order. *)
Definition jobAtAnswers (setup : SetupEnv) (c : nat) (n : Z) : list (Result string) :=
  imap (fun i index => rpc_jobAt setup (c + i)%nat index) (seqZ 0 n).

(** The third job of the Sequencer cannot be fetched. *)
Definition flakySetup : SetupEnv :=
  {| sql_init := fun _ => None;
     sql_open := fun _ => None;
     sql_exec := fun _ => None;
     sql_close := fun _ => None;
     rpc_numJobs := fun _ => Ok 3;
     rpc_jobAt := fun _ i =>
       if i =? 0 then Ok autoLine
       else if i =? 1 then Ok lerp
       else Throw (JsError "missing revert data") |}.

(** Records are only ever added: what [getJob] returned before, it returns
    after. *)
Definition recordsKept : relation World :=
  fun w w' => forall a j, stored w a = Some j -> stored w' a = Some j.

(** One iteration of the loop of [initializeJobTracking]. *)
Definition trackOne (env : Env) (addr : string) : M unit :=
  existingJob <~ getJob env addr ;;
  match existingJob with
  | Some _ => ret tt
  | None =>
      w <~ get_world ;;
      upsertJob env (freshJobInfo addr (lastProcessedBlock w)) ;;;
      log DEBUG "Initialized tracking for new job"
  end.

(** The record the file holds for [addr]: what [getJob] returns once the
    gateway has been initialized from the file. *)
Definition onFile (w : World) (addr : string) : option JobInfo :=
  jobOfResult (selectRow (default ∅ (disk w)) addr).

(** The job and block tag of a [workable()] call. *)
Definition workableQueryOf (e : Event) : option (string * option Z) :=
  match e with EvWorkableQuery a tag => Some (a, tag) | _ => None end.

(** The first rejection with a rate-limit signature among settled results. *)
Fixpoint firstRateLimited (results : list (Result JobStatus)) : option Thrown :=
  match results with
  | [] => None
  | r :: rest =>
      if isRateLimitingRejection r
      then match r with Throw e => Some e | Ok _ => None end
      else firstRateLimited rest
  end.

(** The first job is rate limited, the others answer. *)
Definition oneRateLimited (limited : string) : Env :=
  {| rpc_latest := fun _ => Ok (Some 200);
     rpc_workable := fun _ a _ =>
       if String.eqb a limited then Throw (JsError "429 Too Many Requests") else Ok true;
     rpc_worked := fun _ _ _ => false;
     sql_select := fun _ => None;
     sql_run := fun _ => None;
     fs_write := fun _ => None;
     webhook := fun _ => Ok true |}.

(** The observation a check of job [a] at block [b] gives, when the node
    answers [answers a (Some b)] to [workable()]. *)
Definition observationAt (answers : string -> option Z -> Result bool) (a : string) (b : Z)
    : Observation :=
  match answers a (Some b) with
  | Ok v => {| obs_unit := b; obs_workable := v; obs_error := None |}
  | Throw e =>
      {| obs_unit := b; obs_workable := false;
         obs_error := Some (messageOr "Unknown error" e) |}
  end.

(** The node answers each job by the clock-independent table [answers]. *)
Definition answeringEnv (answers : string -> option Z -> Result bool) (head : Z) : Env :=
  {| rpc_latest := fun _ => Ok (Some head);
     rpc_workable := fun _ a tag => answers a tag;
     rpc_worked := fun _ _ _ => false;
     sql_select := fun _ => None;
     sql_run := fun _ => None;
     fs_write := fun _ => None;
     webhook := fun _ => Ok true |}.

(** [autoLine] is workable up to block 112 and reverts after it; the other
    jobs are not workable. *)
Definition untilBlock112 (a : string) (tag : option Z) : Result bool :=
  if String.eqb a autoLine then
    match tag with
    | Some b => if b <=? 112 then Ok true else Throw (JsError "execution reverted")
    | None => Ok true
    end
  else Ok false.

(** The alerts sent so far for job [a], oldest first. *)
Definition alertsFor (a : string) (w : World) : list AlertData :=
  List.filter (fun alert => String.eqb (jobAddress alert) a) (history alertOf w).

(** What the service holds about job [a]: its record and the alerts sent
    for it. *)
Definition viewOf (a : string) (w : World) : option JobInfo * list AlertData :=
  (stored w a, alertsFor a w).

(** As [answeringEnv], with a ledger that answers the search for a [work]
    transaction by the clock-independent table [worked]. *)
Definition tabledEnv (answers : string -> option Z -> Result bool)
    (worked : string -> Z -> bool) (head : Z) : Env :=
  {| rpc_latest := fun _ => Ok (Some head);
     rpc_workable := fun _ a tag => answers a tag;
     rpc_worked := fun _ a b => worked a b;
     sql_select := fun _ => None;
     sql_run := fun _ => None;
     fs_write := fun _ => None;
     webhook := fun _ => Ok true |}.


(** * Properties *)

(** ** Reasoning about methods *)

Ltac unfold_monad :=
  unfold await, ask, record, log, modify, get_world, try_catch, throw, bind, ret in *.

Ltac run_monad := unfold_monad; cbn in *.

Lemma bind_run {A B} (m : M A) (k : A -> M B) w :
  bind m k w = match m w with
               | (Ok a, w') => k a w'
               | (Throw e, w') => (Throw e, w')
               end.
Proof. reflexivity. Qed.

Lemma bind_log {B} l m (k : unit -> M B) w :
  bind (log l m) k w = k tt (emit (EvLog l m) w).
Proof. reflexivity. Qed.

Lemma bind_record {B} e (k : unit -> M B) w :
  bind (record e) k w = k tt (emit e w).
Proof. reflexivity. Qed.

Lemma try_catch_run {A} (m : M A) (h : Thrown -> M A) w :
  try_catch m h w = match m w with
                    | (Ok a, w') => (Ok a, w')
                    | (Throw e, w') => h e w'
                    end.
Proof. reflexivity. Qed.

(** *** Methods that keep a relation between the world before and after *)

Section Frame.
Context (R : relation World) `{!PreOrder R}.

Lemma preserves_ret {A} (a : A) : preserves R (ret a).
Proof. intros w. reflexivity. Qed.

Lemma preserves_throw {A} e : preserves R (@throw A e).
Proof. intros w. reflexivity. Qed.

Lemma preserves_get_world : preserves R get_world.
Proof. intros w. reflexivity. Qed.

Lemma preserves_await {A} (r : Result A) : preserves R (await r).
Proof. destruct r; intros w; reflexivity. Qed.

Lemma preserves_modify f : (forall w, R w (f w)) -> preserves R (modify f).
Proof. intros H w. apply H. Qed.

Lemma preserves_ask {A} (oracle : nat -> A) : (forall w, R w (tick w)) -> preserves R (ask oracle).
Proof. intros H w. apply H. Qed.

Lemma preserves_bind {A B} (m : M A) (k : A -> M B) :
  preserves R m -> (forall a, preserves R (k a)) -> preserves R (bind m k).
Proof.
  intros Hm Hk w. rewrite bind_run.
  specialize (Hm w). destruct (m w) as [[a|e] w']; cbn in *.
  - etransitivity; [exact Hm | apply Hk].
  - exact Hm.
Qed.

Lemma preserves_try_catch {A} (m : M A) h :
  preserves R m -> (forall e, preserves R (h e)) -> preserves R (try_catch m h).
Proof.
  intros Hm Hh w. rewrite try_catch_run.
  specialize (Hm w). destruct (m w) as [[a|e] w']; cbn in *.
  - exact Hm.
  - etransitivity; [exact Hm | apply Hh].
Qed.

Lemma preserves_forEach {A} (f : A -> M unit) l :
  (forall x, preserves R (f x)) -> preserves R (forEach f l).
Proof.
  intros Hf. induction l as [|x l IH]; cbn.
  - apply preserves_ret.
  - apply preserves_bind; [apply Hf | intros _; exact IH].
Qed.

Lemma preserves_allSettled {A} (ps : list (M A)) :
  Forall (preserves R) ps -> preserves R (allSettled ps).
Proof.
  induction 1 as [|p ps Hp _ IH]; cbn.
  - apply preserves_ret.
  - intros w. specialize (Hp w). destruct (p w) as [r w']; cbn in *.
    etransitivity; [exact Hp|].
    apply (preserves_bind (allSettled ps) (fun rs => ret (r :: rs)));
      [exact IH | intros; apply preserves_ret].
Qed.

End Frame.

Lemma preserves_log R `{!Frame R} l m : preserves R (log l m).
Proof. intros w. apply frame_log. Qed.

Lemma preserves_record R `{!Frame R} e : allows R e -> preserves R (record e).
Proof. intros H w. apply H. Qed.

Lemma preserves_asked R `{!Frame R} {A} (oracle : nat -> A) : preserves R (ask oracle).
Proof. intros w. apply frame_tick. Qed.

Ltac frame_step :=
  lazymatch goal with
  | |- preserves ?R (ret _) => apply (preserves_ret R)
  | |- preserves ?R (throw _) => apply (preserves_throw R)
  | |- preserves ?R get_world => apply (preserves_get_world R)
  | |- preserves ?R (await _) => apply (preserves_await R)
  | |- preserves ?R (log _ _) => apply (preserves_log R)
  | |- preserves ?R (ask _) => apply (preserves_asked R)
  | |- preserves ?R (record _) => apply (preserves_record R)
  | |- preserves ?R (bind _ _) => apply (preserves_bind R); [|intros ?; cbv beta]
  | |- preserves ?R (try_catch _ _) => apply (preserves_try_catch R); [|intros ?; cbv beta]
  | |- preserves ?R (forEach _ _) => apply (preserves_forEach R); intros ?; cbv beta
  | |- preserves ?R (modify _) => apply (preserves_modify R); intros ?
  | |- preserves _ (match ?x with _ => _ end) => destruct x
  | |- preserves _ (let _ := _ in _) => cbv zeta
  end.

Ltac frame := repeat frame_step; eauto.

(** *** The relations used *)

#[global] Instance same_preorder {X} (f : World -> X) : PreOrder (same f).
Proof.
  split.
  - intros w. reflexivity.
  - intros a b c Hab Hbc. unfold same in *. congruence.
Qed.

#[global] Instance same_db_frame : Frame (same db).
Proof. split; [apply _ | reflexivity | reflexivity]. Qed.

#[global] Instance same_disk_frame : Frame (same disk).
Proof. split; [apply _ | reflexivity | reflexivity]. Qed.

#[global] Instance same_cursor_frame : Frame (same lastProcessedBlock).
Proof. split; [apply _ | reflexivity | reflexivity]. Qed.

#[global] Instance same_jobs_frame : Frame (same jobAddresses).
Proof. split; [apply _ | reflexivity | reflexivity]. Qed.

#[global] Instance adds_preorder {X} (f : Event -> option X) Q : PreOrder (adds f Q).
Proof.
  split.
  - intros w. exists []. split; [by rewrite app_nil_r | constructor].
  - intros a b c (xs & Hxs & Qxs) (ys & Hys & Qys).
    exists (xs ++ ys). split.
    + rewrite Hys, Hxs. by rewrite app_assoc.
    + by apply Forall_app.
Qed.

Lemma history_emit {X} (f : Event -> option X) e w :
  history f (emit e w) = history f w ++ match f e with Some x => [x] | None => [] end.
Proof.
  unfold history. change (trace (emit e w)) with (e :: trace w).
  rewrite reverse_cons, omap_app. cbn.
  destruct (f e); reflexivity.
Qed.

Lemma adds_allows {X} (f : Event -> option X) (Q : X -> Prop) e :
  match f e with Some x => Q x | None => True end -> allows (adds f Q) e.
Proof.
  intros H w. unfold adds. rewrite history_emit.
  destruct (f e) as [x|].
  - exists [x]. split; [done | by constructor].
  - exists []. split; [done | constructor].
Qed.

Lemma adds_same_trace {X} (f : Event -> option X) Q w w' :
  trace w' = trace w -> adds f Q w w'.
Proof.
  intros H. exists []. unfold history. rewrite H, app_nil_r. split; [done | constructor].
Qed.

Lemma adds_frame {X} (f : Event -> option X) Q :
  (forall l m, f (EvLog l m) = None) -> Frame (adds f Q).
Proof.
  intros Hlog. split.
  - apply _.
  - intros w. by apply adds_same_trace.
  - intros l m w. apply adds_allows. by rewrite Hlog.
Qed.

#[global] Instance adds_alert_frame Q : Frame (adds alertOf Q).
Proof. by apply adds_frame. Qed.

#[global] Instance adds_attempt_frame Q : Frame (adds attemptOf Q).
Proof. by apply adds_frame. Qed.

#[global] Instance adds_unit_frame Q : Frame (adds unitOf Q).
Proof. by apply adds_frame. Qed.

#[global] Instance adds_retry_frame Q : Frame (adds retryEventOf Q).
Proof. by apply adds_frame. Qed.

#[global] Instance adds_query_frame Q : Frame (adds queryOf Q).
Proof. by apply adds_frame. Qed.

Lemma adds_nothing {X} (f : Event -> option X) w w' :
  adds f (fun _ => False) w w' -> history f w' = history f w.
Proof.
  intros (xs & H & HQ). destruct xs as [|x xs].
  - by rewrite app_nil_r in H.
  - by apply Forall_cons in HQ as [[] _].
Qed.

(** *** What each method keeps *)

Section MethodFrames.
Context (env : Env) (config : MonitoringConfig).
Context (R : relation World) `{!Frame R}.

Lemma preserves_select addr : preserves R (select env addr).
Proof. unfold select. frame. Qed.

Lemma preserves_getJob addr : preserves R (getJob env addr).
Proof. unfold getJob. frame. apply preserves_select. Qed.

Lemma preserves_save : writes_disk R -> preserves R (save env).
Proof. intros H. unfold save. frame. Qed.

Lemma preserves_run row : writes_db R -> preserves R (run env row).
Proof. intros H. unfold run. frame. Qed.

Lemma preserves_upsertJob jobInfo :
  writes_db R -> writes_disk R -> preserves R (upsertJob env jobInfo).
Proof.
  intros Hdb Hdisk. unfold upsertJob. frame.
  - by apply preserves_run.
  - by apply preserves_save.
Qed.

Lemma preserves_getLatestBlock :
  allows R EvHeadQuery -> preserves R (getLatestBlock env).
Proof. intros H. unfold getLatestBlock, rpcError. frame. Qed.

Lemma overridesOf_nonzero b : b <> 0 -> overridesOf b = Some b.
Proof. intros H. unfold overridesOf. by apply Z.eqb_neq in H as ->. Qed.

Lemma preserves_checkJobWorkable_any a b :
  allows R (EvWorkableQuery a (overridesOf b)) -> allows R EvHeadQuery ->
  preserves R (checkJobWorkable env a b).
Proof.
  intros H Hh. unfold checkJobWorkable, rpcError. frame.
  by apply preserves_getLatestBlock.
Qed.

Lemma preserves_checkJobWorkable a b :
  b <> 0 -> allows R (EvWorkableQuery a (Some b)) ->
  preserves R (checkJobWorkable env a b).
Proof.
  intros Hb H. unfold checkJobWorkable, rpcError.
  rewrite (overridesOf_nonzero b Hb).
  apply Z.eqb_neq in Hb as ->.
  frame.
Qed.

Lemma preserves_batch addrs b :
  (forall a, preserves R (checkJobWorkable env a b)) ->
  preserves R (checkMultipleJobsWorkable env addrs b).
Proof.
  intros H. unfold checkMultipleJobsWorkable.
  apply (preserves_bind R).
  - apply (preserves_allSettled R). apply Forall_map, Forall_forall.
    intros a _. apply H.
  - intros results. destruct (List.filter _ results) as [|[v|reason] rest]; frame.
Qed.

Lemma preserves_checkMultipleJobsWorkable addrs b :
  b <> 0 -> (forall a, allows R (EvWorkableQuery a (Some b))) ->
  preserves R (checkMultipleJobsWorkable env addrs b).
Proof.
  intros Hb H. apply preserves_batch. intros a. by apply preserves_checkJobWorkable.
Qed.

Lemma preserves_checkMultipleJobsWorkable_any addrs b :
  (forall e, allows R e) ->
  preserves R (checkMultipleJobsWorkable env addrs b).
Proof.
  intros H. apply preserves_batch. intros a. by apply preserves_checkJobWorkable_any.
Qed.

Lemma preserves_checkWorkTransactionInBlock a b :
  allows R (EvWorkedQuery a b) -> preserves R (checkWorkTransactionInBlock env a b).
Proof. intros H. unfold checkWorkTransactionInBlock. frame. Qed.

Lemma preserves_discordSendAlert alertData :
  allows R (EvAlert alertData) -> preserves R (discordSendAlert env alertData).
Proof. intros H. unfold discordSendAlert. frame. Qed.

Lemma preserves_sendAlert jobInfo b :
  allows R (EvAlert (alertFor config jobInfo b)) ->
  preserves R (sendAlert env config jobInfo b).
Proof.
  intros H. unfold sendAlert. frame. by apply preserves_discordSendAlert.
Qed.

Lemma preserves_whenWorkable was jobInfo b :
  (forall a, allows R (EvAlert a)) ->
  preserves R (whenWorkable env config was jobInfo b).
Proof.
  intros H. unfold whenWorkable. frame; by apply preserves_sendAlert.
Qed.

Lemma preserves_whenNotWorkable was jobInfo b :
  allows R (EvWorkedQuery (address jobInfo) b) ->
  preserves R (whenNotWorkable env was jobInfo b).
Proof.
  intros H. unfold whenNotWorkable. frame.
  by apply preserves_checkWorkTransactionInBlock.
Qed.

Lemma preserves_processJobStatus_with jobStatus b :
  (forall j, preserves R (upsertJob env j)) ->
  (forall a, allows R (EvAlert a)) ->
  (forall a, allows R (EvWorkedQuery a b)) ->
  preserves R (processJobStatus env config jobStatus b).
Proof.
  intros Hup Ha Hq. unfold processJobStatus.
  apply (preserves_try_catch R); [|intros; frame].
  apply (preserves_bind R); [apply preserves_getJob|]. intros found.
  apply (preserves_bind R).
  - destruct (isWorkableStatus jobStatus).
    + by apply preserves_whenWorkable.
    + by apply preserves_whenNotWorkable.
  - intros j. frame.
Qed.

Lemma preserves_processJobStatus jobStatus b :
  writes_db R -> writes_disk R ->
  (forall a, allows R (EvAlert a)) ->
  (forall a, allows R (EvWorkedQuery a b)) ->
  preserves R (processJobStatus env config jobStatus b).
Proof.
  intros Hdb Hdisk. apply preserves_processJobStatus_with.
  intros j. by apply preserves_upsertJob.
Qed.

Lemma preserves_processBlock b :
  b <> 0 -> writes_db R -> writes_disk R ->
  (forall a, allows R (EvAlert a)) ->
  (forall a, allows R (EvWorkedQuery a b)) ->
  (forall a, allows R (EvWorkableQuery a (Some b))) ->
  preserves R (processBlock env config b).
Proof.
  intros Hb Hdb Hdisk Ha Hq Hw. unfold processBlock. frame.
  - by apply preserves_checkMultipleJobsWorkable.
  - by apply preserves_processJobStatus.
Qed.

Lemma preserves_retryLoop attemptBlock b retries remaining attempt :
  preserves R (attemptBlock b) ->
  (forall k, (attempt <= k < attempt + remaining)%nat -> allows R (EvAttempt b k)) ->
  (forall d, allows R (EvDelay d)) ->
  preserves R (retryLoop attemptBlock b retries remaining attempt).
Proof.
  intros Hat Hk Hd. revert attempt Hk.
  induction remaining as [|n IH]; intros attempt Hk; cbn.
  - frame.
  - apply (preserves_try_catch R).
    + frame. apply Hk. lia.
    + intros e. frame. apply IH. intros k Hle. apply Hk. lia.
Qed.

Lemma preserves_processBlockWithRetry b :
  b <> 0 -> writes_db R -> writes_disk R ->
  (forall a, allows R (EvAlert a)) ->
  (forall a, allows R (EvWorkedQuery a b)) ->
  (forall a, allows R (EvWorkableQuery a (Some b))) ->
  (forall k, (k < 3)%nat -> allows R (EvAttempt b k)) ->
  (forall d, allows R (EvDelay d)) ->
  preserves R (processBlockWithRetry env config b).
Proof.
  intros Hb Hdb Hdisk Ha Hq Hw Hk Hd. apply preserves_retryLoop; auto.
  - by apply preserves_processBlock.
  - intros k Hle. apply Hk. lia.
Qed.

Lemma preserves_scanBlocks blocks sp :
  writes_db R -> writes_disk R ->
  (forall a, allows R (EvAlert a)) ->
  (forall d, allows R (EvDelay d)) ->
  Forall (allows_unit R) blocks ->
  preserves R (scanBlocks env config blocks sp).
Proof.
  intros Hdb Hdisk Ha Hd Hblocks. revert sp.
  induction Hblocks as [|b blocks (Hb & Hq & Hw & Hk) _ IH]; intros sp; cbn.
  - frame.
  - apply (preserves_bind R); [|intros sp'; apply IH].
    apply (preserves_try_catch R); [|intros; frame].
    apply (preserves_bind R); [|intros; frame].
    by apply preserves_processBlockWithRetry.
Qed.

End MethodFrames.

(** ** The persistence gateway *)

Section GatewayFacts.
Context (env : Env).

Lemma getJob_ok addr w t :
  db w = Some t -> sql_select env (clock w) = None ->
  getJob env addr w = (Ok (stored w addr), tick w).
Proof.
  intros Hdb Hsel. unfold getJob, select, stored. run_monad.
  rewrite Hdb. cbn. rewrite Hdb, Hsel. reflexivity.
Qed.

Lemma upsertJob_db jobInfo w t :
  db w = Some t -> sql_run env (clock w) = None ->
  db (snd (upsertJob env jobInfo w)) = Some (<[address jobInfo := params jobInfo]> t).
Proof.
  intros Hdb Hrun. unfold upsertJob, run, save. run_monad.
  rewrite Hdb. cbn. rewrite Hdb, Hrun. cbn.
  destruct (fs_write env (S (clock w))); reflexivity.
Qed.

Lemma upsertJob_returns jobInfo w :
  fst (upsertJob env jobInfo w) = Ok tt ->
  exists t, db w = Some t /\
    db (snd (upsertJob env jobInfo w)) = Some (<[address jobInfo := params jobInfo]> t).
Proof.
  intros Hok. destruct (db w) as [t|] eqn:Hdb.
  - exists t. split; [done|]. apply upsertJob_db; [done|].
    revert Hok. unfold upsertJob, run, save. run_monad.
    rewrite Hdb. cbn. rewrite Hdb.
    destruct (sql_run env (clock w)); cbn; [discriminate | done].
  - revert Hok. unfold upsertJob. run_monad. rewrite Hdb. discriminate.
Qed.

(** When the INSERT throws, neither the table nor the file changes. *)
Lemma upsertJob_run_fails jobInfo w t e :
  db w = Some t -> sql_run env (clock w) = Some e ->
  fst (upsertJob env jobInfo w) = Throw e /\
  db (snd (upsertJob env jobInfo w)) = db w /\
  disk (snd (upsertJob env jobInfo w)) = disk w.
Proof.
  intros Hdb Hrun. unfold upsertJob, run, save. run_monad.
  rewrite Hdb. cbn. rewrite Hdb, Hrun. cbn. by rewrite Hdb.
Qed.

Lemma getJob_returns addr w r :
  fst (getJob env addr w) = Ok r -> r = stored w addr.
Proof.
  unfold getJob, select, stored. run_monad.
  destruct (db w) as [t|] eqn:Hdb; cbn; [|discriminate].
  rewrite Hdb.
  destruct (sql_select env (clock w)); cbn; [discriminate|].
  by intros [= <-].
Qed.

End GatewayFacts.

Lemma selectRow_insert t (row : DatabaseJob) :
  selectRow (<[db_address row := row]> t) (db_address row) = Some row.
Proof.
  unfold selectRow. rewrite lookup_insert_eq. by rewrite String.eqb_refl.
Qed.

Lemma selectRow_insert_ne t (row : DatabaseJob) addr :
  db_address row <> addr ->
  selectRow (<[db_address row := row]> t) addr = selectRow t addr.
Proof. intros H. unfold selectRow. by rewrite lookup_insert_ne. Qed.

Lemma selectRow_address t addr row :
  selectRow t addr = Some row -> db_address row = addr.
Proof.
  unfold selectRow. destruct (t !! addr) as [r|]; [|discriminate].
  destruct (String.eqb (db_address r) addr) eqn:E; [|discriminate].
  intros [= <-]. by apply String.eqb_eq.
Qed.

Lemma truthyString_nonempty s : s <> "" -> Js.truthyString s = true.
Proof. by destruct s. Qed.

Lemma stored_address w addr j : stored w addr = Some j -> address j = addr.
Proof.
  unfold stored, jobOfResult. destruct (db w) as [t|]; [|discriminate].
  destruct (selectRow t addr) as [row|] eqn:E; [|discriminate].
  destruct (Js.truthyString (db_address row)); [|discriminate].
  intros [= <-]. cbn. by eapply selectRow_address.
Qed.

Lemma reread_isCurrentlyWorkable j : isCurrentlyWorkable (reread j) = isCurrentlyWorkable j.
Proof. cbn. by destruct (isCurrentlyWorkable j). Qed.

Lemma orAbsentNum_idem o : Js.orAbsentNum (Js.orAbsentNum o) = Js.orAbsentNum o.
Proof. unfold Js.orAbsentNum. destruct (Js.truthyNum o) eqn:E; [by rewrite E | done]. Qed.

Lemma orAbsentStr_idem o : Js.orAbsentStr (Js.orAbsentStr o) = Js.orAbsentStr o.
Proof. unfold Js.orAbsentStr. destruct (Js.truthyStr o) eqn:E; [by rewrite E | done]. Qed.

Lemma orAbsentNum_keeps o : o <> Some 0 -> Js.orAbsentNum o = o.
Proof.
  intros H. destruct o as [z|]; [|done]. unfold Js.orAbsentNum. cbn.
  destruct (z =? 0) eqn:E; [|done]. apply Z.eqb_eq in E. congruence.
Qed.

Lemma orAbsentStr_keeps o : o <> Some "" -> Js.orAbsentStr o = o.
Proof. intros H. destruct o as [[|c s]|]; done. Qed.

Lemma stored_after_insert w t j :
  db w = Some (<[address j := params j]> t) -> address j <> "" ->
  stored w (address j) = Some (reread j).
Proof.
  intros Hdb Hne. unfold stored. rewrite Hdb.
  change (address j) with (db_address (params j)).
  rewrite selectRow_insert. cbn. by rewrite truthyString_nonempty.
Qed.

Lemma stored_after_insert_at w t j addr :
  db w = Some (<[addr := params j]> t) -> address j = addr -> addr <> "" ->
  stored w addr = Some (reread j).
Proof. intros H <- Hne. by apply (stored_after_insert w t j). Qed.

(** C10, as amended.  After [upsertJob(j)] has returned, a [getJob(j.address)]
    that returns gives, when the address is not the empty string, a record
    with the address, the counter, the workable flag, the last checked block
    and the alert count of [j]; [name], [lastWorkedBlock] and
    [lastAlertBlock] are those of [j] unless they are the empty string or 0,
    in which case they are read back absent.  When the address is the empty
    string it gives [null]. *)
Theorem upsertJob_getJob_roundtrip env w j r :
  fst (upsertJob env j w) = Ok tt ->
  fst (getJob env (address j) (snd (upsertJob env j w))) = Ok r ->
  (address j <> "" ->
   exists j', r = Some j' /\
     address j' = address j /\
     consecutiveWorkableBlocks j' = consecutiveWorkableBlocks j /\
     isCurrentlyWorkable j' = isCurrentlyWorkable j /\
     lastCheckedBlock j' = lastCheckedBlock j /\
     alertsSent j' = alertsSent j /\
     (name j <> Some "" -> name j' = name j) /\
     (name j = Some "" -> name j' = None) /\
     (lastWorkedBlock j <> Some 0 -> lastWorkedBlock j' = lastWorkedBlock j) /\
     (lastWorkedBlock j = Some 0 -> lastWorkedBlock j' = None) /\
     (lastAlertBlock j <> Some 0 -> lastAlertBlock j' = lastAlertBlock j) /\
     (lastAlertBlock j = Some 0 -> lastAlertBlock j' = None)) /\
  (address j = "" -> r = None).
Proof.
  intros Hup Hget.
  destruct (upsertJob_returns env j w Hup) as (t & _ & Hdb).
  apply getJob_returns in Hget. split.
  - intros Haddr.
    rewrite (stored_after_insert _ t j Hdb Haddr) in Hget. subst r.
    exists (reread j). split; [done|].
    split; [done|]. split; [done|].
    split; [apply reread_isCurrentlyWorkable|].
    split; [done|]. split; [done|].
    cbn. rewrite !orAbsentNum_idem, orAbsentStr_idem.
    repeat split.
    + apply orAbsentStr_keeps.
    + by intros ->.
    + apply orAbsentNum_keeps.
    + by intros ->.
    + apply orAbsentNum_keeps.
    + by intros ->.
  - intros Haddr. subst r. unfold stored. rewrite Hdb, Haddr.
    unfold jobOfResult. destruct (selectRow _ "") as [row|] eqn:E; [|done].
    by rewrite (selectRow_address _ _ _ E).
Qed.

Lemma upsertJob_getJob_roundtrip_witness :
  exists j', Some (reread mockJob) = Some j' /\
    address j' = address mockJob /\
    consecutiveWorkableBlocks j' = consecutiveWorkableBlocks mockJob /\
    isCurrentlyWorkable j' = isCurrentlyWorkable mockJob /\
    lastCheckedBlock j' = lastCheckedBlock mockJob /\
    alertsSent j' = alertsSent mockJob /\
    (name mockJob <> Some "" -> name j' = name mockJob) /\
    (name mockJob = Some "" -> name j' = None) /\
    (lastWorkedBlock mockJob <> Some 0 -> lastWorkedBlock j' = lastWorkedBlock mockJob) /\
    (lastWorkedBlock mockJob = Some 0 -> lastWorkedBlock j' = None) /\
    (lastAlertBlock mockJob <> Some 0 -> lastAlertBlock j' = lastAlertBlock mockJob) /\
    (lastAlertBlock mockJob = Some 0 -> lastAlertBlock j' = None).
Proof.
  apply (proj1 (upsertJob_getJob_roundtrip (calmEnv 0 false) (emptyWorld 0 []) mockJob
                  (Some (reread mockJob))
                  ltac:(vm_compute; reflexivity) ltac:(vm_compute; reflexivity))).
  discriminate.
Defined.

(** C10, as stated, fails for a record whose address is the empty string:
    the write returns and the read gives [null], though name, last worked
    block and last alert block are neither empty nor 0. *)
Lemma roundtrip_empty_address_reads_null :
  fst (upsertJob (calmEnv 0 false) namelessJob (emptyWorld 0 [])) = Ok tt /\
  name namelessJob <> Some "" /\
  lastWorkedBlock namelessJob <> Some 0 /\
  lastAlertBlock namelessJob <> Some 0 /\
  fst (getJob (calmEnv 0 false) (address namelessJob)
         (snd (upsertJob (calmEnv 0 false) namelessJob (emptyWorld 0 [])))) = Ok None.
Proof.
  split; [vm_compute; reflexivity|].
  split; [discriminate|]. split; [discriminate|]. split; [discriminate|].
  vm_compute. reflexivity.
Qed.

(** ** The tracker *)

Section TrackerFacts.
Context (env : Env) (config : MonitoringConfig).

Lemma discordSendAlert_returns alertData w :
  exists ok, fst (discordSendAlert env alertData w) = Ok ok.
Proof.
  unfold discordSendAlert. run_monad.
  destruct (webhook env (clock w)) as [[|]|e]; cbn; eauto.
Qed.

Lemma sendAlert_returns jobInfo b w : fst (sendAlert env config jobInfo b w) = Ok tt.
Proof.
  unfold sendAlert. rewrite try_catch_run, bind_run.
  destruct (discordSendAlert_returns (alertFor config jobInfo b) w) as [ok Hok].
  destruct (discordSendAlert env _ w) as [[a|e] w']; cbn in *; [done | discriminate].
Qed.

Lemma whenWorkable_result was jobInfo b w :
  fst (whenWorkable env config was jobInfo b w) =
  Ok (let j := counted was jobInfo in
      if alertDue config j b
      then set_lastAlertBlock b (set_alertsSent (alertsSent j + 1) j)
      else j).
Proof.
  unfold whenWorkable, alertDue. fold (counted was jobInfo). cbv zeta.
  destruct (alertThresholdBlocks config <=? _); cbn [andb]; [|done].
  destruct (sinceAtLeast _ _); [|done].
  rewrite bind_run.
  pose proof (sendAlert_returns (counted was jobInfo) b w) as H.
  destruct (sendAlert env config _ b w) as [[[]|e] w']; cbn in *; [done | discriminate].
Qed.

Lemma whenNotWorkable_result was jobInfo b w :
  fst (whenNotWorkable env was jobInfo b w) =
  Ok (set_consecutiveWorkableBlocks 0
        (if was && rpc_worked env (clock w) (address jobInfo) b
         then set_lastWorkedBlock b jobInfo else jobInfo)).
Proof.
  unfold whenNotWorkable, checkWorkTransactionInBlock. run_monad.
  destruct was; cbn; [|done].
  destruct (rpc_worked env (clock w) (address jobInfo) b); reflexivity.
Qed.

Lemma trackerBranch_result loaded isWorkable b w :
  fst (trackerBranch env config isWorkable (isCurrentlyWorkable loaded)
         (set_lastCheckedBlock b (set_isCurrentlyWorkable isWorkable loaded)) b w) =
  Ok (nextJobInfo config loaded isWorkable (rpc_worked env (clock w) (address loaded) b) b).
Proof.
  unfold trackerBranch, nextJobInfo. destruct isWorkable.
  - apply whenWorkable_result.
  - rewrite whenNotWorkable_result. reflexivity.
Qed.

Lemma trackerBranch_preserves R `{!Frame R} isWorkable was j b :
  (forall a, allows R (EvAlert a)) ->
  (forall a, allows R (EvWorkedQuery a b)) ->
  preserves R (trackerBranch env config isWorkable was j b).
Proof.
  intros Ha Hq. unfold trackerBranch. destruct isWorkable.
  - by apply preserves_whenWorkable.
  - by apply preserves_whenNotWorkable.
Qed.

Lemma address_nextJobInfo loaded isWorkable worked b :
  address (nextJobInfo config loaded isWorkable worked b) = address loaded.
Proof.
  unfold nextJobInfo, counted.
  destruct isWorkable, (isCurrentlyWorkable loaded), worked; cbn;
    try reflexivity; destruct (alertDue _ _ _); reflexivity.
Qed.

Lemma address_loadedOr w addr b : address (loadedOr w addr b) = addr.
Proof.
  unfold loadedOr. destruct (stored w addr) eqn:E; [|done]. by eapply stored_address.
Qed.

Lemma same_db_allows e : allows (same db) e.
Proof. intros w. reflexivity. Qed.

Lemma same_disk_allows e : allows (same disk) e.
Proof. intros w. reflexivity. Qed.

(** [processJobStatus] never throws. *)
Lemma processJobStatus_returns jobStatus b w :
  fst (processJobStatus env config jobStatus b w) = Ok tt.
Proof.
  unfold processJobStatus. rewrite try_catch_run.
  match goal with |- context [match ?m w with _ => _ end] => destruct (m w) as [[[]|e] w'] end;
    reflexivity.
Qed.

(** The table after [processJobStatus] when the store answers. *)
Lemma processJobStatus_db jobStatus b w t :
  store_ok env -> db w = Some t ->
  db (snd (processJobStatus env config jobStatus b w)) =
  Some (<[st_address jobStatus :=
            params (nextJobInfo config (loadedOr w (st_address jobStatus) b)
                      (isWorkableStatus jobStatus)
                      (rpc_worked env (S (clock w)) (st_address jobStatus) b) b)]> t).
Proof.
  intros Hok Hdb. unfold processJobStatus.
  rewrite try_catch_run, bind_run.
  rewrite (getJob_ok env _ w t Hdb (proj1 (Hok _))).
  fold (loadedOr w (st_address jobStatus) b).
  set (loaded := loadedOr w (st_address jobStatus) b).
  cbv zeta. rewrite bind_run.
  fold (trackerBranch env config (isWorkableStatus jobStatus) (isCurrentlyWorkable loaded)
          (set_lastCheckedBlock b (set_isCurrentlyWorkable (isWorkableStatus jobStatus) loaded)) b).
  pose proof (trackerBranch_result loaded (isWorkableStatus jobStatus) b (tick w)) as Hres.
  pose proof (trackerBranch_preserves (same db) (isWorkableStatus jobStatus)
                (isCurrentlyWorkable loaded)
                (set_lastCheckedBlock b (set_isCurrentlyWorkable (isWorkableStatus jobStatus) loaded))
                b (fun a => same_db_allows _) (fun a => same_db_allows _) (tick w)) as Hdb1.
  destruct (trackerBranch _ _ _ _ _ b (tick w)) as [[j1|e] w1]; cbn in Hres, Hdb1; [|discriminate].
  injection Hres as ->. unfold same in Hdb1. cbn in Hdb1. rewrite Hdb in Hdb1.
  rewrite bind_run.
  pose proof (upsertJob_db env
    (nextJobInfo config loaded (isWorkableStatus jobStatus)
       (rpc_worked env (clock (tick w)) (address loaded) b) b) w1 t Hdb1 (proj2 (Hok _))) as Hup.
  rewrite address_nextJobInfo in Hup. subst loaded.
  rewrite !address_loadedOr in *. cbn [clock tick] in *.
  destruct (upsertJob env _ w1) as [[[]|e] w2]; cbn in *; exact Hup.
Qed.

End TrackerFacts.

Lemma forEach_app {A} (f : A -> M unit) l1 l2 w :
  (forall x w, fst (f x w) = Ok tt) ->
  snd (forEach f (l1 ++ l2) w) = snd (forEach f l2 (snd (forEach f l1 w))).
Proof.
  intros Hf. revert w. induction l1 as [|x l1 IH]; intros w; cbn.
  - reflexivity.
  - rewrite !bind_run. specialize (Hf x w).
    destruct (f x w) as [[[]|e] w']; cbn in *; [apply IH | discriminate].
Qed.

Lemma forEach_returns {A} (f : A -> M unit) l w :
  (forall x w, fst (f x w) = Ok tt) -> fst (forEach f l w) = Ok tt.
Proof.
  intros Hf. revert w. induction l as [|x l IH]; intros w; cbn.
  - reflexivity.
  - rewrite bind_run. specialize (Hf x w).
    destruct (f x w) as [[[]|e] w']; cbn in *; [apply IH | discriminate].
Qed.

Lemma forEach_cons {A} (f : A -> M unit) x l w :
  fst (f x w) = Ok tt ->
  forEach f (x :: l) w = forEach f l (snd (f x w)).
Proof.
  intros Hf. cbn. rewrite bind_run.
  destruct (f x w) as [[[]|e] w']; cbn in *; [done | discriminate].
Qed.

Section CounterFacts.
Context (env : Env) (config : MonitoringConfig) (addr : string).
Hypothesis store_answers : store_ok env.
Hypothesis addr_nonempty : addr <> "".

Lemma observe_returns o w : fst (observe env config addr o w) = Ok tt.
Proof. apply processJobStatus_returns. Qed.

Lemma isWorkableStatus_statusOf o : isWorkableStatus (statusOf addr o) = eligible o.
Proof. reflexivity. Qed.

Lemma counter_nextJobInfo loaded isWorkable worked b :
  consecutiveWorkableBlocks (nextJobInfo config loaded isWorkable worked b) =
  if isWorkable
  then (if isCurrentlyWorkable loaded then consecutiveWorkableBlocks loaded + 1 else 1)
  else 0.
Proof.
  unfold nextJobInfo, counted.
  destruct isWorkable, (isCurrentlyWorkable loaded); cbn;
    try reflexivity; destruct (alertDue _ _ _); reflexivity.
Qed.

Lemma workable_nextJobInfo loaded isWorkable worked b :
  isCurrentlyWorkable (nextJobInfo config loaded isWorkable worked b) = isWorkable.
Proof.
  unfold nextJobInfo, counted.
  destruct isWorkable, (isCurrentlyWorkable loaded), worked; cbn;
    try reflexivity; destruct (alertDue _ _ _); reflexivity.
Qed.

(** The record in the store after one observation. *)
Lemma observe_stored o w t :
  db w = Some t ->
  stored (snd (observe env config addr o w)) addr =
  Some (reread (nextJobInfo config (loadedOr w addr (obs_unit o)) (eligible o)
                  (rpc_worked env (S (clock w)) addr (obs_unit o)) (obs_unit o))).
Proof.
  intros Hdb. unfold observe.
  pose proof (processJobStatus_db env config (statusOf addr o) (obs_unit o) w t
                store_answers Hdb) as H.
  cbn [st_address statusOf] in H. rewrite isWorkableStatus_statusOf in H.
  set (j := nextJobInfo _ _ _ _ _) in *.
  assert (address j = addr) as Ha.
  { unfold j. by rewrite address_nextJobInfo, address_loadedOr. }
  exact (stored_after_insert_at _ t j addr H Ha addr_nonempty).
Qed.

Lemma observe_db o w t :
  db w = Some t -> exists t', db (snd (observe env config addr o w)) = Some t'.
Proof.
  intros Hdb. unfold observe.
  rewrite (processJobStatus_db env config _ _ w t store_answers Hdb). eauto.
Qed.

Lemma loadedOr_run w b :
  (if isCurrentlyWorkable (loadedOr w addr b)
   then consecutiveWorkableBlocks (loadedOr w addr b) + 1 else 1) =
  effectiveRun w addr + 1.
Proof.
  unfold loadedOr, effectiveRun. destruct (stored w addr) as [j|]; cbn; [|done].
  by destruct (isCurrentlyWorkable j).
Qed.

Lemma observe_counter o w t :
  db w = Some t ->
  exists j, stored (snd (observe env config addr o w)) addr = Some j /\
    isCurrentlyWorkable j = eligible o /\
    consecutiveWorkableBlocks j = (if eligible o then effectiveRun w addr + 1 else 0).
Proof.
  intros Hdb. eexists. split; [by apply (observe_stored o w t)|].
  rewrite reread_isCurrentlyWorkable, workable_nextJobInfo. split; [done|].
  change (consecutiveWorkableBlocks (reread ?j)) with (consecutiveWorkableBlocks j).
  rewrite counter_nextJobInfo. destruct (eligible o); [apply loadedOr_run | done].
Qed.

Lemma observe_effectiveRun o w t :
  db w = Some t ->
  effectiveRun (snd (observe env config addr o w)) addr =
  if eligible o then effectiveRun w addr + 1 else 0.
Proof.
  intros Hdb. destruct (observe_counter o w t Hdb) as (j & Hj & Hw & Hc).
  unfold effectiveRun at 1. rewrite Hj, Hw, Hc. by destruct (eligible o).
Qed.

Lemma observeAll_effectiveRun l w t :
  db w = Some t ->
  (exists t', db (snd (observeAll env config addr l w)) = Some t') /\
  effectiveRun (snd (observeAll env config addr l w)) addr =
  runFrom (effectiveRun w addr) l.
Proof.
  revert w t. induction l as [|o l IH]; intros w t Hdb.
  - cbn. eauto.
  - unfold observeAll. rewrite forEach_cons by apply observe_returns.
    destruct (observe_db o w t Hdb) as [t1 Ht1].
    destruct (IH _ t1 Ht1) as [Hdb' Hrun]. split; [exact Hdb'|].
    unfold observeAll in Hrun. rewrite Hrun.
    by rewrite (observe_effectiveRun o w t Hdb).
Qed.

Lemma trailingRun_snoc l b :
  trailingRun (l ++ [b]) = if b then S (trailingRun l) else O.
Proof. unfold trailingRun. rewrite reverse_snoc. by destruct b. Qed.

Lemma runFrom_trailingRun l :
  runFrom 0 l = Z.of_nat (trailingRun (map eligible l)).
Proof.
  induction l as [|o l IH] using rev_ind; [done|].
  unfold runFrom in *. rewrite fold_left_app, map_app. cbn.
  rewrite trailingRun_snoc, IH. destruct (eligible o); lia.
Qed.

End CounterFacts.

Lemma store_ok_calmEnv head b : store_ok (calmEnv head b).
Proof. intros t. split; reflexivity. Qed.

(** C1.  For one job with a non-empty address and a store that answers:
    from a world where the job has no record yet, or a record that is not
    workable, after every non-empty sequence of observations the stored
    [consecutiveWorkableBlocks] is the length of the trailing run of
    [eligible && !errored] observations; and from any world one observation
    sets the counter to 1 when the job was not workable and is now, adds 1
    when it was workable and still is, and sets it to 0 when the job is not
    workable or the check errored. *)
Theorem counter_is_trailing_run env config addr w t :
  store_ok env -> addr <> "" -> db w = Some t ->
  ((stored w addr = None \/
    exists j0, stored w addr = Some j0 /\ isCurrentlyWorkable j0 = false) ->
   forall l o, exists j,
     stored (snd (observeAll env config addr (l ++ [o]) w)) addr = Some j /\
     consecutiveWorkableBlocks j = Z.of_nat (trailingRun (map eligible (l ++ [o])))) /\
  (forall o, exists j,
     stored (snd (observe env config addr o w)) addr = Some j /\
     let before := loadedOr w addr (obs_unit o) in
     (eligible o = true -> isCurrentlyWorkable before = false ->
      consecutiveWorkableBlocks j = 1) /\
     (eligible o = true -> isCurrentlyWorkable before = true ->
      consecutiveWorkableBlocks j = consecutiveWorkableBlocks before + 1) /\
     (eligible o = false -> consecutiveWorkableBlocks j = 0) /\
     (Js.truthyStr (obs_error o) = true -> consecutiveWorkableBlocks j = 0)).
Proof.
  intros Hok Haddr Hdb. split.
  - intros Hfresh l o.
    assert (effectiveRun w addr = 0) as Hrun0.
    { unfold effectiveRun. destruct Hfresh as [-> | (j0 & -> & ->)]; reflexivity. }
    unfold observeAll. rewrite forEach_app by (intros; apply observe_returns).
    destruct (observeAll_effectiveRun env config addr Hok Haddr l w t Hdb) as [[t1 Ht1] Hrun].
    unfold observeAll in Ht1, Hrun.
    cbn [forEach]. rewrite bind_run.
    pose proof (observe_returns env config addr o (snd (forEach (observe env config addr) l w))) as Hret.
    destruct (observe_counter env config addr Hok Haddr o _ t1 Ht1) as (j & Hj & _ & Hc).
    destruct (observe env config addr o _) as [[[]|e] w2]; cbn in *; [|discriminate].
    exists j. split; [exact Hj|].
    rewrite Hc, Hrun, Hrun0, runFrom_trailingRun, map_app. cbn [map].
    rewrite trailingRun_snoc. destruct (eligible o); lia.
  - intros o. eexists. split; [by apply (observe_stored env config addr Hok Haddr o w t)|].
    change (consecutiveWorkableBlocks (reread ?j)) with (consecutiveWorkableBlocks j).
    rewrite counter_nextJobInfo. cbv zeta.
    repeat split.
    + by intros -> ->.
    + by intros -> ->.
    + by intros ->.
    + intros He. unfold eligible. rewrite He. by rewrite andb_false_r.
Qed.

Lemma counter_is_trailing_run_witness :
  exists j,
    stored (snd (observeAll (calmEnv 200 true) defaultConfig autoLine
                   (twiceWorkable ++ [thenReverted])
                   (emptyWorld 100 [autoLine]))) autoLine = Some j /\
    consecutiveWorkableBlocks j =
    Z.of_nat (trailingRun (map eligible (twiceWorkable ++ [thenReverted]))).
Proof.
  apply (proj1 (counter_is_trailing_run (calmEnv 200 true) defaultConfig autoLine
                  (emptyWorld 100 [autoLine]) ∅
                  (store_ok_calmEnv 200 true) ltac:(discriminate) eq_refl)).
  left. vm_compute. reflexivity.
Defined.

(** ** The alert rule *)

Lemma history_tick {X} (f : Event -> option X) w : history f (tick w) = history f w.
Proof. reflexivity. Qed.

Lemma adds_writes_db {X} (f : Event -> option X) Q : writes_db (adds f Q).
Proof. intros t w. by apply adds_same_trace. Qed.

Lemma adds_writes_disk {X} (f : Event -> option X) Q : writes_disk (adds f Q).
Proof. intros t w. by apply adds_same_trace. Qed.

Section AlertFacts.
Context (env : Env) (config : MonitoringConfig).

Let silent := adds alertOf (fun _ => False).

Lemma sendAlert_alerts jobInfo b w :
  history alertOf (snd (sendAlert env config jobInfo b w)) =
  history alertOf w ++ [alertFor config jobInfo b].
Proof.
  unfold sendAlert, discordSendAlert. run_monad.
  destruct (webhook env (clock w)) as [[|]|e]; cbn;
    rewrite !history_emit, history_tick, history_emit; cbn;
    by rewrite ?app_nil_r.
Qed.

Lemma whenWorkable_alerts was jobInfo b w :
  history alertOf (snd (whenWorkable env config was jobInfo b w)) =
  history alertOf w ++
  (if alertDue config (counted was jobInfo) b
   then [alertFor config (counted was jobInfo) b] else []).
Proof.
  unfold whenWorkable, alertDue. fold (counted was jobInfo). cbv zeta.
  destruct (alertThresholdBlocks config <=? _); cbn [andb]; [|by rewrite app_nil_r].
  destruct (sinceAtLeast _ _); [|by rewrite app_nil_r].
  rewrite bind_run.
  pose proof (sendAlert_returns env config (counted was jobInfo) b w) as H.
  pose proof (sendAlert_alerts (counted was jobInfo) b w) as Ha.
  destruct (sendAlert env config _ b w) as [[[]|e] w']; cbn in *; [done | discriminate].
Qed.

Lemma whenNotWorkable_alerts was jobInfo b w :
  history alertOf (snd (whenNotWorkable env was jobInfo b w)) = history alertOf w.
Proof.
  apply adds_nothing.
  apply (preserves_whenNotWorkable env silent). by apply adds_allows.
Qed.

Lemma trackerBranch_alerts loaded isWorkable b w :
  history alertOf
    (snd (trackerBranch env config isWorkable (isCurrentlyWorkable loaded)
            (set_lastCheckedBlock b (set_isCurrentlyWorkable isWorkable loaded)) b w)) =
  history alertOf w ++ alertSent config loaded isWorkable b.
Proof.
  unfold trackerBranch, alertSent. destruct isWorkable; cbn [andb].
  - apply whenWorkable_alerts.
  - rewrite whenNotWorkable_alerts. by rewrite app_nil_r.
Qed.

Lemma processJobStatus_alerts jobStatus b w t :
  store_ok env -> db w = Some t ->
  history alertOf (snd (processJobStatus env config jobStatus b w)) =
  history alertOf w ++
  alertSent config (loadedOr w (st_address jobStatus) b) (isWorkableStatus jobStatus) b.
Proof.
  intros Hok Hdb. unfold processJobStatus.
  rewrite try_catch_run, bind_run.
  rewrite (getJob_ok env _ w t Hdb (proj1 (Hok _))).
  fold (loadedOr w (st_address jobStatus) b).
  set (loaded := loadedOr w (st_address jobStatus) b).
  cbv zeta. rewrite bind_run.
  fold (trackerBranch env config (isWorkableStatus jobStatus) (isCurrentlyWorkable loaded)
          (set_lastCheckedBlock b (set_isCurrentlyWorkable (isWorkableStatus jobStatus) loaded)) b).
  pose proof (trackerBranch_alerts loaded (isWorkableStatus jobStatus) b (tick w)) as Ha.
  pose proof (trackerBranch_result env config loaded (isWorkableStatus jobStatus) b (tick w)) as Hres.
  destruct (trackerBranch _ _ _ _ _ b (tick w)) as [[j1|e] w1]; cbn in Hres, Ha; [|discriminate].
  rewrite history_tick in Ha. rewrite <- Ha. rewrite bind_run.
  assert (history alertOf (snd (upsertJob env j1 w1)) = history alertOf w1) as Hup.
  { apply adds_nothing. apply (preserves_upsertJob env silent).
    - apply adds_writes_db.
    - apply adds_writes_disk. }
  destruct (upsertJob env j1 w1) as [[[]|e] w2]; cbn in *;
    rewrite history_emit; cbn; by rewrite app_nil_r.
Qed.

End AlertFacts.

Lemma stored_lastAlertBlock_nonzero w addr j :
  stored w addr = Some j -> lastAlertBlock j <> Some 0.
Proof.
  unfold stored, jobOfResult. destruct (db w) as [t|]; [|discriminate].
  destruct (selectRow t addr) as [row|]; [|discriminate].
  destruct (Js.truthyString (db_address row)); [|discriminate].
  intros [= <-]. cbn. unfold Js.orAbsentNum.
  destruct (last_alert_block row) as [z|]; cbn; [|discriminate].
  destruct (z =? 0) eqn:E; cbn; [discriminate|].
  apply Z.eqb_neq in E. congruence.
Qed.

Lemma loadedOr_lastAlertBlock_nonzero w addr b :
  lastAlertBlock (loadedOr w addr b) <> Some 0.
Proof.
  unfold loadedOr. destruct (stored w addr) eqn:E; [|discriminate].
  by eapply stored_lastAlertBlock_nonzero.
Qed.

Section AlertRule.
Context (config : MonitoringConfig).
Let T := alertThresholdBlocks config.

Lemma counting_lastAlertBlock loaded isWorkable b :
  lastAlertBlock (counting loaded isWorkable b) = lastAlertBlock loaded.
Proof. unfold counting, counted. by destruct (isCurrentlyWorkable loaded). Qed.

Lemma counting_alertsSent loaded isWorkable b :
  alertsSent (counting loaded isWorkable b) = alertsSent loaded.
Proof. unfold counting, counted. by destruct (isCurrentlyWorkable loaded). Qed.

Lemma counting_counter loaded isWorkable b :
  consecutiveWorkableBlocks (counting loaded isWorkable b) =
  if isCurrentlyWorkable loaded then consecutiveWorkableBlocks loaded + 1 else 1.
Proof. unfold counting, counted. by destruct (isCurrentlyWorkable loaded). Qed.

Lemma counting_address loaded isWorkable b :
  address (counting loaded isWorkable b) = address loaded.
Proof. unfold counting, counted. by destruct (isCurrentlyWorkable loaded). Qed.

Lemma alertSent_fires loaded isWorkable b :
  alertSent config loaded isWorkable b =
  if fires config loaded isWorkable b
  then [alertFor config (counting loaded isWorkable b) b] else [].
Proof. reflexivity. Qed.

Lemma lastAlertBlock_nextJobInfo loaded isWorkable worked b :
  lastAlertBlock (nextJobInfo config loaded isWorkable worked b) =
  if fires config loaded isWorkable b then Some b else lastAlertBlock loaded.
Proof.
  unfold fires, nextJobInfo. fold (counting loaded isWorkable b).
  destruct isWorkable; cbn [andb].
  - destruct (alertDue _ _ _); [done | apply counting_lastAlertBlock].
  - by destruct (isCurrentlyWorkable loaded && worked).
Qed.

Lemma alertsSent_nextJobInfo loaded isWorkable worked b :
  alertsSent (nextJobInfo config loaded isWorkable worked b) =
  if fires config loaded isWorkable b then alertsSent loaded + 1 else alertsSent loaded.
Proof.
  unfold fires, nextJobInfo. fold (counting loaded isWorkable b).
  destruct isWorkable; cbn [andb].
  - destruct (alertDue _ _ _); cbn; by rewrite counting_alertsSent.
  - by destruct (isCurrentlyWorkable loaded && worked).
Qed.

Lemma fires_iff_dueBy loaded isWorkable worked b :
  0 < T -> lastAlertBlock loaded <> Some 0 ->
  fires config loaded isWorkable b = true <->
  dueBy config (consecutiveWorkableBlocks (nextJobInfo config loaded isWorkable worked b))
        (lastAlertBlock loaded) b.
Proof.
  intros HT Hnz. rewrite counter_nextJobInfo. unfold fires, dueBy, alertDue.
  rewrite counting_counter. unfold blocksSinceLastAlert.
  rewrite counting_lastAlertBlock. fold T.
  destruct isWorkable; cbn [andb].
  - rewrite andb_true_iff, Z.leb_le.
    destruct (lastAlertBlock loaded) as [A|] eqn:EA.
    + assert (A <> 0) as HA by congruence.
      apply Z.eqb_neq in HA as ->. cbn. rewrite Z.leb_le.
      split.
      * intros [H1 H2]. split; [done|]. right. eauto.
      * intros [H1 [H2|(A' & [= <-] & H2)]]; [discriminate | done].
    + cbn. split; [intros [H _]; split; auto | intros [H _]; done].
  - split; [discriminate | intros [H _]; lia].
Qed.

End AlertRule.

Lemma risingFrom_snoc u l o :
  risingFrom u (l ++ [o]) <-> risingFrom u l /\ lastUnit u l < obs_unit o.
Proof.
  revert u. induction l as [|x l IH]; intros u; cbn.
  - tauto.
  - rewrite IH. unfold lastUnit. tauto.
Qed.

Lemma Sorted_risingFrom u l :
  Sorted Z.lt (u :: map obs_unit l) -> risingFrom u l.
Proof.
  revert u. induction l as [|x l IH]; intros u H; cbn; [done|].
  apply Sorted_inv in H as [Hs Hhd]. apply HdRel_inv in Hhd.
  split; [done | by apply IH].
Qed.

Lemma reread_lastAlertBlock j :
  lastAlertBlock (reread j) = Js.orAbsentNum (lastAlertBlock j).
Proof. cbn. apply orAbsentNum_idem. Qed.

Section AlertSequences.
Context (env : Env) (config : MonitoringConfig) (addr : string).
Hypothesis store_answers : store_ok env.
Hypothesis addr_nonempty : addr <> "".
Let T := alertThresholdBlocks config.
Hypothesis threshold_positive : 0 < T.

Lemma observe_alerts o w t :
  db w = Some t ->
  history alertOf (snd (observe env config addr o w)) =
  history alertOf w ++
  (if fires config (loadedOr w addr (obs_unit o)) (eligible o) (obs_unit o)
   then [alertFor config (counting (loadedOr w addr (obs_unit o)) (eligible o) (obs_unit o))
           (obs_unit o)]
   else []).
Proof.
  intros Hdb. unfold observe.
  by rewrite (processJobStatus_alerts env config _ _ w t store_answers Hdb).
Qed.

Lemma observe_alert_fields o w t :
  db w = Some t ->
  exists j, stored (snd (observe env config addr o w)) addr = Some j /\
    lastAlertBlock j =
      (if fires config (loadedOr w addr (obs_unit o)) (eligible o) (obs_unit o)
       then Js.orAbsentNum (Some (obs_unit o))
       else lastAlertBlock (loadedOr w addr (obs_unit o))) /\
    alertsSent j =
      (if fires config (loadedOr w addr (obs_unit o)) (eligible o) (obs_unit o)
       then alertsSent (loadedOr w addr (obs_unit o)) + 1
       else alertsSent (loadedOr w addr (obs_unit o))) /\
    consecutiveWorkableBlocks j =
      consecutiveWorkableBlocks
        (nextJobInfo config (loadedOr w addr (obs_unit o)) (eligible o)
           (rpc_worked env (S (clock w)) addr (obs_unit o)) (obs_unit o)).
Proof.
  intros Hdb. eexists. split; [by apply (observe_stored env config addr store_answers addr_nonempty o w t)|].
  rewrite reread_lastAlertBlock, lastAlertBlock_nextJobInfo.
  change (alertsSent (reread ?j)) with (alertsSent j).
  rewrite alertsSent_nextJobInfo.
  destruct (fires _ _ _ _); (split; [|split]); try reflexivity.
  apply orAbsentNum_keeps, loadedOr_lastAlertBlock_nonzero.
Qed.

Lemma fires_counter loaded isWorkable b :
  fires config loaded isWorkable b = true ->
  isWorkable = true /\
  T <= (if isCurrentlyWorkable loaded then consecutiveWorkableBlocks loaded + 1 else 1).
Proof.
  unfold fires, alertDue. rewrite counting_counter.
  rewrite !andb_true_iff, Z.leb_le. tauto.
Qed.

Lemma loadedOr_lastAlertBlock w b A :
  lastAlertBlock (loadedOr w addr b) = Some A ->
  exists j, stored w addr = Some j /\ lastAlertBlock j = Some A.
Proof.
  unfold loadedOr. destruct (stored w addr) as [j|]; [eauto | discriminate].
Qed.

Lemma alertInv_observe u o w t :
  db w = Some t -> alertInv config addr u w -> u < obs_unit o ->
  alertInv config addr (obs_unit o) (snd (observe env config addr o w)).
Proof.
  intros Hdb Hinv Hu j A Hj HA.
  destruct (observe_alert_fields o w t Hdb) as (j' & Hj' & Hlast & _ & _).
  rewrite Hj in Hj'. injection Hj' as <-.
  rewrite (observe_effectiveRun env config addr store_answers addr_nonempty o w t Hdb).
  rewrite Hlast in HA.
  destruct (fires config _ _ _) eqn:Hf.
  - apply fires_counter in Hf as [-> Hc]. rewrite loadedOr_run in Hc.
    assert (A = obs_unit o) as ->.
    { unfold Js.orAbsentNum in HA. destruct (Js.truthyNum _); congruence. }
    split; [lia|]. fold T. lia.
  - apply loadedOr_lastAlertBlock in HA as (j0 & Hj0 & HA0).
    destruct (Hinv j0 A Hj0 HA0) as [H1 H2].
    split; [lia|]. destruct (eligible o); lia.
Qed.

Lemma alertInv_observeAll l u w t :
  db w = Some t -> alertInv config addr u w -> risingFrom u l ->
  alertInv config addr (lastUnit u l) (snd (observeAll env config addr l w)).
Proof.
  revert u w t. induction l as [|o l IH]; intros u w t Hdb Hinv Hrise.
  - exact Hinv.
  - destruct Hrise as [Hu Hrise].
    unfold observeAll. rewrite forEach_cons by apply observe_returns.
    destruct (observe_db env config addr store_answers o w t Hdb) as [t1 Ht1].
    apply (IH (obs_unit o) _ t1 Ht1); [|done].
    by apply (alertInv_observe u o w t).
Qed.

(** While the last alert is [U] and units stay below [U + T], nothing fires. *)
Lemma quiet_window U l w t :
  db w = Some t ->
  (exists j, stored w addr = Some j /\ lastAlertBlock j = Some U) ->
  Forall (fun o => obs_unit o < U + T) l ->
  history alertOf (snd (observeAll env config addr l w)) = history alertOf w.
Proof.
  revert w t. induction l as [|o l IH]; intros w t Hdb (j & Hj & HU) Hl; [done|].
  apply Forall_cons in Hl as [Ho Hl].
  unfold observeAll. rewrite forEach_cons by apply observe_returns.
  assert (fires config (loadedOr w addr (obs_unit o)) (eligible o) (obs_unit o) = false) as Hf.
  { unfold fires, alertDue, blocksSinceLastAlert.
    rewrite counting_lastAlertBlock. unfold loadedOr. rewrite Hj, HU.
    pose proof (stored_lastAlertBlock_nonzero w addr j Hj) as Hnz.
    assert (U <> 0) as HU0 by congruence.
    apply Z.eqb_neq in HU0 as ->. cbn. fold T.
    assert ((T <=? obs_unit o - U) = false) as -> by (apply Z.leb_gt; lia).
    by rewrite !andb_false_r. }
  destruct (observe_db env config addr store_answers o w t Hdb) as [t1 Ht1].
  destruct (observe_alert_fields o w t Hdb) as (j1 & Hj1 & Hlast & _ & _).
  rewrite Hf in Hlast.
  fold (observeAll env config addr l (snd (observe env config addr o w))).
  rewrite (IH _ t1 Ht1); [| |done].
  - rewrite (observe_alerts o w t Hdb), Hf. by rewrite app_nil_r.
  - exists j1. split; [done|]. rewrite Hlast. unfold loadedOr. by rewrite Hj.
Qed.

End AlertSequences.

Lemma Sorted_rising l :
  Sorted Z.lt (map obs_unit l) -> exists u, risingFrom u l.
Proof.
  destruct l as [|x l]; [by exists 0|].
  intros H. exists (obs_unit x - 1). apply Sorted_risingFrom.
  constructor; [exact H | constructor; cbn; lia].
Qed.

(** C2.  With a positive threshold [T], a store that answers and a job with
    a non-empty address: one observation at unit [U] sends an alert exactly
    when the counter after the update is at least [T] and either the loaded
    record has no last alert block or [U] minus it is at least [T]; the
    alert is then sent once, [alertsSent] grows by exactly 1 and the last
    alert block becomes [U] (a block number 0 is stored as absent).  And for
    observations at strictly rising units, from a world where no alert was
    sent for the job: the observation at which the counter reaches [T] sends
    exactly one alert, and no later observation at a unit below [U + T]
    sends one, whatever it reports. *)
Theorem alert_fires_when_due env config addr w t :
  store_ok env -> addr <> "" -> db w = Some t -> 0 < alertThresholdBlocks config ->
  (forall o,
     let U := obs_unit o in
     let before := loadedOr w addr U in
     let w' := snd (observe env config addr o w) in
     exists j, stored w' addr = Some j /\
       (dueBy config (consecutiveWorkableBlocks j) (lastAlertBlock before) U ->
        (exists a, history alertOf w' = history alertOf w ++ [a] /\
           jobAddress a = addr /\ currentBlock a = U /\
           alert_consecutiveWorkableBlocks a = consecutiveWorkableBlocks j /\
           threshold a = alertThresholdBlocks config) /\
        alertsSent j = alertsSent before + 1 /\
        (U <> 0 -> lastAlertBlock j = Some U)) /\
       (~ dueBy config (consecutiveWorkableBlocks j) (lastAlertBlock before) U ->
        history alertOf w' = history alertOf w /\
        alertsSent j = alertsSent before /\
        lastAlertBlock j = lastAlertBlock before)) /\
  (forall l o,
     (forall j0, stored w addr = Some j0 -> lastAlertBlock j0 = None) ->
     Sorted Z.lt (map obs_unit (l ++ [o])) ->
     let w1 := snd (observeAll env config addr l w) in
     let w2 := snd (observe env config addr o w1) in
     (exists j, stored w2 addr = Some j /\
        consecutiveWorkableBlocks j = alertThresholdBlocks config) ->
     (exists a, history alertOf w2 = history alertOf w1 ++ [a] /\
        currentBlock a = obs_unit o) /\
     (obs_unit o <> 0 ->
      forall l2,
        Forall (fun o2 => obs_unit o2 < obs_unit o + alertThresholdBlocks config) l2 ->
        history alertOf (snd (observeAll env config addr l2 w2)) = history alertOf w2)).
Proof.
  intros Hok Haddr Hdb HT. split.
  - intros o U before w'.
    destruct (observe_alert_fields env config addr Hok Haddr o w t Hdb)
      as (j & Hj & Hlast & Hsent & Hc).
    exists j. split; [exact Hj|]. rewrite Hc.
    pose proof (fires_iff_dueBy config before (eligible o)
                  (rpc_worked env (S (clock w)) addr U) U HT
                  (loadedOr_lastAlertBlock_nonzero w addr U)) as Hiff.
    pose proof (observe_alerts env config addr Hok o w t Hdb) as Hal.
    fold U before in Hlast, Hsent, Hal.
    destruct (fires config before (eligible o) U) eqn:Hf.
    + split; [|intros Hn; exfalso; apply Hn, Hiff; reflexivity].
      intros _. split; [|split].
      * eexists. split; [exact Hal|].
        apply fires_counter in Hf as [He _].
        cbn. rewrite counting_address, counter_nextJobInfo, counting_counter, He.
        unfold before. by rewrite address_loadedOr.
      * exact Hsent.
      * intros HU. rewrite Hlast. by apply orAbsentNum_keeps; congruence.
    + split; [intros Hd; apply Hiff in Hd; discriminate|].
      intros _. rewrite app_nil_r in Hal. done.
  - intros l o Hnone Hsorted w1 w2 (j & Hj & HcT).
    destruct (Sorted_rising _ Hsorted) as [u0 Hrise].
    apply risingFrom_snoc in Hrise as [Hrise Hlt].
    assert (alertInv config addr u0 w) as Hinv0.
    { intros j0 A Hj0 HA. rewrite (Hnone j0 Hj0) in HA. discriminate. }
    destruct (observeAll_effectiveRun env config addr Hok Haddr l w t Hdb) as [[t1 Ht1] _].
    pose proof (alertInv_observeAll env config addr Hok Haddr l u0 w t Hdb Hinv0 Hrise) as Hinv1.
    fold w1 in Ht1, Hinv1.
    destruct (observe_counter env config addr Hok Haddr o w1 t1 Ht1) as (j' & Hj' & _ & Hc).
    fold w2 in Hj'. rewrite Hj in Hj'. injection Hj' as <-. rewrite HcT in Hc.
    assert (eligible o = true /\ effectiveRun w1 addr = alertThresholdBlocks config - 1)
      as [He Hrun] by (destruct (eligible o); split; try done; lia).
    assert (fires config (loadedOr w1 addr (obs_unit o)) (eligible o) (obs_unit o) = true) as Hf.
    { unfold fires, alertDue, blocksSinceLastAlert.
      rewrite counting_counter, counting_lastAlertBlock, loadedOr_run, He, Hrun. cbn [andb].
      apply andb_true_iff. split; [apply Z.leb_le; lia|].
      destruct (lastAlertBlock (loadedOr w1 addr (obs_unit o))) as [A|] eqn:EA; [|done].
      destruct (A =? 0); [done|]. cbn. apply Z.leb_le.
      apply loadedOr_lastAlertBlock in EA as (j0 & Hj0 & HA0).
      destruct (Hinv1 j0 A Hj0 HA0) as [_ H2]. lia. }
    split.
    + eexists. split.
      * unfold w2. rewrite (observe_alerts env config addr Hok o w1 t1 Ht1), Hf. reflexivity.
      * reflexivity.
    + intros HU l2 Hl2.
      destruct (observe_db env config addr Hok o w1 t1 Ht1) as [t2 Ht2].
      destruct (observe_alert_fields env config addr Hok Haddr o w1 t1 Ht1)
        as (j2 & Hj2 & Hlast & _ & _).
      rewrite Hf in Hlast.
      apply (quiet_window env config addr Hok Haddr (obs_unit o) l2 w2 t2 Ht2); [|done].
      exists j2. split; [exact Hj2|]. rewrite Hlast. apply orAbsentNum_keeps. congruence.
Qed.

Lemma alert_fires_when_due_witness :
  let w := worldWith nineInARow 109 in
  let w' := snd (observe (calmEnv 200 true) testConfig autoLine (workableAt 110) w) in
  exists j, stored w' autoLine = Some j /\
    (dueBy testConfig (consecutiveWorkableBlocks j)
       (lastAlertBlock (loadedOr w autoLine 110)) 110 ->
     (exists a, history alertOf w' = history alertOf w ++ [a] /\
        jobAddress a = autoLine /\ currentBlock a = 110 /\
        alert_consecutiveWorkableBlocks a = consecutiveWorkableBlocks j /\
        threshold a = 10) /\
     alertsSent j = alertsSent (loadedOr w autoLine 110) + 1 /\
     (110 <> 0 -> lastAlertBlock j = Some 110)) /\
    (~ dueBy testConfig (consecutiveWorkableBlocks j)
         (lastAlertBlock (loadedOr w autoLine 110)) 110 ->
     history alertOf w' = history alertOf w /\
     alertsSent j = alertsSent (loadedOr w autoLine 110) /\
     lastAlertBlock j = lastAlertBlock (loadedOr w autoLine 110)).
Proof.
  apply (proj1 (alert_fires_when_due (calmEnv 200 true) testConfig autoLine
                  (worldWith nineInARow 109) _
                  (store_ok_calmEnv 200 true) ltac:(discriminate) eq_refl eq_refl)
               (workableAt 110)).
Defined.

(** The job of [nineInARow], workable at every block from 110 to 120 with a
    threshold of 10: alerts at 110 and at 120, none in between. *)
Example alerts_ten_blocks_apart :
  map currentBlock
    (history alertOf
       (snd (observeAll (calmEnv 200 true) testConfig autoLine
               (map workableAt (seqZ 110 11)) (worldWith nineInARow 109)))) =
  [110; 120].
Proof. vm_compute. reflexivity. Qed.

(** ** A failing alert sink *)

#[global] Instance adds_any_frame {X} (f : Event -> option X) : Frame (adds f (fun _ => True)).
Proof.
  split.
  - apply _.
  - intros w. by apply adds_same_trace.
  - intros l m w. apply adds_allows. by destruct (f _).
Qed.

Lemma adds_any_allows {X} (f : Event -> option X) e : allows (adds f (fun _ => True)) e.
Proof. apply adds_allows. by destruct (f e). Qed.

Lemma adds_elem_of {X} (f : Event -> option X) Q w w' x :
  adds f Q w w' -> x ∈ history f w -> x ∈ history f w'.
Proof. intros (xs & -> & _) H. apply elem_of_app. by left. Qed.

Section SinkFacts.
Context (env : Env) (config : MonitoringConfig).
Hypothesis sink_fails : forall t, webhook env t <> Ok true.

Lemma discordSendAlert_fails alertData w :
  fst (discordSendAlert env alertData w) = Ok false.
Proof.
  unfold discordSendAlert. run_monad.
  pose proof (sink_fails (clock w)) as H.
  destruct (webhook env (clock w)) as [[|]|e]; cbn; done.
Qed.

Lemma sendAlert_logs_failure jobInfo b w :
  "Failed to send Discord alert" ∈ history errorLogOf (snd (sendAlert env config jobInfo b w)).
Proof.
  unfold sendAlert, discordSendAlert. run_monad.
  pose proof (sink_fails (clock w)) as H.
  destruct (webhook env (clock w)) as [[|]|e]; cbn; [done| |];
    rewrite !history_emit; cbn; set_solver.
Qed.

Lemma processJobStatus_logs_failure jobStatus b w t :
  store_ok env -> db w = Some t ->
  fires config (loadedOr w (st_address jobStatus) b) (isWorkableStatus jobStatus) b = true ->
  "Failed to send Discord alert"
    ∈ history errorLogOf (snd (processJobStatus env config jobStatus b w)).
Proof.
  intros Hok Hdb Hf. unfold processJobStatus.
  rewrite try_catch_run, bind_run.
  rewrite (getJob_ok env _ w t Hdb (proj1 (Hok _))).
  fold (loadedOr w (st_address jobStatus) b).
  set (loaded := loadedOr w (st_address jobStatus) b) in *.
  cbv zeta. unfold fires in Hf. apply andb_true_iff in Hf as [-> Hdue].
  unfold whenWorkable. fold (counted (isCurrentlyWorkable loaded)
    (set_lastCheckedBlock b (set_isCurrentlyWorkable true loaded))).
  fold (counting loaded true b). cbv zeta.
  unfold alertDue in Hdue. apply andb_true_iff in Hdue as [-> ->].
  rewrite !bind_run.
  pose proof (sendAlert_logs_failure (counting loaded true b) b (tick w)) as Hlog.
  pose proof (sendAlert_returns env config (counting loaded true b) b (tick w)) as Hret.
  destruct (sendAlert env config _ b (tick w)) as [[[]|e] w1]; cbn in Hlog, Hret; [|discriminate].
  cbn [ret]. rewrite bind_run.
  match goal with
  | |- context [upsertJob env ?j w1] =>
      pose proof (preserves_upsertJob env (adds errorLogOf (fun _ => True)) j
                    (adds_writes_db _ _) (adds_writes_disk _ _) w1) as Hup;
      destruct (upsertJob env j w1) as [[[]|e] w2]
  end; cbn in *; rewrite history_emit; cbn;
    apply elem_of_app; left; by eapply adds_elem_of.
Qed.

End SinkFacts.

(** C8.  When every delivery to the webhook fails and the rule sends an
    alert for an observation: [DiscordService.sendAlert] returns [false] and
    [processJobStatus] returns, so nothing is propagated; the failure is
    logged as an error; the alert was attempted once; and the stored record
    has [alertsSent] incremented and the last alert block set to the unit,
    exactly the table a delivering sink leaves. *)
Theorem sink_failure_counts_as_sent env config addr w t o :
  store_ok env -> addr <> "" -> db w = Some t ->
  (forall n, webhook env n <> Ok true) ->
  fires config (loadedOr w addr (obs_unit o)) (eligible o) (obs_unit o) = true ->
  let U := obs_unit o in
  let before := loadedOr w addr U in
  let w' := snd (observe env config addr o w) in
  (forall a w0, fst (discordSendAlert env a w0) = Ok false) /\
  fst (observe env config addr o w) = Ok tt /\
  "Failed to send Discord alert" ∈ history errorLogOf w' /\
  history alertOf w' = history alertOf w ++ [alertFor config (counting before (eligible o) U) U] /\
  (exists j, stored w' addr = Some j /\
     alertsSent j = alertsSent before + 1 /\
     (U <> 0 -> lastAlertBlock j = Some U)) /\
  (forall env2, store_ok env2 ->
     rpc_worked env2 = rpc_worked env ->
     db (snd (observe env2 config addr o w)) = db w').
Proof.
  intros Hok Haddr Hdb Hsink Hf. cbv zeta.
  split; [intros; by apply discordSendAlert_fails|].
  split; [apply observe_returns|].
  split; [by apply (processJobStatus_logs_failure env config Hsink _ _ w t)|].
  split.
  { rewrite (observe_alerts env config addr Hok o w t Hdb). by rewrite Hf. }
  split.
  { destruct (observe_alert_fields env config addr Hok Haddr o w t Hdb)
      as (j & Hj & Hlast & Hsent & _).
    rewrite Hf in Hlast, Hsent.
    exists j. split; [done|]. split; [done|].
    intros HU. rewrite Hlast. apply orAbsentNum_keeps. congruence. }
  intros env2 Hok2 Hworked. unfold observe.
  rewrite (processJobStatus_db env2 config _ _ w t Hok2 Hdb).
  rewrite (processJobStatus_db env config _ _ w t Hok Hdb).
  by rewrite Hworked.
Qed.

Lemma sink_failure_counts_as_sent_witness :
  let env := deafSinkEnv 200 true in
  let w := worldWith nineInARow 109 in
  let before := loadedOr w autoLine 110 in
  let w' := snd (observe env testConfig autoLine (workableAt 110) w) in
  (forall a w0, fst (discordSendAlert env a w0) = Ok false) /\
  fst (observe env testConfig autoLine (workableAt 110) w) = Ok tt /\
  "Failed to send Discord alert" ∈ history errorLogOf w' /\
  history alertOf w' = history alertOf w ++ [alertFor testConfig (counting before true 110) 110] /\
  (exists j, stored w' autoLine = Some j /\
     alertsSent j = alertsSent before + 1 /\
     (110 <> 0 -> lastAlertBlock j = Some 110)) /\
  (forall env2, store_ok env2 ->
     rpc_worked env2 = rpc_worked env ->
     db (snd (observe env2 testConfig autoLine (workableAt 110) w)) = db w').
Proof.
  apply (sink_failure_counts_as_sent (deafSinkEnv 200 true) testConfig autoLine
           (worldWith nineInARow 109) {[ autoLine := params nineInARow ]} (workableAt 110)).
  - intros n. split; reflexivity.
  - discriminate.
  - reflexivity.
  - intros n. discriminate.
  - vm_compute. reflexivity.
Defined.

(** ** The batch of checks for one block *)

Section BatchFacts.
Context (env : Env) (b : Z).
Hypothesis block_nonzero : b <> 0.

Lemma checkJobWorkable_run a w :
  fst (checkJobWorkable env a b w) = settledCheck b a (rpc_workable env (clock w) a (Some b)) /\
  clock (snd (checkJobWorkable env a b w)) = S (clock w).
Proof.
  unfold checkJobWorkable, rpcError, settledCheck.
  rewrite (overridesOf_nonzero b block_nonzero).
  pose proof block_nonzero as Hb. apply Z.eqb_neq in Hb. rewrite Hb.
  run_monad.
  destruct (rpc_workable env (clock w) a (Some b)) as [v|e]; cbn; [done|].
  destruct (rateLimitSignature (messageOr "Unknown error" e)); cbn; done.
Qed.

Lemma allSettled_checks addrs w :
  fst (allSettled (map (fun a => checkJobWorkable env a b) addrs) w) =
  Ok (imap (fun i a => settledCheck b a (rpc_workable env (clock w + i)%nat a (Some b))) addrs).
Proof.
  revert w. induction addrs as [|a addrs IH]; intros w; [done|].
  cbn [map allSettled imap].
  destruct (checkJobWorkable_run a w) as [Hr Hc].
  destruct (checkJobWorkable env a b w) as [r w1]; cbn in Hr, Hc.
  rewrite bind_run. specialize (IH w1).
  destruct (allSettled _ w1) as [[rs|e] w2]; cbn in IH; [|discriminate].
  injection IH as ->. cbn. rewrite Hr, Nat.add_0_r. do 2 f_equal.
  apply imap_ext. intros i x _. cbn. rewrite Hc.
  by replace (S (clock w) + i)%nat with (clock w + S i)%nat by lia.
Qed.

Lemma filter_none {A} (p : A -> bool) l :
  Forall (fun x => p x = false) l -> List.filter p l = [].
Proof. induction 1 as [|x l Hx _ IH]; cbn; [done | by rewrite Hx]. Qed.

End BatchFacts.

(** C7.  At a block other than 0: when no check of the batch fails with a
    rate-limit signature, [checkMultipleJobsWorkable] returns one status per
    job, in order; the status of a job whose check failed has
    [workable = false] and the error message, and every status is decided by
    the answer to that job's own check alone.  Such an error status is not
    workable, and [processJobStatus] stores for it a counter of 0 and a
    record that is not workable. *)
Theorem fatal_check_is_an_error_result env config addrs b w :
  b <> 0 ->
  (forall i a e, addrs !! i = Some a ->
     rpc_workable env (clock w + i)%nat a (Some b) = Throw e ->
     rateLimitSignature (messageOr "Unknown error" e) = false) ->
  (exists statuses,
     fst (checkMultipleJobsWorkable env addrs b w) = Ok statuses /\
     length statuses = length addrs /\
     forall i a, addrs !! i = Some a ->
       statuses !! i =
       Some match rpc_workable env (clock w + i)%nat a (Some b) with
            | Ok v => {| st_address := a; workable := v; blockNumber := b; error := None |}
            | Throw e => {| st_address := a; workable := false; blockNumber := b;
                            error := Some (messageOr "Unknown error" e) |}
            end) /\
  (forall a msg w0 t0,
     store_ok env -> a <> "" -> db w0 = Some t0 ->
     let errorStatus :=
       {| st_address := a; workable := false; blockNumber := b; error := Some msg |} in
     isWorkableStatus errorStatus = false /\
     exists j, stored (snd (processJobStatus env config errorStatus b w0)) a = Some j /\
       consecutiveWorkableBlocks j = 0 /\ isCurrentlyWorkable j = false).
Proof.
  intros Hb Hfatal. split.
  - set (statusAt := fun (i : nat) (a : string) =>
           match rpc_workable env (clock w + i)%nat a (Some b) with
           | Ok v => {| st_address := a; workable := v; blockNumber := b; error := None |}
           | Throw e => {| st_address := a; workable := false; blockNumber := b;
                           error := Some (messageOr "Unknown error" e) |}
           end).
    assert (imap (fun i a => settledCheck b a (rpc_workable env (clock w + i)%nat a (Some b))) addrs
            = imap (fun i a => Ok (statusAt i a)) addrs) as Hres.
    { apply imap_ext. intros i a Ha. unfold settledCheck, statusAt.
      destruct (rpc_workable env (clock w + i)%nat a (Some b)) as [v|e] eqn:E; [done|].
      by rewrite (Hfatal i a e Ha E). }
    exists (imap statusAt addrs).
    unfold checkMultipleJobsWorkable. rewrite bind_run.
    pose proof (allSettled_checks env b Hb addrs w) as Hall. rewrite Hres in Hall.
    destruct (allSettled _ w) as [[rs|e] w1]; cbn in Hall; [|discriminate].
    injection Hall as ->.
    rewrite filter_none.
    2:{ apply Forall_forall. intros r Hr.
        apply list_elem_of_lookup in Hr as [i Hi].
        rewrite list_lookup_imap in Hi.
        destruct (addrs !! i); cbn in Hi; [|discriminate]. by injection Hi as <-. }
    assert (zip_with (statusOfSettled b) addrs (imap (fun i a => Ok (statusAt i a)) addrs)
            = imap statusAt addrs) as ->.
    { apply list_eq. intros i. rewrite lookup_zip_with, !list_lookup_imap.
      by destruct (addrs !! i). }
    split; [done|]. split; [by rewrite length_imap|].
    intros i a Ha. rewrite list_lookup_imap, Ha. reflexivity.
  - intros a msg w0 t0 Hok Ha Hdb errorStatus. split; [done|].
    pose proof (observe_counter env config a Hok Ha
                  {| obs_unit := b; obs_workable := false; obs_error := Some msg |}
                  w0 t0 Hdb) as (j & Hj & Hw & Hc).
    exists j. split; [exact Hj|]. by split.
Qed.

Lemma fatal_check_is_an_error_result_witness :
  exists statuses,
    fst (checkMultipleJobsWorkable (revertingEnv lerp) [autoLine; lerp] 110
           (emptyWorld 109 [autoLine; lerp])) = Ok statuses /\
    length statuses = length [autoLine; lerp] /\
    forall i a, [autoLine; lerp] !! i = Some a ->
      statuses !! i =
      Some match rpc_workable (revertingEnv lerp)
                   (clock (emptyWorld 109 [autoLine; lerp]) + i)%nat a (Some 110) with
           | Ok v => {| st_address := a; workable := v; blockNumber := 110; error := None |}
           | Throw e => {| st_address := a; workable := false; blockNumber := 110;
                           error := Some (messageOr "Unknown error" e) |}
           end.
Proof.
  apply (proj1 (fatal_check_is_an_error_result (revertingEnv lerp) testConfig
                  [autoLine; lerp] 110 (emptyWorld 109 [autoLine; lerp])
                  ltac:(discriminate)
                  ltac:(intros i a e _; cbn; destruct (String.eqb a lerp);
                        [intros [= <-]; reflexivity | discriminate]))).
Defined.

(** ** The retry wrapper *)

Section RetryFacts.
Context (outs : nat -> Result unit) (b : Z) (retries : nat).

Lemma attempt_scripted e w :
  (record e ;;; scripted outs b) w =
  (match outs (clock w) with Ok _ => Ok tt | Throw x => Throw x end, tick (emit e w)).
Proof.
  unfold scripted. run_monad. by destruct (outs (clock w)) as [[]|x].
Qed.

Lemma retryLoop_scripted remaining attempt w :
  let n := leadingRetryable outs (clock w) remaining in
  let run := retryLoop (scripted outs) b retries remaining attempt w in
  fst run = (if (n <? remaining)%nat then outs (clock w + n)%nat
             else Throw (JsError (exhaustedMessage b retries))) /\
  history retryEventOf (snd run) =
    history retryEventOf w ++ schedule b attempt n (n <? remaining)%nat.
Proof.
  revert attempt w. induction remaining as [|rem IH]; intros attempt w.
  - cbn. unfold schedule. cbn. by rewrite app_nil_r.
  - cbn [retryLoop leadingRetryable]. cbv zeta.
    rewrite try_catch_run, attempt_scripted. unfold retryable.
    destruct (outs (clock w)) as [[]|e] eqn:Hout.
    + cbn [fst snd]. rewrite Nat.add_0_r, Hout. split; [done|].
      unfold schedule. cbn. rewrite history_tick, history_emit, Nat.add_0_r. done.
    + rewrite bind_log.
      destruct (isRateLimited (messageOr "" e)) eqn:Hrl.
      * rewrite bind_log, bind_record.
        match goal with
        | |- context [retryLoop _ b retries rem (S attempt) ?w1] =>
            destruct (IH (S attempt) w1) as [Hres Hev]
        end.
        cbn [clock emit tick] in Hres, Hev.
        change (S (leadingRetryable outs (S (clock w)) rem) <? S rem)%nat
          with (leadingRetryable outs (S (clock w)) rem <? rem)%nat.
        split.
        -- rewrite Hres. by rewrite Nat.add_succ_r.
        -- rewrite Hev. rewrite !history_emit, history_tick, history_emit. cbn.
           rewrite !app_nil_r.
           unfold schedule. cbn [seq flat_map].
           rewrite <- !app_assoc. cbn [app].
           by rewrite Nat.add_succ_r.
      * rewrite bind_log. unfold throw. cbn [fst snd].
        rewrite Nat.add_0_r, Hout. split; [done|].
        unfold schedule. cbn.
        rewrite !history_emit, history_tick, history_emit, Nat.add_0_r. cbn.
        by rewrite !app_nil_r.
Qed.

End RetryFacts.

(** Whatever an attempt does, the wrapper calls it at most [remaining] times. *)
Lemma retryLoop_attempts_bound attemptBlock b retries remaining attempt w :
  preserves (adds attemptOf (fun _ => False)) (attemptBlock b) ->
  (length (history attemptOf (snd (retryLoop attemptBlock b retries remaining attempt w)))
   <= length (history attemptOf w) + remaining)%nat.
Proof.
  intros Hquiet. revert attempt w.
  induction remaining as [|rem IH]; intros attempt w; [cbn; lia|].
  cbn [retryLoop]. cbv zeta. rewrite try_catch_run, bind_record.
  pose proof (adds_nothing _ _ _ (Hquiet (emit (EvAttempt b attempt) w))) as Hat.
  rewrite history_emit in Hat. cbn in Hat.
  destruct (attemptBlock b (emit (EvAttempt b attempt) w)) as [[[]|e] w1]; cbn [snd] in *.
  - rewrite Hat, length_app. cbn. lia.
  - rewrite bind_log. destruct (isRateLimited (messageOr "" e)).
    + rewrite bind_log, bind_record.
      etransitivity; [apply IH|].
      rewrite !history_emit. cbn. rewrite !app_nil_r, Hat, length_app. cbn. lia.
    + rewrite bind_log. unfold throw. cbn [snd].
      rewrite !history_emit. cbn. rewrite !app_nil_r, Hat, length_app. cbn. lia.
Qed.

Lemma scripted_quiet {X} (f : Event -> option X) Q `{!Frame (adds f Q)} outs b :
  preserves (adds f Q) (scripted outs b).
Proof. unfold scripted. frame. Qed.

Lemma toLowerCase_app s1 s2 :
  Js.toLowerCase (s1 +:+ s2) = Js.toLowerCase s1 +:+ Js.toLowerCase s2.
Proof.
  induction s1 as [|c s1 IH]; [done|].
  change (String c s1 +:+ s2) with (String c (s1 +:+ s2)).
  cbn [Js.toLowerCase].
  change (String ?a ?x +:+ ?y) with (String a (x +:+ y)).
  by f_equal.
Qed.

Lemma includes_app_r p s1 s2 :
  Js.includes p s2 = true -> Js.includes p (s1 +:+ s2) = true.
Proof.
  intros H. induction s1 as [|c s1 IH]; [done|].
  change (String c s1 +:+ s2) with (String c (s1 +:+ s2)).
  cbn [Js.includes]. rewrite IH. by rewrite orb_true_r.
Qed.

(** The error raised when the budget is used up carries a rate-limit
    signature itself. *)
Lemma exhaustedMessage_rate_limited b retries :
  isRateLimited (exhaustedMessage b retries) = true.
Proof.
  unfold isRateLimited, exhaustedMessage. cbv zeta.
  rewrite !toLowerCase_app.
  assert (Js.includes "rate limit" (Js.toLowerCase " attempts due to rate limiting") = true)
    as H by reflexivity.
  rewrite !(includes_app_r "rate limit") by (repeat apply includes_app_r; exact H).
  reflexivity.
Qed.

(** The wrapper on any attempt that records no attempt or wait of its own. *)
Lemma retryLoop_schedule attemptBlock b retries remaining attempt w :
  preserves (adds retryEventOf (fun _ => False)) (attemptBlock b) ->
  let run := retryLoop attemptBlock b retries remaining attempt w in
  exists n, (n <= remaining)%nat /\
    history retryEventOf (snd run) =
      history retryEventOf w ++ schedule b attempt n (n <? remaining)%nat /\
    match fst run with
    | Ok _ => (n < remaining)%nat
    | Throw e =>
        if isRateLimited (messageOr "" e)
        then n = remaining /\ e = JsError (exhaustedMessage b retries)
        else (n < remaining)%nat
    end.
Proof.
  intros Hquiet. cbv zeta. revert attempt w.
  induction remaining as [|rem IH]; intros attempt w.
  - exists O. cbn. rewrite exhaustedMessage_rate_limited.
    unfold schedule. cbn. by rewrite app_nil_r.
  - cbn [retryLoop]. cbv zeta. rewrite try_catch_run, bind_record.
    pose proof (adds_nothing _ _ _ (Hquiet (emit (EvAttempt b attempt) w))) as Hat.
    rewrite history_emit in Hat. cbn in Hat.
    destruct (attemptBlock b (emit (EvAttempt b attempt) w)) as [[[]|e] w1]; cbn [fst snd] in *.
    + exists O. split; [lia|]. split; [|lia].
      unfold schedule. cbn. by rewrite Hat, Nat.add_0_r.
    + rewrite bind_log. destruct (isRateLimited (messageOr "" e)) eqn:Hrl.
      * rewrite bind_log, bind_record.
        match goal with
        | |- context [retryLoop _ b retries rem (S attempt) ?w2] =>
            destruct (IH (S attempt) w2) as (n & Hn & Hev & Hres)
        end.
        exists (S n). split; [lia|]. split.
        -- rewrite Hev, !history_emit. cbn. rewrite !app_nil_r, Hat.
           change (S n <? S rem)%nat with (n <? rem)%nat.
           unfold schedule. cbn [seq flat_map].
           rewrite <- !app_assoc. cbn [app]. by rewrite Nat.add_succ_r.
        -- destruct (fst (retryLoop _ _ _ _ _ _)) as [[]|e']; [lia|].
           destruct (isRateLimited (messageOr "" e')); [|lia].
           destruct Hres as [-> ->]. done.
      * rewrite bind_log. unfold throw. cbn [fst snd]. rewrite Hrl.
        exists O. split; [lia|]. split; [|lia].
        unfold schedule. cbn. rewrite !history_emit. cbn.
        by rewrite !app_nil_r, Hat, Nat.add_0_r.
Qed.

(** C4.  The retry wrapper with its default budget of 3.

    Run on attempts whose outcomes are [outs] from the time of the first
    one: an attempt that fails with a rate-limit signature is followed by a
    wait of [3^(attempt+4) * 1000] ms and, while fewer than 3 attempts were
    made, by the next attempt; the first attempt that does not fail so ends
    the run with its own outcome: the wrapper returns, or raises that error
    with no wait and no further attempt; after three rate-limit failures the
    wrapper raises an error whose message names the block; no run makes more
    than 3 attempts.

    Run on any attempt that records no attempt or wait of its own (as
    [processBlock] is): the attempts and waits are those of [n <= 3]
    rate-limit failures, each followed by its wait, and of one more attempt
    when [n < 3]; the wrapper returns only after that further attempt, raises
    an error without rate-limit signature only from it, and otherwise raises
    the error that names the block, after [n = 3] failures. *)
Theorem retry_wrapper_schedule b w :
  (forall outs,
     let c := clock w in
     let run := processBlockWithRetryOn (scripted outs) b 3 w in
     let events := history retryEventOf (snd run) in
     let before := history retryEventOf w in
     (retryable (outs c) = false ->
      fst run = outs c /\ events = before ++ [EvAttempt b 0]) /\
     (retryable (outs c) = true -> retryable (outs (S c)) = false ->
      fst run = outs (S c) /\
      events = before ++ [EvAttempt b 0; EvDelay (3 ^ 4 * 1000); EvAttempt b 1]) /\
     (retryable (outs c) = true -> retryable (outs (S c)) = true ->
      retryable (outs (S (S c))) = false ->
      fst run = outs (S (S c)) /\
      events = before ++ [EvAttempt b 0; EvDelay (3 ^ 4 * 1000);
                          EvAttempt b 1; EvDelay (3 ^ 5 * 1000); EvAttempt b 2]) /\
     (retryable (outs c) = true -> retryable (outs (S c)) = true ->
      retryable (outs (S (S c))) = true ->
      fst run = Throw (JsError ("Failed to process block " +:+ Js.showZ b
                                +:+ " after 3 attempts due to rate limiting")) /\
      events = before ++ [EvAttempt b 0; EvDelay (3 ^ 4 * 1000);
                          EvAttempt b 1; EvDelay (3 ^ 5 * 1000);
                          EvAttempt b 2; EvDelay (3 ^ 6 * 1000)]) /\
     (length (history attemptOf (snd run)) <= length (history attemptOf w) + 3)%nat) /\
  (forall attemptBlock,
     preserves (adds retryEventOf (fun _ => False)) (attemptBlock b) ->
     let run := processBlockWithRetryOn attemptBlock b 3 w in
     exists n, (n <= 3)%nat /\
       history retryEventOf (snd run) =
         history retryEventOf w ++
         flat_map (fun k => [EvAttempt b k; EvDelay (3 ^ (Z.of_nat k + 4) * 1000)]) (seq 0 n)
         ++ (if (n <? 3)%nat then [EvAttempt b n] else []) /\
       match fst run with
       | Ok _ => (n < 3)%nat
       | Throw e =>
           if isRateLimited (messageOr "" e)
           then n = 3%nat /\
                e = JsError ("Failed to process block " +:+ Js.showZ b
                             +:+ " after 3 attempts due to rate limiting")
           else (n < 3)%nat
       end).
Proof.
  split.
  - intros outs. cbv zeta. unfold processBlockWithRetryOn.
    destruct (retryLoop_scripted outs b 3 3 0 w) as [Hres Hev]. cbv zeta in Hres, Hev.
    cbn [leadingRetryable] in Hres, Hev. rewrite Hres, Hev. clear Hres Hev.
    split; [|split; [|split; [|split]]].
    + intros ->. cbn. by rewrite Nat.add_0_r.
    + intros -> ->. cbn. by rewrite Nat.add_1_r.
    + intros -> -> ->. cbn.
      by replace (clock w + 2)%nat with (S (S (clock w))) by lia.
    + intros -> -> ->. cbn. done.
    + apply retryLoop_attempts_bound. apply scripted_quiet. apply _.
  - intros attemptBlock Hquiet. cbv zeta. unfold processBlockWithRetryOn.
    destruct (retryLoop_schedule attemptBlock b 3 3 0 w Hquiet) as (n & Hn & Hev & Hres).
    exists n. split; [exact Hn|]. split; [|exact Hres].
    rewrite Hev. unfold schedule, backoffDelay. reflexivity.
Qed.

Lemma retry_wrapper_schedule_witness :
  let run := processBlockWithRetryOn (scripted twoRateLimits) 110 3 (emptyWorld 109 []) in
  fst run = twoRateLimits 2 /\
  history retryEventOf (snd run) =
  history retryEventOf (emptyWorld 109 []) ++
  [EvAttempt 110 0; EvDelay (3 ^ 4 * 1000);
   EvAttempt 110 1; EvDelay (3 ^ 5 * 1000); EvAttempt 110 2].
Proof.
  apply (proj1 (proj2 (proj2 (proj1 (retry_wrapper_schedule 110 (emptyWorld 109 []))
                                twoRateLimits)))).
  - vm_compute. reflexivity.
  - vm_compute. reflexivity.
  - vm_compute. reflexivity.
Defined.

(** ** The scan of a tick *)

Lemma last_cons_default {A} (x : A) l d : List.last (x :: l) d = List.last l x.
Proof.
  revert x d. induction l as [|y l IH]; intros x d; [done|].
  change (List.last (x :: y :: l) d) with (List.last (y :: l) d).
  by rewrite !IH.
Qed.

Lemma last_seqZ m n d : 0 < n -> List.last (seqZ m n) d = m + n - 1.
Proof.
  intros Hn. replace n with (Z.of_nat (S (Z.to_nat (n - 1)))) by lia.
  rewrite seqZ_S, List.last_last. lia.
Qed.

Section ScanFacts.
Context (env : Env) (config : MonitoringConfig).

Local Abbreviation noUnit := (adds unitOf (fun _ => False)).

Lemma later_attempts_start_no_unit attemptBlock b retries remaining k :
  preserves noUnit (attemptBlock b) ->
  preserves noUnit (retryLoop attemptBlock b retries remaining (S k)).
Proof.
  intros Hq. apply (preserves_retryLoop noUnit); [done| |].
  - intros k' Hk'. apply adds_allows. destruct k'; [lia | done].
  - intros d. by apply adds_allows.
Qed.

Lemma retryLoop_units attemptBlock b retries rem w :
  preserves noUnit (attemptBlock b) ->
  history unitOf (snd (retryLoop attemptBlock b retries (S rem) 0 w)) =
  history unitOf w ++ [b].
Proof.
  intros Hq. cbn [retryLoop]. cbv zeta. rewrite try_catch_run, bind_record.
  pose proof (adds_nothing _ _ _ (Hq (emit (EvAttempt b 0) w))) as Hat.
  rewrite history_emit in Hat. cbn in Hat.
  destruct (attemptBlock b (emit (EvAttempt b 0) w)) as [[[]|e] w1]; cbn [snd] in *; [done|].
  rewrite bind_log. destruct (isRateLimited (messageOr "" e)).
  - rewrite bind_log, bind_record.
    rewrite (adds_nothing _ _ _ (later_attempts_start_no_unit attemptBlock b retries rem 0 Hq _)).
    rewrite !history_emit. cbn. by rewrite !app_nil_r.
  - rewrite bind_log. unfold throw. cbn [snd].
    rewrite !history_emit. cbn. by rewrite !app_nil_r.
Qed.

Lemma processBlock_starts_no_unit b :
  b <> 0 -> preserves noUnit (processBlock env config b).
Proof.
  intros Hb. apply (preserves_processBlock env config noUnit); try done.
  - apply adds_writes_db.
  - apply adds_writes_disk.
  - intros a. by apply adds_allows.
  - intros a. by apply adds_allows.
  - intros a. by apply adds_allows.
Qed.

(** [processBlock] records no attempt and no wait of its own. *)
Lemma processBlock_records_no_retry_event b :
  b <> 0 -> preserves (adds retryEventOf (fun _ => False)) (processBlock env config b).
Proof.
  intros Hb.
  apply (preserves_processBlock env config (adds retryEventOf (fun _ => False))); try done.
  - apply adds_writes_db.
  - apply adds_writes_disk.
  - intros a. by apply adds_allows.
  - intros a. by apply adds_allows.
  - intros a. by apply adds_allows.
Qed.

Lemma processBlockWithRetry_units b w :
  b <> 0 ->
  history unitOf (snd (processBlockWithRetry env config b w)) = history unitOf w ++ [b].
Proof.
  intros Hb. apply retryLoop_units. by apply processBlock_starts_no_unit.
Qed.

(** One step of the scan: the next block is processed; when its
    processing throws, the skip is logged; either way the block becomes the
    cursor candidate and the scan goes on. *)
Lemma scanBlocks_step b rest sp w :
  scanBlocks env config (b :: rest) sp w =
  scanBlocks env config rest b
    (match processBlockWithRetry env config b w with
     | (Ok _, w1) => w1
     | (Throw _, w1) => emit (EvLog ERROR skipMessage) w1
     end).
Proof.
  cbn [scanBlocks]. rewrite bind_run, try_catch_run, bind_run.
  by destruct (processBlockWithRetry env config b w) as [[[]|e] w1].
Qed.

Lemma scanBlocks_result blocks sp w :
  fst (scanBlocks env config blocks sp w) = Ok (List.last blocks sp).
Proof.
  revert sp w. induction blocks as [|b blocks IH]; intros sp w; [done|].
  rewrite scanBlocks_step, IH. by rewrite last_cons_default.
Qed.

Lemma scanBlocks_units blocks sp w :
  Forall (fun b => b <> 0) blocks ->
  history unitOf (snd (scanBlocks env config blocks sp w)) = history unitOf w ++ blocks.
Proof.
  intros Hb. revert sp w. induction Hb as [|b blocks Hb _ IH]; intros sp w.
  - cbn. by rewrite app_nil_r.
  - rewrite scanBlocks_step, IH.
    pose proof (processBlockWithRetry_units b w Hb) as Hu.
    destruct (processBlockWithRetry env config b w) as [[[]|e] w1]; cbn [snd] in Hu.
    + rewrite Hu. by rewrite <- app_assoc.
    + rewrite history_emit. cbn. rewrite app_nil_r, Hu. by rewrite <- app_assoc.
Qed.

(** When the batch of checks throws, [processBlock] has written nothing. *)
Lemma processBlock_throws_store b w e w1 :
  processBlock env config b w = (Throw e, w1) -> db w1 = db w /\ disk w1 = disk w.
Proof.
  unfold processBlock. rewrite try_catch_run, bind_run. cbn [get_world].
  rewrite bind_run.
  pose proof (preserves_checkMultipleJobsWorkable_any env (same db) (jobAddresses w) b
                same_db_allows w) as Hdb.
  pose proof (preserves_checkMultipleJobsWorkable_any env (same disk) (jobAddresses w) b
                same_disk_allows w) as Hdisk.
  destruct (checkMultipleJobsWorkable env (jobAddresses w) b w) as [[sts|e0] w0];
    cbn [snd] in Hdb, Hdisk.
  - pose proof (forEach_returns (fun st => processJobStatus env config st b) sts w0
                  (fun st w => processJobStatus_returns env config st b w)) as Hret.
    destruct (forEach _ sts w0) as [[[]|e1] w2]; cbn in Hret; discriminate.
  - cbn. intros [= <- <-]. by split.
Qed.

Lemma retryLoop_throws_store attemptBlock b retries remaining attempt w e w1 :
  (forall w e w1, attemptBlock b w = (Throw e, w1) -> db w1 = db w /\ disk w1 = disk w) ->
  retryLoop attemptBlock b retries remaining attempt w = (Throw e, w1) ->
  db w1 = db w /\ disk w1 = disk w.
Proof.
  intros Hat. revert attempt w.
  induction remaining as [|rem IH]; intros attempt w.
  - cbn. unfold throw. by intros [= <- <-].
  - cbn [retryLoop]. cbv zeta. rewrite try_catch_run, bind_record.
    destruct (attemptBlock b (emit (EvAttempt b attempt) w)) as [[[]|e0] w0] eqn:Hrun;
      [discriminate|].
    apply Hat in Hrun as [Hdb Hdisk]. cbn in Hdb, Hdisk.
    rewrite bind_log. destruct (isRateLimited (messageOr "" e0)).
    + rewrite bind_log, bind_record. intros Hrest.
      apply IH in Hrest as [H1 H2]. cbn in H1, H2. split; congruence.
    + rewrite bind_log. unfold throw. intros [= <- <-]. by split.
Qed.

Lemma processBlockWithRetry_throws_store b w e w1 :
  processBlockWithRetry env config b w = (Throw e, w1) -> db w1 = db w /\ disk w1 = disk w.
Proof. apply retryLoop_throws_store. apply processBlock_throws_store. Qed.

Lemma getLatestBlock_ok w H :
  rpc_latest env (clock w) = Ok (Some H) ->
  getLatestBlock env w = (Ok H, tick (emit EvHeadQuery w)).
Proof. intros Hh. unfold getLatestBlock. run_monad. by rewrite Hh. Qed.

(** The world after a tick whose head query gave [H]. *)
Lemma monitoringLoop_run w H :
  rpc_latest env (clock w) = Ok (Some H) ->
  let L := lastProcessedBlock w in
  let window := Z.min (H - L) (maxBlocksPerQuery config) in
  let w0 := tick (emit EvHeadQuery w) in
  monitoringLoop env config w =
  if H <=? L then (Ok tt, w0)
  else
    let w2 := snd (scanBlocks env config (seqZ (L + 1) window) L
                     (emit (EvLog DEBUG "Processing blocks with limit") w0)) in
    let w3 := set_lastProcessedBlock (List.last (seqZ (L + 1) window) L) w2 in
    (Ok tt,
     emit (EvLog INFO "Block processed")
       (if L + window <? H
        then emit (EvLog INFO "Still catching up on blocks") w3 else w3)).
Proof.
  intros Hh. cbv zeta. unfold monitoringLoop.
  rewrite try_catch_run, bind_run, (getLatestBlock_ok w H Hh).
  cbn [get_world bind]. unfold bind at 1. cbn [get_world].
  change (lastProcessedBlock (tick (emit EvHeadQuery w))) with (lastProcessedBlock w).
  destruct (H <=? lastProcessedBlock w); [done|].
  cbv zeta. unfold log at 1, modify at 1. rewrite bind_run.
  pose proof (scanBlocks_result
                (seqZ (lastProcessedBlock w + 1)
                   (Z.min (H - lastProcessedBlock w) (maxBlocksPerQuery config)))
                (lastProcessedBlock w)
                (emit (EvLog DEBUG "Processing blocks with limit")
                   (tick (emit EvHeadQuery w)))) as Hres.
  destruct (scanBlocks env config _ _ _) as [[sp|e] w2]; cbn [fst snd] in *; [|discriminate].
  injection Hres as ->. unfold_monad.
  by destruct (_ <? H).
Qed.

End ScanFacts.

Lemma history_set_lastProcessedBlock {X} (f : Event -> option X) b w :
  history f (set_lastProcessedBlock b w) = history f w.
Proof. reflexivity. Qed.

(** C3, as amended.  A tick whose head query answers [H], with a positive
    window cap [C] and a cursor [L] that is not negative.  If [H <= L] the
    tick only asks for the head: cursor, table and file are unchanged and no
    unit is started.  Otherwise the units started are exactly [L+1], ...,
    [L + min (H - L) C], in this order; every other query of the tick is
    about a block of that range, every attempt is one of at most three on a
    block of that range; and the cursor ends at [L + min (H - L) C], whether
    or not units were skipped. *)
Theorem tick_scans_bounded_window env config w H :
  0 < maxBlocksPerQuery config ->
  0 <= lastProcessedBlock w ->
  rpc_latest env (clock w) = Ok (Some H) ->
  let L := lastProcessedBlock w in
  let w' := snd (monitoringLoop env config w) in
  (H <= L ->
   lastProcessedBlock w' = L /\ db w' = db w /\ disk w' = disk w /\
   history unitOf w' = history unitOf w /\
   history attemptOf w' = history attemptOf w /\
   history queryOf w' = history queryOf w ++ [None]) /\
  (L < H ->
   let window := Z.min (H - L) (maxBlocksPerQuery config) in
   history unitOf w' = history unitOf w ++ seqZ (L + 1) window /\
   (exists qs, history queryOf w' = history queryOf w ++ None :: qs /\
      Forall (fun q => exists b, q = Some b /\ L < b <= L + window) qs) /\
   (exists ats, history attemptOf w' = history attemptOf w ++ ats /\
      Forall (fun at_ => L < fst at_ <= L + window /\ (snd at_ < 3)%nat) ats) /\
   lastProcessedBlock w' = L + window).
Proof.
  intros HC HL Hh. cbv zeta.
  rewrite (monitoringLoop_run env config w H Hh). cbv zeta. split.
  - intros Hle. apply Z.leb_le in Hle as ->. cbn [snd].
    repeat split; rewrite ?history_tick, ?history_emit; cbn; by rewrite ?app_nil_r.
  - intros Hlt. pose proof Hlt as Hgt. apply Z.leb_gt in Hgt as ->. cbn [snd].
    set (L := lastProcessedBlock w) in *.
    set (window := Z.min (H - L) (maxBlocksPerQuery config)).
    assert (0 < window) as Hwin by (unfold window; lia).
    set (w1 := emit (EvLog DEBUG "Processing blocks with limit") (tick (emit EvHeadQuery w))).
    set (w2 := snd (scanBlocks env config (seqZ (L + 1) window) L w1)).
    assert (forall X (f : Event -> option X),
              (forall l m, f (EvLog l m) = None) ->
              history f
                (emit (EvLog INFO "Block processed")
                   (if L + window <? H
                    then emit (EvLog INFO "Still catching up on blocks")
                           (set_lastProcessedBlock (List.last (seqZ (L + 1) window) L) w2)
                    else set_lastProcessedBlock (List.last (seqZ (L + 1) window) L) w2))
              = history f w2) as Hlogs.
    { intros X f Hf. destruct (L + window <? H);
        rewrite !history_emit, ?Hf, ?app_nil_r; reflexivity. }
    assert (Forall (fun b => L < b <= L + window) (seqZ (L + 1) window)) as Hrange.
    { apply Forall_seqZ. intros b Hb. lia. }
    split; [|split; [|split]].
    + rewrite Hlogs by done. unfold w2.
      rewrite scanBlocks_units.
      * unfold w1. rewrite history_emit, history_tick, history_emit. cbn.
        by rewrite !app_nil_r.
      * eapply Forall_impl; [exact Hrange|]. cbn. intros b Hb. lia.
    + rewrite Hlogs by done.
      destruct (preserves_scanBlocks env config
                  (adds queryOf (fun q => exists b, q = Some b /\ L < b <= L + window))
                  (seqZ (L + 1) window) L) with (w := w1) as (qs & Hqs & HQ).
      * apply adds_writes_db.
      * apply adds_writes_disk.
      * intros a. by apply adds_allows.
      * intros d. by apply adds_allows.
      * eapply Forall_impl; [exact Hrange|]. cbn. intros b Hb.
        split; [lia|]. split; [|split]; intros; apply adds_allows; cbn; eauto.
      * exists qs. split; [|exact HQ]. fold w2 in Hqs. rewrite Hqs.
        unfold w1. rewrite history_emit, history_tick, history_emit. cbn.
        by rewrite app_nil_r, <- app_assoc.
    + rewrite Hlogs by done.
      destruct (preserves_scanBlocks env config
                  (adds attemptOf (fun at_ => L < fst at_ <= L + window /\ (snd at_ < 3)%nat))
                  (seqZ (L + 1) window) L) with (w := w1) as (ats & Hats & HQ).
      * apply adds_writes_db.
      * apply adds_writes_disk.
      * intros a. by apply adds_allows.
      * intros d. by apply adds_allows.
      * eapply Forall_impl; [exact Hrange|]. cbn. intros b Hb.
        split; [lia|]. split; [|split]; intros; apply adds_allows; cbn; eauto.
      * exists ats. split; [|exact HQ]. fold w2 in Hats. rewrite Hats.
        unfold w1. rewrite history_emit, history_tick, history_emit. cbn.
        by rewrite !app_nil_r.
    + rewrite (last_seqZ (L + 1) window L Hwin).
      destruct (L + window <? H); cbn; lia.
Qed.

Lemma tick_scans_bounded_window_witness :
  let w := emptyWorld 110 [autoLine] in
  let w' := snd (monitoringLoop (rateLimitedEnv 112) defaultConfig w) in
  let window := Z.min (112 - 110) (maxBlocksPerQuery defaultConfig) in
  history unitOf w' = history unitOf w ++ seqZ (110 + 1) window /\
  (exists qs, history queryOf w' = history queryOf w ++ None :: qs /\
     Forall (fun q => exists b, q = Some b /\ 110 < b <= 110 + window) qs) /\
  (exists ats, history attemptOf w' = history attemptOf w ++ ats /\
     Forall (fun at_ => 110 < fst at_ <= 110 + window /\ (snd at_ < 3)%nat) ats) /\
  lastProcessedBlock w' = 110 + window.
Proof.
  apply (proj2 (tick_scans_bounded_window (rateLimitedEnv 112) defaultConfig
                  (emptyWorld 110 [autoLine]) 112
                  ltac:(reflexivity) ltac:(discriminate) eq_refl)).
  reflexivity.
Defined.

(** C3, as stated, fails when units are skipped: with the head two blocks
    ahead and every check rate-limited, both units are skipped and the
    cursor still advances by [min (H - L) C = 2], not by 2 minus the two
    skipped units. *)
Lemma skipped_units_still_advance_cursor :
  let w := emptyWorld 110 [autoLine] in
  let w' := snd (monitoringLoop (rateLimitedEnv 112) defaultConfig w) in
  skipped w' - skipped w = 2 /\
  lastProcessedBlock w' - lastProcessedBlock w = 2 /\
  lastProcessedBlock w' - lastProcessedBlock w <>
    Z.min (112 - lastProcessedBlock w) (maxBlocksPerQuery defaultConfig)
    - (skipped w' - skipped w).
Proof.
  cbv zeta. split; [vm_compute; reflexivity|].
  split; [vm_compute; reflexivity|].
  vm_compute. discriminate.
Qed.

Section ScanSplit.
Context (env : Env) (config : MonitoringConfig).

(** A scan of [pre ++ rest] is the scan of [pre] followed by that of [rest]. *)
Lemma scanBlocks_app pre rest sp w :
  scanBlocks env config (pre ++ rest) sp w =
  scanBlocks env config rest (List.last pre sp) (snd (scanBlocks env config pre sp w)).
Proof.
  revert sp w. induction pre as [|x pre IH]; intros sp w; [done|].
  change ((x :: pre) ++ rest) with (x :: (pre ++ rest)).
  rewrite !scanBlocks_step, IH. by rewrite last_cons_default.
Qed.

End ScanSplit.

(** C6.  When [processBlock] throws, table and file are as before the
    attempt.  When [processBlockWithRetry] throws, so that the unit is
    skipped, table and file are as before its first attempt, and the scan
    logs the skip, takes the block as the cursor candidate and goes on with
    the remaining blocks.  The cursor value a scan returns is its last block,
    whichever units were skipped.  And in a tick: when block [b] of the
    window, reached after the blocks [pre], is skipped, [monitoringLoop]
    still returns, it ends in the world the scan of the later blocks [post]
    ends in when started right after the skip was logged, with
    [lastProcessedBlock] set to the end of the window, which is [b] or
    later; every block of the window was started once, in order. *)
Theorem failed_unit_changes_no_state env config b :
  (forall w e w1,
     processBlock env config b w = (Throw e, w1) ->
     db w1 = db w /\ disk w1 = disk w) /\
  (forall w e w1,
     processBlockWithRetry env config b w = (Throw e, w1) ->
     db w1 = db w /\ disk w1 = disk w /\
     forall rest sp,
       scanBlocks env config (b :: rest) sp w =
       scanBlocks env config rest b (emit (EvLog ERROR skipMessage) w1)) /\
  (forall blocks sp w,
     fst (scanBlocks env config (b :: blocks) sp w) = Ok (List.last blocks b)) /\
  (forall w H pre post e w1,
     rpc_latest env (clock w) = Ok (Some H) ->
     let L := lastProcessedBlock w in
     let window := Z.min (H - L) (maxBlocksPerQuery config) in
     let wb :=
       snd (scanBlocks env config pre L
              (emit (EvLog DEBUG "Processing blocks with limit")
                 (tick (emit EvHeadQuery w)))) in
     let wend :=
       snd (scanBlocks env config post b (emit (EvLog ERROR skipMessage) w1)) in
     let w' := snd (monitoringLoop env config w) in
     seqZ (L + 1) window = pre ++ b :: post ->
     processBlockWithRetry env config b wb = (Throw e, w1) ->
     db w1 = db wb /\ disk w1 = disk wb /\
     fst (monitoringLoop env config w) = Ok tt /\
     w' = emit (EvLog INFO "Block processed")
            (if L + window <? H
             then emit (EvLog INFO "Still catching up on blocks")
                    (set_lastProcessedBlock (L + window) wend)
             else set_lastProcessedBlock (L + window) wend) /\
     lastProcessedBlock w' = L + window /\
     L < b <= lastProcessedBlock w' /\
     (0 <= L -> history unitOf w' = history unitOf w ++ pre ++ b :: post)).
Proof.
  split; [|split; [|split]].
  - apply processBlock_throws_store.
  - intros w e w1 Hrun.
    destruct (processBlockWithRetry_throws_store env config b w e w1 Hrun) as [Hdb Hdisk].
    split; [done|]. split; [done|].
    intros rest sp. by rewrite scanBlocks_step, Hrun.
  - intros blocks sp w. rewrite scanBlocks_result. by rewrite last_cons_default.
  - intros w H pre post e w1 Hh L window wb wend w' Hsplit Hrun.
    destruct (processBlockWithRetry_throws_store env config b wb e w1 Hrun) as [Hdb Hdisk].
    split; [done|]. split; [done|].
    assert (Hin : L + 1 <= b < L + 1 + window).
    { apply elem_of_seqZ. rewrite Hsplit. apply elem_of_app. right. by left. }
    pose proof (monitoringLoop_run env config w H Hh) as Hloop. cbv zeta in Hloop.
    fold L window in Hloop.
    assert ((H <=? L) = false) as HHL by (apply Z.leb_gt; lia).
    rewrite HHL, last_seqZ, Hsplit, scanBlocks_app, scanBlocks_step in Hloop by lia.
    fold wb in Hloop. rewrite Hrun in Hloop. fold wend in Hloop.
    replace (L + 1 + window - 1) with (L + window) in Hloop by lia.
    assert (Hw' : w' = emit (EvLog INFO "Block processed")
                    (if L + window <? H
                     then emit (EvLog INFO "Still catching up on blocks")
                            (set_lastProcessedBlock (L + window) wend)
                     else set_lastProcessedBlock (L + window) wend)).
    { subst w'. by rewrite Hloop. }
    assert (Hcur : lastProcessedBlock w' = L + window).
    { rewrite Hw'. by destruct (L + window <? H). }
    split; [by rewrite Hloop|]. split; [exact Hw'|]. split; [exact Hcur|].
    split; [lia|].
    intros HL.
    assert (Hunits : history unitOf wend = history unitOf w ++ seqZ (L + 1) window).
    { pose proof (scanBlocks_units env config (seqZ (L + 1) window) L
                    (emit (EvLog DEBUG "Processing blocks with limit")
                       (tick (emit EvHeadQuery w)))) as Hu.
      rewrite Hsplit, scanBlocks_app, scanBlocks_step in Hu. fold wb in Hu.
      rewrite Hrun in Hu. fold wend in Hu. rewrite <- Hsplit in Hu.
      rewrite Hu.
      - rewrite history_emit, history_tick, history_emit. cbn. by rewrite !app_nil_r.
      - apply Forall_forall. intros x Hx. apply elem_of_seqZ in Hx. lia. }
    rewrite <- Hsplit, <- Hunits, Hw'.
    destruct (L + window <? H); rewrite !history_emit; cbn; by rewrite !app_nil_r.
Qed.

Lemma failed_unit_changes_no_state_witness :
  let env := rateLimitedEnv 112 in
  let w := worldWith nineInARow 109 in
  let wb :=
    snd (scanBlocks env testConfig [110] 109
           (emit (EvLog DEBUG "Processing blocks with limit")
              (tick (emit EvHeadQuery w)))) in
  let w1 := snd (processBlockWithRetry env testConfig 111 wb) in
  let wend := snd (scanBlocks env testConfig [112] 111 (emit (EvLog ERROR skipMessage) w1)) in
  let w' := snd (monitoringLoop env testConfig w) in
  db w1 = db wb /\ disk w1 = disk wb /\
  fst (monitoringLoop env testConfig w) = Ok tt /\
  w' = emit (EvLog INFO "Block processed")
         (if 109 + Z.min (112 - 109) (maxBlocksPerQuery testConfig) <? 112
          then emit (EvLog INFO "Still catching up on blocks")
                 (set_lastProcessedBlock
                    (109 + Z.min (112 - 109) (maxBlocksPerQuery testConfig)) wend)
          else set_lastProcessedBlock
                 (109 + Z.min (112 - 109) (maxBlocksPerQuery testConfig)) wend) /\
  lastProcessedBlock w' = 109 + Z.min (112 - 109) (maxBlocksPerQuery testConfig) /\
  109 < 111 <= lastProcessedBlock w' /\
  (0 <= 109 -> history unitOf w' = history unitOf w ++ [110] ++ 111 :: [112]).
Proof.
  apply (proj2 (proj2 (proj2
           (failed_unit_changes_no_state (rateLimitedEnv 112) testConfig 111)))
           (worldWith nineInARow 109) 112 [110] [112]
           (JsError (exhaustedMessage 111 3))).
  - reflexivity.
  - vm_compute. reflexivity.
  - vm_compute. reflexivity.
Defined.

(** ** A failing store *)

Section WriteFailure.
Context (env : Env) (config : MonitoringConfig).






End WriteFailure.




(** ** The scheduler *)

Lemma run_timer_fires s n :
  Scheduler.monitoringInterval s = true ->
  Scheduler.inFlight (Scheduler.run s (replicate n Scheduler.TimerFires)) =
    (Scheduler.inFlight s + n)%nat /\
  Scheduler.monitoringInterval (Scheduler.run s (replicate n Scheduler.TimerFires)) = true.
Proof.
  revert s. induction n as [|n IH]; intros s Hs; cbn.
  - by rewrite Nat.add_0_r.
  - unfold Scheduler.run in IH. rewrite Hs.
    destruct (IH (Scheduler.beginLoop s) Hs) as [H1 H2].
    rewrite H1, H2. cbn. split; [lia | done].
Qed.

(** C9, as amended.  While the interval timer is registered, every timer
    fire begins a call of [monitoringLoop], however many calls are still in
    flight: after [start] and [n] timer fires during which no call settled,
    [n + 1] calls are in flight.  What is dropped is a second [start] while
    the service runs; [forceCheck] is rejected when it does not run, and
    begins one more call when it does. *)
Theorem timer_fire_begins_a_tick_regardless s :
  (Scheduler.monitoringInterval s = true ->
   Scheduler.inFlight (Scheduler.step s Scheduler.TimerFires) = S (Scheduler.inFlight s)) /\
  (Scheduler.isRunning s = true -> Scheduler.step s Scheduler.CallStart = s) /\
  (Scheduler.isRunning s = false ->
   Scheduler.inFlight (Scheduler.step s Scheduler.CallForceCheck) = Scheduler.inFlight s /\
   Scheduler.rejected (Scheduler.step s Scheduler.CallForceCheck) = S (Scheduler.rejected s)) /\
  (Scheduler.isRunning s = true ->
   Scheduler.inFlight (Scheduler.step s Scheduler.CallForceCheck) = S (Scheduler.inFlight s)) /\
  (forall n,
     Scheduler.inFlight
       (Scheduler.run Scheduler.initial
          (Scheduler.CallStart :: replicate n Scheduler.TimerFires)) = S n).
Proof.
  split; [|split; [|split; [|split]]].
  - cbn. by intros ->.
  - cbn. by intros ->.
  - cbn. by intros ->.
  - cbn. by intros ->.
  - intros n.
    change (Scheduler.run Scheduler.initial
              (Scheduler.CallStart :: replicate n Scheduler.TimerFires))
      with (Scheduler.run (Scheduler.step Scheduler.initial Scheduler.CallStart)
              (replicate n Scheduler.TimerFires)).
    by destruct (run_timer_fires (Scheduler.step Scheduler.initial Scheduler.CallStart) n eq_refl)
      as [-> _].
Qed.

Lemma timer_fire_begins_a_tick_regardless_witness :
  let s := Scheduler.run Scheduler.initial [Scheduler.CallStart] in
  Scheduler.inFlight (Scheduler.step s Scheduler.TimerFires) = S (Scheduler.inFlight s).
Proof.
  apply (proj1 (timer_fire_begins_a_tick_regardless
                  (Scheduler.run Scheduler.initial [Scheduler.CallStart]))).
  reflexivity.
Defined.

(** C9, as stated, fails: a timer fire that arrives while the call begun by
    [start] is still in flight is not dropped; two calls are then in flight. *)
Lemma timer_fire_overlaps_running_tick :
  let s := Scheduler.run Scheduler.initial [Scheduler.CallStart] in
  Scheduler.inFlight s = 1%nat /\
  Scheduler.step s Scheduler.TimerFires <> s /\
  ~ (Scheduler.inFlight (Scheduler.run Scheduler.initial
                           [Scheduler.CallStart; Scheduler.TimerFires]) <= 1)%nat.
Proof.
  cbv zeta. split; [reflexivity|]. split; [discriminate|]. cbn. lia.
Qed.

(** ** The listings of the gateway *)

Lemma elem_of_rowsOf t row :
  row ∈ rowsOf t <-> selectRow t (db_address row) = Some row.
Proof.
  unfold rowsOf, selectRow. rewrite list_elem_of_omap. split.
  - intros [[k r] [Hin Hf]]. apply elem_of_map_to_list in Hin. cbn in Hf.
    destruct (String.eqb (db_address r) k) eqn:E; [|discriminate].
    apply String.eqb_eq in E. injection Hf as ->. subst k.
    rewrite Hin, String.eqb_refl. reflexivity.
  - destruct (t !! db_address row) as [r|] eqn:E; [|discriminate].
    destruct (String.eqb (db_address r) (db_address row)) eqn:E2; [|discriminate].
    intros [= ->]. exists (db_address row, row). split.
    + apply elem_of_map_to_list. exact E.
    + cbn. rewrite String.eqb_refl. reflexivity.
Qed.

Lemma NoDup_rowsOf_address t : NoDup (map db_address (rowsOf t)).
Proof.
  unfold rowsOf.
  pose proof (NoDup_fst_map_to_list t) as Hnd.
  induction (map_to_list t) as [|[k r] l IH]; cbn in *; [constructor|].
  apply NoDup_cons in Hnd as [Hk Hnd].
  destruct (String.eqb (db_address r) k) eqn:E; [|auto].
  apply String.eqb_eq in E. cbn. apply NoDup_cons. split; [|auto].
  intros Hin. apply Hk. rewrite E in Hin. clear -Hin.
  induction l as [|[k' r'] l IH]; cbn in *; [inversion Hin|].
  destruct (String.eqb (db_address r') k') eqn:E'.
  - apply String.eqb_eq in E'. cbn in Hin. apply elem_of_cons in Hin as [->|Hin].
    + rewrite E'. apply elem_of_cons. left. reflexivity.
    + apply elem_of_cons. right. auto.
  - apply elem_of_cons. right. auto.
Qed.

#[global] Instance byAddress_trans : Transitive byAddress.
Proof. intros x y z. unfold byAddress. apply transitivity. Qed.

#[global] Instance byAddress_total : Total byAddress.
Proof. intros x y. unfold byAddress. apply String.le_total. Qed.

#[global] Instance byCounterDesc_trans : Transitive byCounterDesc.
Proof. intros x y z. unfold byCounterDesc. lia. Qed.

#[global] Instance byCounterDesc_total : Total byCounterDesc.
Proof. intros x y. unfold byCounterDesc. lia. Qed.

Lemma elem_of_selectAll t row :
  row ∈ selectAll t <-> selectRow t (db_address row) = Some row.
Proof.
  unfold selectAll. rewrite merge_sort_Permutation. apply elem_of_rowsOf.
Qed.

Lemma elem_of_selectWorkable t row :
  row ∈ selectWorkable t <->
  selectRow t (db_address row) = Some row /\ is_currently_workable row = 1.
Proof.
  unfold selectWorkable. rewrite merge_sort_Permutation.
  rewrite list_elem_of_In, List.filter_In, <- list_elem_of_In, elem_of_rowsOf, Z.eqb_eq.
  reflexivity.
Qed.

Lemma selectMany_returns env rows w jobs :
  fst (selectMany env rows w) = Ok jobs -> jobs = map jobInfoOfRow rows.
Proof.
  unfold selectMany, failing. run_monad.
  destruct (sql_select env (clock w)); cbn; congruence.
Qed.

Lemma getAllJobs_returns env w jobs :
  fst (getAllJobs env w) = Ok jobs ->
  exists t, db w = Some t /\ jobs = map jobInfoOfRow (selectAll t).
Proof.
  unfold getAllJobs. rewrite bind_run. cbn.
  destruct (db w) as [t|] eqn:Hdb; [|discriminate].
  rewrite try_catch_run.
  destruct (selectMany env (selectAll t) w) as [[js|e] w1] eqn:E; cbn.
  - intros [= <-]. exists t. split; [reflexivity|].
    apply (selectMany_returns env _ w). rewrite E. reflexivity.
  - discriminate.
Qed.

Lemma getWorkableJobs_returns env w jobs :
  fst (getWorkableJobs env w) = Ok jobs ->
  exists t, db w = Some t /\ jobs = map jobInfoOfRow (selectWorkable t).
Proof.
  unfold getWorkableJobs. rewrite bind_run. cbn.
  destruct (db w) as [t|] eqn:Hdb; [|discriminate].
  rewrite try_catch_run.
  destruct (selectMany env (selectWorkable t) w) as [[js|e] w1] eqn:E; cbn.
  - intros [= <-]. exists t. split; [reflexivity|].
    apply (selectMany_returns env _ w). rewrite E. reflexivity.
  - discriminate.
Qed.
Lemma preserves_failing R `{!Frame R} oracle : preserves R (failing oracle).
Proof. unfold failing. frame. Qed.

Lemma preserves_selectMany env R `{!Frame R} rows : preserves R (selectMany env rows).
Proof. unfold selectMany. frame. apply (preserves_failing R). Qed.

Lemma preserves_getAllJobs env R `{!Frame R} : preserves R (getAllJobs env).
Proof. unfold getAllJobs. frame. apply (preserves_selectMany env R). Qed.

(** X1.  When [getAllJobs] returns, its list holds exactly the records
    [getJob] would return, each once, in ascending order of address: a
    record is in the list under a non-empty address exactly when [getJob]
    returns it for that address; and the call changes neither the table
    nor the file. *)
Theorem getAllJobs_lists_each_record_once env w jobs :
  fst (getAllJobs env w) = Ok jobs ->
  StronglySorted String.le (map address jobs) /\
  NoDup (map address jobs) /\
  (forall a j, a <> "" -> (j ∈ jobs /\ address j = a) <-> stored w a = Some j) /\
  db (snd (getAllJobs env w)) = db w /\
  disk (snd (getAllJobs env w)) = disk w.
Proof.
  intros Hret. destruct (getAllJobs_returns env w jobs Hret) as (t & Hdb & ->).
  assert (Haddr : map address (map jobInfoOfRow (selectAll t)) = map db_address (selectAll t)).
  { rewrite map_map. reflexivity. }
  rewrite Haddr. split; [|split; [|split; [|split]]].
  - apply (StronglySorted_fmap db_address byAddress String.le); [auto|].
    apply StronglySorted_merge_sort; apply _.
  - unfold selectAll. rewrite merge_sort_Permutation. apply NoDup_rowsOf_address.
  - intros a j Ha. unfold stored. rewrite Hdb. split.
    + intros [Hin <-]. apply list_elem_of_fmap in Hin as (row & -> & Hrow).
      apply elem_of_selectAll in Hrow. cbn in *. rewrite Hrow. cbn.
      rewrite truthyString_nonempty by exact Ha. reflexivity.
    + destruct (selectRow t a) as [row|] eqn:Hrow; cbn; [|discriminate].
      pose proof (selectRow_address _ _ _ Hrow) as Hra.
      rewrite Hra, truthyString_nonempty by exact Ha. intros [= <-]. split.
      * apply list_elem_of_fmap. exists row. split; [reflexivity|].
        apply elem_of_selectAll. rewrite Hra. exact Hrow.
      * exact Hra.
  - apply (preserves_getAllJobs env (same db)).
  - apply (preserves_getAllJobs env (same disk)).
Qed.
Lemma getAllJobs_lists_each_record_once_witness :
  let jobs := [reread mockJob; reread idleLerp] in
  StronglySorted String.le (map address jobs) /\
  NoDup (map address jobs) /\
  (forall a j, a <> "" -> (j ∈ jobs /\ address j = a) <-> stored twoJobs a = Some j) /\
  db (snd (getAllJobs (calmEnv 0 false) twoJobs)) = db twoJobs /\
  disk (snd (getAllJobs (calmEnv 0 false) twoJobs)) = disk twoJobs.
Proof.
  apply (getAllJobs_lists_each_record_once (calmEnv 0 false) twoJobs).
  vm_compute. reflexivity.
Defined.
Lemma NoDup_selectWorkable_address t : NoDup (map db_address (selectWorkable t)).
Proof.
  unfold selectWorkable. rewrite merge_sort_Permutation.
  pose proof (NoDup_rowsOf_address t) as Hnd.
  induction (rowsOf t) as [|row rows IH]; cbn in *; [constructor|].
  apply NoDup_cons in Hnd as [Hrow Hnd].
  destruct (is_currently_workable row =? 1); [|auto].
  cbn. apply NoDup_cons. split; [|auto].
  intros Hin. apply Hrow. clear -Hin.
  apply list_elem_of_fmap in Hin as (r & -> & Hr).
  apply list_elem_of_fmap. exists r. split; [reflexivity|].
  apply list_elem_of_In, List.filter_In in Hr as [Hr _]. apply list_elem_of_In. exact Hr.
Qed.

(** X2.  When [getWorkableJobs] returns, every record in its list is
    workable, the counters do not increase along the list, no address occurs
    twice, and every listed record with a non-empty address is the one
    [getJob] returns; and when every row holds 0 or 1 in
    [is_currently_workable], every workable record [getJob] returns is
    listed. *)
Theorem getWorkableJobs_lists_workable_by_run env w jobs :
  fst (getWorkableJobs env w) = Ok jobs ->
  Forall (fun j => isCurrentlyWorkable j = true) jobs /\
  StronglySorted (fun c1 c2 => c2 <= c1) (map consecutiveWorkableBlocks jobs) /\
  NoDup (map address jobs) /\
  (forall a j, a <> "" -> j ∈ jobs -> address j = a -> stored w a = Some j) /\
  (booleanFlags w ->
   forall a j, a <> "" -> stored w a = Some j -> isCurrentlyWorkable j = true -> j ∈ jobs).
Proof.
  intros Hret. destruct (getWorkableJobs_returns env w jobs Hret) as (t & Hdb & ->).
  split; [|split; [|split; [|split]]].
  - apply Forall_forall. intros j Hin.
    apply list_elem_of_fmap in Hin as (row & -> & Hrow).
    apply elem_of_selectWorkable in Hrow as [_ Hflag]. cbn. rewrite Hflag. reflexivity.
  - rewrite map_map.
    apply (StronglySorted_fmap (fun row => consecutiveWorkableBlocks (jobInfoOfRow row))
             byCounterDesc (fun c1 c2 => c2 <= c1)); [auto|].
    apply StronglySorted_merge_sort; apply _.
  - rewrite map_map. apply NoDup_selectWorkable_address.
  - intros a j Ha Hin <-. apply list_elem_of_fmap in Hin as (row & -> & Hrow).
    apply elem_of_selectWorkable in Hrow as [Hrow _].
    unfold stored. rewrite Hdb. cbn in *. rewrite Hrow. cbn.
    rewrite truthyString_nonempty by exact Ha. reflexivity.
  - intros Hflags a j Ha. unfold stored. rewrite Hdb.
    destruct (selectRow t a) as [row|] eqn:Hrow; cbn; [|discriminate].
    pose proof (selectRow_address _ _ _ Hrow) as Hra.
    rewrite Hra, truthyString_nonempty by exact Ha. intros [= <-]. cbn.
    intros Hw. apply list_elem_of_fmap. exists row. split; [reflexivity|].
    apply elem_of_selectWorkable. rewrite Hra. split; [exact Hrow|].
    unfold selectRow in Hrow. destruct (t !! a) as [r|] eqn:Hl; [|discriminate].
    destruct (String.eqb (db_address r) a); [|discriminate]. injection Hrow as ->.
    destruct (Hflags t a row Hdb Hl) as [H0|H1]; [|exact H1].
    rewrite H0 in Hw. discriminate.
Qed.

Lemma getWorkableJobs_lists_workable_by_run_witness :
  let jobs := [reread mockJob] in
  Forall (fun j => isCurrentlyWorkable j = true) jobs /\
  StronglySorted (fun c1 c2 => c2 <= c1) (map consecutiveWorkableBlocks jobs) /\
  NoDup (map address jobs) /\
  (forall a j, a <> "" -> j ∈ jobs -> address j = a -> stored twoJobs a = Some j) /\
  (booleanFlags twoJobs ->
   forall a j, a <> "" -> stored twoJobs a = Some j -> isCurrentlyWorkable j = true -> j ∈ jobs).
Proof.
  apply (getWorkableJobs_lists_workable_by_run (calmEnv 0 false) twoJobs).
  vm_compute. reflexivity.
Defined.
Lemma initialize_returns env setup w b :
  fst (initialize env setup false w) = Ok b ->
  b = true /\
  db (snd (initialize env setup false w)) = Some (default ∅ (disk w)) /\
  disk (snd (initialize env setup false w)) = Some (default ∅ (disk w)).
Proof.
  unfold initialize, failing, save. run_monad.
  destruct (sql_init setup (clock w)); cbn; [discriminate|].
  destruct (sql_open setup (S (clock w))); cbn; [discriminate|].
  destruct (sql_exec setup (S (S (clock w)))); cbn; [discriminate|].
  destruct (fs_write env (S (S (S (clock w))))); cbn; [discriminate|].
  intros [= <-]. auto.
Qed.
(** ** Writing through to the file, deleting, restarting *)

Lemma upsertJob_written_through env jobInfo w :
  fst (upsertJob env jobInfo w) = Ok tt ->
  disk (snd (upsertJob env jobInfo w)) = db (snd (upsertJob env jobInfo w)).
Proof.
  unfold upsertJob, run, save. run_monad.
  destruct (db w) as [t|] eqn:Hdb; cbn; [|discriminate].
  rewrite Hdb. cbn.
  destruct (sql_run env (clock w)); cbn; [discriminate|].
  destruct (fs_write env (S (clock w))); cbn; [discriminate|]. reflexivity.
Qed.

Lemma stored_ext w w' : db w' = db w -> forall a, stored w' a = stored w a.
Proof. intros H a. unfold stored. rewrite H. reflexivity. Qed.

Lemma stored_insert_ne w w' t (row : DatabaseJob) a :
  db w = Some t -> db w' = Some (<[db_address row := row]> t) ->
  a <> db_address row -> stored w' a = stored w a.
Proof.
  intros Hw Hw' Ha. unfold stored. rewrite Hw, Hw'.
  rewrite selectRow_insert_ne by congruence. reflexivity.
Qed.

(** X3.  When [upsertJob] returns, the record of every other address reads
    as before, the file holds the table it wrote, and the record is read
    back after a restart: a new process that initializes its gateway from
    the file reads every record as it was. *)
Theorem upsertJob_touches_one_record_and_survives_restart env setup j w :
  fst (upsertJob env j w) = Ok tt ->
  let w' := snd (upsertJob env j w) in
  (forall a, a <> address j -> stored w' a = stored w a) /\
  disk w' = db w' /\
  (forall isInitialized,
     fst (initialize env setup false (restarted w')) = Ok isInitialized ->
     isInitialized = true /\
     forall a, stored (snd (initialize env setup false (restarted w'))) a = stored w' a).
Proof.
  intros Hret w'. destruct (upsertJob_returns env j w Hret) as (t & Hdb & Hdb').
  pose proof (upsertJob_written_through env j w Hret) as Hdisk.
  fold w' in Hdb', Hdisk. split; [|split].
  - intros a Ha. apply (stored_insert_ne w w' t (params j) a); auto.
  - exact Hdisk.
  - intros b Hinit.
    destruct (initialize_returns env setup (restarted w') b Hinit) as (-> & Hdb2 & _).
    split; [reflexivity|]. apply stored_ext. rewrite Hdb2. cbn.
    rewrite Hdisk, Hdb'. reflexivity.
Qed.
Lemma upsertJob_touches_one_record_and_survives_restart_witness :
  let w := emptyWorld 0 [] in
  let w' := snd (upsertJob (calmEnv 0 false) mockJob w) in
  (forall a, a <> address mockJob -> stored w' a = stored w a) /\
  disk w' = db w' /\
  (forall isInitialized,
     fst (initialize (calmEnv 0 false) (calmSetup []) false (restarted w')) = Ok isInitialized ->
     isInitialized = true /\
     forall a, stored (snd (initialize (calmEnv 0 false) (calmSetup []) false (restarted w'))) a
               = stored w' a).
Proof.
  apply (upsertJob_touches_one_record_and_survives_restart
           (calmEnv 0 false) (calmSetup []) mockJob (emptyWorld 0 [])).
  vm_compute. reflexivity.
Defined.
Lemma deleteJob_returns env addr w :
  fst (deleteJob env addr w) = Ok tt ->
  exists t, db w = Some t /\
    db (snd (deleteJob env addr w)) = Some (delete addr t) /\
    disk (snd (deleteJob env addr w)) = Some (delete addr t).
Proof.
  unfold deleteJob, runDelete, failing, save. run_monad.
  destruct (db w) as [t|] eqn:Hdb; cbn; [|discriminate].
  rewrite Hdb. cbn.
  destruct (sql_run env (clock w)); cbn; [discriminate|].
  destruct (fs_write env (S (clock w))); cbn; [discriminate|].
  intros _. exists t. auto.
Qed.

Lemma selectRow_delete t addr : selectRow (delete addr t) addr = None.
Proof. unfold selectRow. rewrite lookup_delete_eq. reflexivity. Qed.

Lemma selectRow_delete_ne t addr a :
  a <> addr -> selectRow (delete addr t) a = selectRow t a.
Proof. intros H. unfold selectRow. rewrite lookup_delete_ne by congruence. reflexivity. Qed.

(** X4.  When [deleteJob] returns, [getJob] finds no record under the
    address, the record of every other address reads as before, the
    listing of [getAllJobs] has lost exactly the records of that address,
    and the file holds the table. *)
Theorem deleteJob_removes_one_record env addr w :
  fst (deleteJob env addr w) = Ok tt ->
  let w' := snd (deleteJob env addr w) in
  stored w' addr = None /\
  (forall a, a <> addr -> stored w' a = stored w a) /\
  (forall before after,
     fst (getAllJobs env w) = Ok before -> fst (getAllJobs env w') = Ok after ->
     forall j, j ∈ after <-> j ∈ before /\ address j <> addr) /\
  disk w' = db w'.
Proof.
  intros Hret w'. destruct (deleteJob_returns env addr w Hret) as (t & Hdb & Hdb' & Hdisk).
  fold w' in Hdb', Hdisk. split; [|split; [|split]].
  - unfold stored. rewrite Hdb', selectRow_delete. reflexivity.
  - intros a Ha. unfold stored. rewrite Hdb, Hdb', selectRow_delete_ne by exact Ha. reflexivity.
  - intros before after Hb Ha j.
    destruct (getAllJobs_returns env w before Hb) as (t1 & Ht1 & ->).
    destruct (getAllJobs_returns env w' after Ha) as (t2 & Ht2 & ->).
    assert (t1 = t) as -> by congruence.
    assert (t2 = delete addr t) as -> by congruence.
    rewrite !list_elem_of_fmap. split.
    + intros (row & -> & Hrow). apply elem_of_selectAll in Hrow. cbn.
      destruct (decide (db_address row = addr)) as [E|E].
      * rewrite E, selectRow_delete in Hrow. discriminate.
      * rewrite selectRow_delete_ne in Hrow by exact E. split; [|exact E].
        exists row. split; [reflexivity|]. apply elem_of_selectAll. exact Hrow.
    + intros [(row & -> & Hrow) Hne]. cbn in Hne. exists row. split; [reflexivity|].
      apply elem_of_selectAll in Hrow. apply elem_of_selectAll.
      rewrite selectRow_delete_ne by exact Hne. exact Hrow.
  - congruence.
Qed.

Lemma deleteJob_removes_one_record_witness :
  let w' := snd (deleteJob (calmEnv 0 false) lerp twoJobs) in
  stored w' lerp = None /\
  (forall a, a <> lerp -> stored w' a = stored twoJobs a) /\
  (forall before after,
     fst (getAllJobs (calmEnv 0 false) twoJobs) = Ok before ->
     fst (getAllJobs (calmEnv 0 false) w') = Ok after ->
     forall j, j ∈ after <-> j ∈ before /\ address j <> lerp) /\
  disk w' = db w'.
Proof.
  apply (deleteJob_removes_one_record (calmEnv 0 false) lerp twoJobs).
  vm_compute. reflexivity.
Defined.

Lemma close_returns env setup w t :
  db w = Some t -> fst (close env setup w) = Ok tt ->
  db (snd (close env setup w)) = Some t /\ disk (snd (close env setup w)) = Some t.
Proof.
  intros Hdb. unfold close, failing, save. run_monad. rewrite Hdb. cbn. rewrite Hdb. cbn.
  destruct (fs_write env (clock w)); cbn; [discriminate|].
  destruct (sql_close setup (S (clock w))); cbn; [discriminate|]. auto.
Qed.

(** X5.  When [close] returns on an initialized gateway, the file holds
    the table as it is in memory, whatever the file held before (a write
    to the file that failed earlier is made up for); and a new process that
    initializes its gateway from the file then has that table.  A second
    [initialize] changes nothing. *)
Theorem close_then_restart_restores_the_table env setup w t :
  db w = Some t ->
  fst (close env setup w) = Ok tt ->
  let w1 := snd (close env setup w) in
  disk w1 = Some t /\
  (forall isInitialized,
     fst (initialize env setup false (restarted w1)) = Ok isInitialized ->
     let w2 := snd (initialize env setup false (restarted w1)) in
     isInitialized = true /\ db w2 = Some t /\ disk w2 = Some t /\
     initialize env setup isInitialized w2 = (Ok true, w2)).
Proof.
  intros Hdb Hret w1. destruct (close_returns env setup w t Hdb Hret) as [_ Hdisk].
  fold w1 in Hdisk. split; [exact Hdisk|]. intros b Hinit w2.
  destruct (initialize_returns env setup (restarted w1) b Hinit) as (-> & Hdb2 & Hdisk2).
  fold w2 in Hdb2, Hdisk2. cbn in Hdb2, Hdisk2. rewrite Hdisk in Hdb2, Hdisk2. cbn in *.
  auto.
Qed.

Lemma close_then_restart_restores_the_table_witness :
  let t := <[lerp := params idleLerp]> {[ autoLine := params mockJob ]} in
  let w1 := snd (close (calmEnv 0 false) (calmSetup []) twoJobs) in
  disk w1 = Some t /\
  (forall isInitialized,
     fst (initialize (calmEnv 0 false) (calmSetup []) false (restarted w1)) = Ok isInitialized ->
     let w2 := snd (initialize (calmEnv 0 false) (calmSetup []) false (restarted w1)) in
     isInitialized = true /\ db w2 = Some t /\ disk w2 = Some t /\
     initialize (calmEnv 0 false) (calmSetup []) isInitialized w2 = (Ok true, w2)).
Proof.
  apply (close_then_restart_restores_the_table (calmEnv 0 false) (calmSetup []) twoJobs
           (<[lerp := params idleLerp]> {[ autoLine := params mockJob ]}));
    vm_compute; reflexivity.
Defined.

(** ** What a whole tick keeps *)

Section TickFrames.
Context (env : Env) (config : MonitoringConfig).
Context (R : relation World) `{!Frame R}.
Hypothesis upsert_kept : forall j, preserves R (upsertJob env j).
Hypothesis events_kept : forall e, allows R e.

Lemma preserves_processBlock_any b : preserves R (processBlock env config b).
Proof.
  unfold processBlock. frame.
  - by apply preserves_checkMultipleJobsWorkable_any.
  - by apply preserves_processJobStatus_with.
Qed.

Lemma preserves_processBlockWithRetry_any b :
  preserves R (processBlockWithRetry env config b).
Proof. apply preserves_retryLoop; auto using preserves_processBlock_any. Qed.

Lemma preserves_scanBlocks_any blocks sp : preserves R (scanBlocks env config blocks sp).
Proof.
  revert sp. induction blocks as [|b blocks IH]; intros sp; cbn.
  - frame.
  - apply (preserves_bind R); [|intros sp'; apply IH].
    apply (preserves_try_catch R); [|intros; frame].
    apply (preserves_bind R); [|intros; frame].
    apply preserves_processBlockWithRetry_any.
Qed.

Lemma preserves_monitoringLoop_any :
  (forall b w, R w (set_lastProcessedBlock b w)) ->
  preserves R (monitoringLoop env config).
Proof.
  intros Hcursor. unfold monitoringLoop.
  apply (preserves_try_catch R); [|intros; frame].
  apply (preserves_bind R); [by apply preserves_getLatestBlock|]. intros H.
  apply (preserves_bind R); [frame|]. intros w0.
  destruct (H <=? lastProcessedBlock w0); [frame|]. cbv zeta.
  apply (preserves_bind R); [frame|]. intros _.
  apply (preserves_bind R); [apply preserves_scanBlocks_any|]. intros sp.
  apply (preserves_bind R); [frame|]. intros _.
  apply (preserves_bind R); [|intros; frame].
  destruct (_ <? _); frame.
Qed.

End TickFrames.

#[global] Instance keeps_preorder (I : World -> Prop) : PreOrder (keeps I).
Proof.
  split.
  - intros w H. exact H.
  - intros a b c Hab Hbc H. auto.
Qed.

Lemma keeps_db_frame (I : World -> Prop) :
  (forall w w', db w' = db w -> I w -> I w') -> Frame (keeps I).
Proof.
  intros Hext. split; [apply _| |]; intros; unfold keeps; apply Hext; reflexivity.
Qed.

Lemma booleanFlags_ext w w' : db w' = db w -> booleanFlags w -> booleanFlags w'.
Proof. intros Hdb H t k row Ht. rewrite Hdb in Ht. eauto. Qed.

#[global] Instance keeps_booleanFlags_frame : Frame (keeps booleanFlags).
Proof. apply keeps_db_frame. exact booleanFlags_ext. Qed.

Lemma upsertJob_db_cases env jobInfo w :
  db (snd (upsertJob env jobInfo w)) = db w \/
  exists t, db w = Some t /\
    db (snd (upsertJob env jobInfo w)) = Some (<[address jobInfo := params jobInfo]> t).
Proof.
  destruct (db w) as [t|] eqn:Hdb.
  - destruct (sql_run env (clock w)) as [e|] eqn:Hrun.
    + left. rewrite <- Hdb. apply (upsertJob_run_fails env jobInfo w t e Hdb Hrun).
    + right. exists t. split; [reflexivity|]. by apply upsertJob_db.
  - left. unfold upsertJob. run_monad. rewrite Hdb. cbn. exact Hdb.
Qed.

Lemma upsertJob_keeps_booleanFlags env jobInfo :
  preserves (keeps booleanFlags) (upsertJob env jobInfo).
Proof.
  intros w Hflags.
  destruct (upsertJob_db_cases env jobInfo w) as [Hsame|(t & Hdb & Hdb')].
  - by apply (booleanFlags_ext w).
  - intros t' k row Ht' Hk. rewrite Hdb' in Ht'. injection Ht' as <-.
    destruct (decide (k = address jobInfo)) as [->|Hne].
    + rewrite lookup_insert_eq in Hk. injection Hk as <-. cbn.
      destruct (isCurrentlyWorkable jobInfo); auto.
    + rewrite lookup_insert_ne in Hk by congruence. eauto.
Qed.
Lemma booleanFlags_selectRow w t a row :
  booleanFlags w -> db w = Some t -> selectRow t a = Some row ->
  is_currently_workable row = 0 \/ is_currently_workable row = 1.
Proof.
  intros Hflags Hdb. unfold selectRow.
  destruct (t !! a) as [r|] eqn:Hl; [|discriminate].
  destruct (String.eqb (db_address r) a); [|discriminate]. intros [= <-]. eauto.
Qed.

Lemma workable_listing_exact env w jobs :
  booleanFlags w -> fst (getWorkableJobs env w) = Ok jobs ->
  forall a j, a <> "" ->
    (j ∈ jobs /\ address j = a) <-> (stored w a = Some j /\ isCurrentlyWorkable j = true).
Proof.
  intros Hflags Hret a j Ha.
  destruct (getWorkableJobs_returns env w jobs Hret) as (t & Hdb & ->).
  unfold stored. rewrite Hdb, list_elem_of_fmap. split.
  - intros [(row & -> & Hrow) <-]. apply elem_of_selectWorkable in Hrow as [Hrow Hflag].
    cbn in *. rewrite Hrow. cbn. rewrite truthyString_nonempty by exact Ha.
    rewrite Hflag. auto.
  - destruct (selectRow t a) as [row|] eqn:Hrow; cbn; [|intros [? _]; discriminate].
    pose proof (selectRow_address _ _ _ Hrow) as Hra.
    rewrite Hra, truthyString_nonempty by exact Ha. intros [[= <-] Hw]. cbn in *.
    split; [|exact Hra]. exists row. split; [reflexivity|].
    apply elem_of_selectWorkable. rewrite Hra. split; [exact Hrow|].
    destruct (booleanFlags_selectRow w t a row Hflags Hdb Hrow) as [H0|H1]; [|exact H1].
    rewrite H0 in Hw. discriminate.
Qed.

Lemma monitoringLoop_keeps_booleanFlags env config :
  preserves (keeps booleanFlags) (monitoringLoop env config).
Proof.
  apply (preserves_monitoringLoop_any env config (keeps booleanFlags)).
  - apply upsertJob_keeps_booleanFlags.
  - intros e w H. by apply (booleanFlags_ext w).
  - intros b w H. by apply (booleanFlags_ext w).
Qed.

Lemma booleanFlags_empty cursor jobs : booleanFlags (emptyWorld cursor jobs).
Proof. intros t k row [= <-] Hk. rewrite lookup_empty in Hk. discriminate. Qed.

(** X6.  In the tables this code writes, [is_currently_workable] is 0 or 1:
    a tick keeps that, whatever the collaborators answer.  So after any
    tick from such a table the filter [is_currently_workable = 1] of
    [getWorkableJobs] agrees with the [Boolean(...)] of [getJob]: a record
    with a non-empty address is listed exactly when [getJob] returns it and
    it is workable. *)
Theorem tick_keeps_flags_boolean env config w :
  booleanFlags w ->
  let w' := snd (monitoringLoop env config w) in
  booleanFlags w' /\
  (forall jobs a j,
     fst (getWorkableJobs env w') = Ok jobs -> a <> "" ->
     (j ∈ jobs /\ address j = a) <-> (stored w' a = Some j /\ isCurrentlyWorkable j = true)).
Proof.
  intros Hflags w'.
  assert (Hflags' : booleanFlags w') by (by apply monitoringLoop_keeps_booleanFlags).
  split; [exact Hflags'|]. intros jobs a j Hret Ha.
  by apply (workable_listing_exact env w' jobs).
Qed.

Lemma tick_keeps_flags_boolean_witness :
  let w' := snd (monitoringLoop (calmEnv 112 true) testConfig (emptyWorld 110 [autoLine])) in
  booleanFlags w' /\
  (forall jobs a j,
     fst (getWorkableJobs (calmEnv 112 true) w') = Ok jobs -> a <> "" ->
     (j ∈ jobs /\ address j = a) <-> (stored w' a = Some j /\ isCurrentlyWorkable j = true)).
Proof.
  apply (tick_keeps_flags_boolean (calmEnv 112 true) testConfig (emptyWorld 110 [autoLine])).
  apply booleanFlags_empty.
Defined.

(** ** The cursor *)

Lemma getLatestBlock_throws env w :
  (forall H, rpc_latest env (clock w) <> Ok (Some H)) ->
  exists e, getLatestBlock env w = (Throw e, emit (EvLog ERROR "RPC call failed") (tick (emit EvHeadQuery w))).
Proof.
  intros Hno. unfold getLatestBlock, rpcError. run_monad.
  destruct (rpc_latest env (clock w)) as [[H|]|e] eqn:E; cbn.
  - exfalso. by apply (Hno H).
  - eauto.
  - eauto.
Qed.

Lemma monitoringLoop_without_head env config w :
  (forall H, rpc_latest env (clock w) <> Ok (Some H)) ->
  monitoringLoop env config w =
  (Ok tt, emit (EvLog ERROR "Error in monitoring loop")
            (emit (EvLog ERROR "RPC call failed") (tick (emit EvHeadQuery w)))).
Proof.
  intros Hno. destruct (getLatestBlock_throws env w Hno) as [e He].
  unfold monitoringLoop. rewrite try_catch_run, bind_run, He. reflexivity.
Qed.

Lemma monitoringLoop_keeps_jobAddresses env config :
  preserves (same jobAddresses) (monitoringLoop env config).
Proof.
  apply (preserves_monitoringLoop_any env config (same jobAddresses)).
  - intros j. by apply (preserves_upsertJob env (same jobAddresses)).
  - by intros e w.
  - by intros b w.
Qed.

(** X7.  A tick never throws; it never moves the cursor back; when it
    moves the cursor, the node had answered the head query with a block and
    the cursor stops at or before that block; and it leaves the list of job
    addresses as it was.  This holds whatever the collaborators answer and
    for every configuration. *)
Theorem tick_never_moves_the_cursor_back env config w :
  let L := lastProcessedBlock w in
  let w' := snd (monitoringLoop env config w) in
  fst (monitoringLoop env config w) = Ok tt /\
  L <= lastProcessedBlock w' /\
  (lastProcessedBlock w' = L \/
   exists H, rpc_latest env (clock w) = Ok (Some H) /\ lastProcessedBlock w' <= H) /\
  jobAddresses w' = jobAddresses w.
Proof.
  intros L w'.
  assert (Hjobs : jobAddresses w' = jobAddresses w)
    by apply monitoringLoop_keeps_jobAddresses.
  cut (fst (monitoringLoop env config w) = Ok tt /\
       L <= lastProcessedBlock w' /\
       (lastProcessedBlock w' = L \/
        exists H, rpc_latest env (clock w) = Ok (Some H) /\ lastProcessedBlock w' <= H)).
  { intros (H1 & H2 & H3). auto. }
  clear Hjobs. subst w'.
  destruct (rpc_latest env (clock w)) as [[H|]|e] eqn:E.
  - pose proof (monitoringLoop_run env config w H E) as Hrun. cbv zeta in Hrun.
    fold L in Hrun. rewrite Hrun.
    destruct (H <=? L) eqn:HL; cbn.
    + split; [reflexivity|]. split; [lia|]. by left.
    + apply Z.leb_gt in HL.
      set (window := Z.min (H - L) (maxBlocksPerQuery config)).
      assert (Hlast : L <= List.last (seqZ (L + 1) window) L <= H).
      { destruct (decide (0 < window)) as [Hpos|Hneg].
        - rewrite last_seqZ by exact Hpos. lia.
        - rewrite seqZ_nil by lia. cbn. lia. }
      split; [reflexivity|].
      destruct (L + window <? H); cbn; (split; [lia|]); right; exists H; (split; [reflexivity|lia]).
  - rewrite monitoringLoop_without_head by (rewrite E; congruence). cbn.
    split; [reflexivity|]. split; [lia|]. by left.
  - rewrite monitoringLoop_without_head by (rewrite E; congruence). cbn.
    split; [reflexivity|]. split; [lia|]. by left.
Qed.

Lemma monitoringLoop_cursor env config w H :
  rpc_latest env (clock w) = Ok (Some H) ->
  0 < maxBlocksPerQuery config ->
  monitoringLoop env config w = (Ok tt, snd (monitoringLoop env config w)) /\
  lastProcessedBlock (snd (monitoringLoop env config w)) =
  Z.max (lastProcessedBlock w)
        (Z.min H (lastProcessedBlock w + maxBlocksPerQuery config)).
Proof.
  intros E HC. pose proof (monitoringLoop_run env config w H E) as Hrun. cbv zeta in Hrun.
  rewrite Hrun. set (L := lastProcessedBlock w).
  destruct (H <=? L) eqn:HL; cbn.
  - apply Z.leb_le in HL. split; [reflexivity|]. fold L. lia.
  - apply Z.leb_gt in HL. split; [reflexivity|].
    set (window := Z.min (H - L) (maxBlocksPerQuery config)).
    assert (Hlast : List.last (seqZ (L + 1) window) L = L + window).
    { rewrite last_seqZ by lia. lia. }
    destruct (L + window <? H); cbn; rewrite Hlast; lia.
Qed.

(** X8.  Catching up.  With a positive [maxBlocksPerQuery] and a node that
    answers the head query of each of [n] ticks with block [H], the [n]
    ticks run one after the other never throw and leave the cursor at
    [min(H, L + n * maxBlocksPerQuery)] from a cursor [L <= H]: each tick
    advances by a full window until the head is reached, and the cursor
    then stays there. *)
Theorem ticks_catch_up_window_by_window env config w H n :
  0 < maxBlocksPerQuery config ->
  (forall k, (k < n)%nat ->
     rpc_latest env (clock (snd (ticks env config k w))) = Ok (Some H)) ->
  lastProcessedBlock w <= H ->
  fst (ticks env config n w) = Ok tt /\
  lastProcessedBlock (snd (ticks env config n w)) =
  Z.min H (lastProcessedBlock w + Z.of_nat n * maxBlocksPerQuery config).
Proof.
  intros HC. revert w. induction n as [|n IH]; intros w Hhead HL.
  - cbn. split; [reflexivity|]. lia.
  - destruct (monitoringLoop_cursor env config w H (Hhead O ltac:(lia)) HC) as [Hrun Hcur].
    cbn [ticks]. rewrite bind_run, Hrun.
    set (w1 := snd (monitoringLoop env config w)) in *.
    destruct (IH w1) as [Hok Hcur']; [|lia|].
    + intros k Hk. specialize (Hhead (S k) ltac:(lia)).
      cbn [ticks] in Hhead. rewrite bind_run, Hrun in Hhead. exact Hhead.
    + split; [exact Hok|]. rewrite Hcur', Hcur. lia.
Qed.

Lemma ticks_catch_up_window_by_window_witness :
  fst (ticks (calmEnv 350 false) testConfig 3 (emptyWorld 100 [autoLine])) = Ok tt /\
  lastProcessedBlock (snd (ticks (calmEnv 350 false) testConfig 3 (emptyWorld 100 [autoLine]))) =
  Z.min 350 (lastProcessedBlock (emptyWorld 100 [autoLine])
             + Z.of_nat 3 * maxBlocksPerQuery testConfig).
Proof.
  apply (ticks_catch_up_window_by_window (calmEnv 350 false) testConfig
           (emptyWorld 100 [autoLine]) 350 3).
  - reflexivity.
  - intros k Hk. reflexivity.
  - cbn. lia.
Defined.

(** ** One job at a time *)

Section Isolation.
Context (env : Env) (config : MonitoringConfig).

Lemma processJobStatus_db_cases jobStatus b w :
  let w' := snd (processJobStatus env config jobStatus b w) in
  db w' = db w \/
  exists t row, db w = Some t /\ db_address row = st_address jobStatus /\
    db w' = Some (<[st_address jobStatus := row]> t).
Proof.
  intros w'. subst w'. unfold processJobStatus. rewrite try_catch_run, bind_run.
  pose proof (preserves_getJob env (same db) (st_address jobStatus) w) as Hdb0.
  pose proof (getJob_returns env (st_address jobStatus) w) as Hfound.
  destruct (getJob env (st_address jobStatus) w) as [[found|e] w0]; cbn in Hdb0, Hfound;
    [|left; exact Hdb0].
  rewrite (Hfound found eq_refl).
  fold (loadedOr w (st_address jobStatus) b).
  set (loaded := loadedOr w (st_address jobStatus) b).
  cbv zeta. rewrite bind_run.
  fold (trackerBranch env config (isWorkableStatus jobStatus) (isCurrentlyWorkable loaded)
          (set_lastCheckedBlock b (set_isCurrentlyWorkable (isWorkableStatus jobStatus) loaded)) b).
  pose proof (trackerBranch_result env config loaded (isWorkableStatus jobStatus) b w0) as Hres.
  pose proof (trackerBranch_preserves env config (same db) (isWorkableStatus jobStatus)
                (isCurrentlyWorkable loaded)
                (set_lastCheckedBlock b (set_isCurrentlyWorkable (isWorkableStatus jobStatus) loaded))
                b (fun a => same_db_allows _) (fun a => same_db_allows _) w0) as Hdb1.
  destruct (trackerBranch _ _ _ _ _ b w0) as [[j1|e] w1]; cbn in Hres, Hdb1; [|discriminate].
  injection Hres as ->. unfold same in Hdb0, Hdb1. rewrite bind_run.
  match goal with |- context [upsertJob env ?j w1] =>
    pose proof (upsertJob_db_cases env j w1) as Hup;
    assert (Haddr : address j = st_address jobStatus)
      by (rewrite address_nextJobInfo; apply address_loadedOr);
    destruct (upsertJob env j w1) as [[[]|e] w2]
  end; cbn in Hup |- *.
  - destruct Hup as [Hsame|(t & Ht & Hins)].
    + left. congruence.
    + right. exists t. eexists. rewrite Haddr in Hins.
      split; [congruence|]. split; [|exact Hins]. exact Haddr.
  - destruct Hup as [Hsame|(t & Ht & Hins)].
    + left. congruence.
    + right. exists t. eexists. rewrite Haddr in Hins.
      split; [congruence|]. split; [|exact Hins]. exact Haddr.
Qed.

Lemma processJobStatus_others jobStatus b w a :
  a <> st_address jobStatus ->
  stored (snd (processJobStatus env config jobStatus b w)) a = stored w a.
Proof.
  intros Ha. destruct (processJobStatus_db_cases jobStatus b w) as [Hsame|(t & row & Ht & Hrow & Hins)].
  - by apply stored_ext.
  - rewrite <- Hrow in Hins. apply (stored_insert_ne w _ t row a Ht Hins). congruence.
Qed.

Lemma processJobStatuses_others statuses b w a :
  a ∉ map st_address statuses ->
  stored (snd (forEach (fun jobStatus => processJobStatus env config jobStatus b) statuses w)) a
  = stored w a.
Proof.
  revert w. induction statuses as [|st rest IH]; intros w Ha; [reflexivity|].
  rewrite forEach_cons by apply processJobStatus_returns.
  cbn in Ha. apply not_elem_of_cons in Ha as [Hne Hrest].
  rewrite IH by exact Hrest. by apply processJobStatus_others.
Qed.

End Isolation.

(** X9.  [processJobStatus] reads and writes the record of its own job
    only: whatever the collaborators answer, the record of every other
    address reads after the call as it did before; and so does every
    record whose address is not in the list when [forEach] runs it over a
    list of statuses. *)
Theorem processJobStatus_touches_one_record env config b :
  (forall jobStatus w a,
     a <> st_address jobStatus ->
     stored (snd (processJobStatus env config jobStatus b w)) a = stored w a) /\
  (forall statuses w a,
     a ∉ map st_address statuses ->
     stored (snd (forEach (fun jobStatus => processJobStatus env config jobStatus b) statuses w)) a
     = stored w a).
Proof.
  split; intros; [by apply processJobStatus_others | by apply processJobStatuses_others].
Qed.
(** ** Every job of the list, at every block *)

Lemma checkJobWorkable_address env a b w v :
  fst (checkJobWorkable env a b w) = Ok v -> st_address v = a.
Proof.
  unfold checkJobWorkable. rewrite try_catch_run.
  match goal with |- context [match ?m w with _ => _ end] =>
    assert (Hbody : forall v0, fst (m w) = Ok v0 -> st_address v0 = a);
    [|destruct (m w) as [[v0|e] w1]; cbn in Hbody |- *]
  end.
  - intros v0. unfold getLatestBlock, rpcError. run_monad.
    destruct (rpc_workable env (clock w) a (overridesOf b)) as [x|e]; cbn; [|discriminate].
    destruct (b =? 0); cbn; [|by intros [= <-]].
    destruct (rpc_latest env (S (clock w))) as [[n|]|e]; cbn; try discriminate.
    by intros [= <-].
  - intros [= <-]. by apply Hbody.
  - unfold rpcError. run_monad.
    destruct (rateLimitSignature (messageOr "Unknown error" e)); cbn; [discriminate|].
    by intros [= <-].
Qed.

Lemma allSettled_checks_addresses env b addrs w results :
  fst (allSettled (map (fun a => checkJobWorkable env a b) addrs) w) = Ok results ->
  map st_address (zip_with (statusOfSettled b) addrs results) = addrs.
Proof.
  revert w results. induction addrs as [|a addrs IH]; intros w results; cbn [map allSettled].
  - unfold ret. cbn. by intros [= <-].
  - pose proof (checkJobWorkable_address env a b w) as Ha.
    destruct (checkJobWorkable env a b w) as [r w1]; cbn in Ha. rewrite bind_run.
    specialize (IH w1).
    destruct (allSettled _ w1) as [[rs|e] w2]; cbn in IH |- *; [|discriminate].
    intros [= <-]. cbn. f_equal; [|by apply IH].
    destruct r as [v|e]; cbn; [by apply Ha|reflexivity].
Qed.

Lemma checkMultipleJobsWorkable_addresses env addrs b w statuses :
  fst (checkMultipleJobsWorkable env addrs b w) = Ok statuses ->
  map st_address statuses = addrs.
Proof.
  unfold checkMultipleJobsWorkable. rewrite bind_run.
  pose proof (allSettled_checks_addresses env b addrs w) as Hall.
  destruct (allSettled _ w) as [[results|e] w1]; cbn in Hall |- *; [|discriminate].
  destruct (List.filter isRateLimitingRejection results) as [|[v|e] rest]; cbn;
    try discriminate; intros [= <-]; by apply Hall.
Qed.

Lemma lastCheckedBlock_nextJobInfo config loaded isWorkable worked b :
  lastCheckedBlock (nextJobInfo config loaded isWorkable worked b) = b.
Proof.
  unfold nextJobInfo, counted. destruct isWorkable; cbn.
  - destruct (alertDue _ _ _); destruct (isCurrentlyWorkable loaded); reflexivity.
  - destruct (isCurrentlyWorkable loaded && worked); reflexivity.
Qed.

Section EveryJob.
Context (env : Env) (config : MonitoringConfig).
Hypothesis Hstore : store_ok env.

Lemma processJobStatus_checked jobStatus b w t :
  db w = Some t -> st_address jobStatus <> "" ->
  let w' := snd (processJobStatus env config jobStatus b w) in
  (exists t', db w' = Some t') /\
  exists j, stored w' (st_address jobStatus) = Some j /\ lastCheckedBlock j = b.
Proof.
  intros Hdb Ha w'. pose proof (processJobStatus_db env config jobStatus b w t Hstore Hdb) as Hdb'.
  fold w' in Hdb'. split; [eauto|]. eexists. split.
  - apply (stored_after_insert_at w' t _ (st_address jobStatus) Hdb'); [|exact Ha].
    rewrite address_nextJobInfo. apply address_loadedOr.
  - cbn. apply lastCheckedBlock_nextJobInfo.
Qed.

Lemma processJobStatus_keeps_db_some jobStatus b w t :
  db w = Some t -> exists t', db (snd (processJobStatus env config jobStatus b w)) = Some t'.
Proof. intros Hdb. rewrite (processJobStatus_db env config jobStatus b w t Hstore Hdb). eauto. Qed.

Lemma processJobStatuses_checked statuses b w t a :
  db w = Some t -> a ∈ map st_address statuses -> a <> "" ->
  exists j,
    stored (snd (forEach (fun jobStatus => processJobStatus env config jobStatus b) statuses w)) a
    = Some j /\ lastCheckedBlock j = b.
Proof.
  revert w t. induction statuses as [|st rest IH]; intros w t Hdb Hin Ha; [by inversion Hin|].
  rewrite forEach_cons by apply processJobStatus_returns.
  destruct (processJobStatus_keeps_db_some st b w t Hdb) as [t' Hdb'].
  destruct (decide (a ∈ map st_address rest)) as [Hrest|Hrest].
  - by apply (IH _ t').
  - cbn in Hin. apply elem_of_cons in Hin as [->|Hin]; [|contradiction].
    rewrite (processJobStatuses_others env config) by exact Hrest.
    by apply (processJobStatus_checked st b w t).
Qed.

End EveryJob.
Lemma processBlock_returns env config b w :
  fst (processBlock env config b w) = Ok tt ->
  exists statuses w1,
    checkMultipleJobsWorkable env (jobAddresses w) b w = (Ok statuses, w1) /\
    db w1 = db w /\
    snd (processBlock env config b w) =
    snd (forEach (fun jobStatus => processJobStatus env config jobStatus b) statuses w1).
Proof.
  unfold processBlock. rewrite try_catch_run, bind_run. cbn.
  rewrite bind_run.
  pose proof (preserves_checkMultipleJobsWorkable_any env (same db) (jobAddresses w) b
                same_db_allows w) as Hdb.
  destruct (checkMultipleJobsWorkable env (jobAddresses w) b w) as [[statuses|e] w1];
    cbn in Hdb |- *; [|discriminate].
  intros _. exists statuses, w1. split; [reflexivity|]. split; [exact Hdb|].
  pose proof (forEach_returns (fun jobStatus => processJobStatus env config jobStatus b)
                statuses w1 (fun st w0 => processJobStatus_returns env config st b w0)) as Hok.
  destruct (forEach _ statuses w1) as [[[]|e] w2]; cbn in Hok; [reflexivity|discriminate].
Qed.

(** X10.  With a store that answers: when [processBlock] returns for block
    [b], every job of [jobAddresses] with a non-empty address has a record
    whose [lastCheckedBlock] is [b], and the record of every address not in
    the list reads as before. *)
Theorem processBlock_checks_every_job env config b w t :
  store_ok env -> db w = Some t ->
  fst (processBlock env config b w) = Ok tt ->
  let w' := snd (processBlock env config b w) in
  (forall a, a ∈ jobAddresses w -> a <> "" ->
     exists j, stored w' a = Some j /\ lastCheckedBlock j = b) /\
  (forall a, a ∉ jobAddresses w -> stored w' a = stored w a).
Proof.
  intros Hstore Hdb Hret w'.
  destruct (processBlock_returns env config b w Hret) as (statuses & w1 & Hbatch & Hdb1 & Hw').
  assert (Haddrs : map st_address statuses = jobAddresses w).
  { apply (checkMultipleJobsWorkable_addresses env _ b w). by rewrite Hbatch. }
  subst w'. rewrite Hw'. split.
  - intros a Hin Ha. apply (processJobStatuses_checked env config Hstore statuses b w1 t).
    + congruence.
    + by rewrite Haddrs.
    + exact Ha.
  - intros a Hin. rewrite (processJobStatuses_others env config) by (by rewrite Haddrs).
    by apply stored_ext.
Qed.

Lemma processBlock_checks_every_job_witness :
  let w := emptyWorld 109 [autoLine; lerp] in
  let w' := snd (processBlock (revertingEnv lerp) testConfig 110 w) in
  (forall a, a ∈ jobAddresses w -> a <> "" ->
     exists j, stored w' a = Some j /\ lastCheckedBlock j = 110) /\
  (forall a, a ∉ jobAddresses w -> stored w' a = stored w a).
Proof.
  apply (processBlock_checks_every_job (revertingEnv lerp) testConfig 110
           (emptyWorld 109 [autoLine; lerp]) ∅).
  - intros n. split; reflexivity.
  - reflexivity.
  - vm_compute. reflexivity.
Defined.

Lemma allSettled_settles {A} (ps : list (M A)) w :
  exists rs, fst (allSettled ps w) = Ok rs.
Proof.
  revert w. induction ps as [|p ps IH]; intros w; cbn; [by eexists|].
  destruct (p w) as [r w1]. rewrite bind_run.
  destruct (IH w1) as [rs Hrs]. destruct (allSettled ps w1) as [[rs'|e] w2]; cbn in *;
    [by eexists|discriminate].
Qed.
(** ** What the retry wrapper can throw *)

Lemma rateLimitSignature_isRateLimited m :
  rateLimitSignature m = true -> isRateLimited m = true.
Proof.
  unfold rateLimitSignature, isRateLimited. cbv zeta.
  rewrite !orb_true_iff. tauto.
Qed.

Lemma filter_head {A} (p : A -> bool) l x rest :
  List.filter p l = x :: rest -> p x = true.
Proof.
  intros H. assert (Hin : In x (List.filter p l)) by (rewrite H; by left).
  by apply List.filter_In in Hin as [_ Hp].
Qed.

Lemma checkMultipleJobsWorkable_throws env addrs b w e :
  fst (checkMultipleJobsWorkable env addrs b w) = Throw e ->
  exists m, e = JsError m /\ rateLimitSignature m = true.
Proof.
  unfold checkMultipleJobsWorkable. rewrite bind_run.
  pose proof (allSettled_settles (map (fun a => checkJobWorkable env a b) addrs) w) as [rs Hrs].
  destruct (allSettled _ w) as [[results|e0] w1]; cbn in Hrs |- *; [|discriminate].
  destruct (List.filter isRateLimitingRejection results) as [|[v|reason] rest] eqn:Hf; cbn;
    try discriminate.
  intros [= <-]. apply filter_head in Hf. destruct reason as [m|]; cbn in Hf; [|discriminate].
  eauto.
Qed.

Lemma processBlock_throws_rate_limited env config b w e w1 :
  processBlock env config b w = (Throw e, w1) -> isRateLimited (messageOr "" e) = true.
Proof.
  unfold processBlock. rewrite try_catch_run, bind_run. cbn. rewrite bind_run.
  pose proof (checkMultipleJobsWorkable_throws env (jobAddresses w) b w) as Hthrows.
  destruct (checkMultipleJobsWorkable env (jobAddresses w) b w) as [[statuses|e0] w0];
    cbn in Hthrows |- *.
  - pose proof (forEach_returns (fun jobStatus => processJobStatus env config jobStatus b)
                  statuses w0 (fun st w2 => processJobStatus_returns env config st b w2)) as Hok.
    destruct (forEach _ statuses w0) as [[[]|e1] w2]; cbn in Hok; [discriminate|discriminate].
  - intros [= <- _]. destruct (Hthrows e0 eq_refl) as (m & -> & Hm). cbn.
    by apply rateLimitSignature_isRateLimited.
Qed.

Lemma retryLoop_only_exhausts attemptBlock b retries remaining attempt w e w1 :
  (forall w e w1, attemptBlock b w = (Throw e, w1) -> isRateLimited (messageOr "" e) = true) ->
  retryLoop attemptBlock b retries remaining attempt w = (Throw e, w1) ->
  e = JsError (exhaustedMessage b retries).
Proof.
  intros Hat. revert attempt w. induction remaining as [|n IH]; intros attempt w; cbn.
  - unfold throw. by intros [= <- _].
  - rewrite try_catch_run, bind_record.
    destruct (attemptBlock b (emit (EvAttempt b attempt) w)) as [[[]|e0] w0] eqn:E; [discriminate|].
    rewrite bind_log, (Hat _ _ _ E). cbv zeta. rewrite bind_log, bind_record. apply IH.
Qed.
(** X11.  [processBlockWithRetry] over the real [processBlock], at a block
    other than 0: the only errors [processBlock] throws carry a rate-limit
    signature the wrapper retries on, so the wrapper never takes its branch
    for other errors.  When it throws, it throws the error that names the
    three attempts, after exactly three attempts and waits of 81, 243 and
    729 seconds, and the table and the file are as they were. *)
Theorem unit_is_given_up_only_after_three_attempts env config b w e w1 :
  b <> 0 ->
  processBlockWithRetry env config b w = (Throw e, w1) ->
  e = JsError (exhaustedMessage b 3) /\
  history retryEventOf w1 =
    history retryEventOf w ++
    [EvAttempt b 0; EvDelay 81000; EvAttempt b 1; EvDelay 243000;
     EvAttempt b 2; EvDelay 729000] /\
  db w1 = db w /\ disk w1 = disk w.
Proof.
  intros Hb Hrun.
  assert (He : e = JsError (exhaustedMessage b 3)).
  { apply (retryLoop_only_exhausts (processBlock env config) b 3 3 0 w e w1); [|exact Hrun].
    apply processBlock_throws_rate_limited. }
  split; [exact He|]. split; [|by apply (processBlockWithRetry_throws_store env config b w e)].
  pose proof (retryLoop_schedule (processBlock env config) b 3 3 0 w
                (processBlock_records_no_retry_event env config b Hb)) as Hs.
  cbv zeta in Hs. unfold processBlockWithRetry, processBlockWithRetryOn in Hrun.
  rewrite Hrun in Hs. cbn [fst snd] in Hs. destruct Hs as (n & Hn & Hhist & Hres).
  rewrite He in Hres. cbn [messageOr] in Hres.
  rewrite exhaustedMessage_rate_limited in Hres. destruct Hres as [-> _].
  rewrite Hhist. reflexivity.
Qed.

Lemma unit_is_given_up_only_after_three_attempts_witness :
  let w := emptyWorld 109 [autoLine] in
  let w1 := snd (processBlockWithRetry (rateLimitedEnv 112) testConfig 110 w) in
  JsError (exhaustedMessage 110 3) = JsError (exhaustedMessage 110 3) /\
  history retryEventOf w1 =
    history retryEventOf w ++
    [EvAttempt 110 0; EvDelay 81000; EvAttempt 110 1; EvDelay 243000;
     EvAttempt 110 2; EvDelay 729000] /\
  db w1 = db w /\ disk w1 = disk w.
Proof.
  apply (unit_is_given_up_only_after_three_attempts (rateLimitedEnv 112) testConfig 110
           (emptyWorld 109 [autoLine]) (JsError (exhaustedMessage 110 3))).
  - lia.
  - vm_compute. reflexivity.
Defined.

(** ** The block a job was last worked at *)

#[global] Instance adds_worked_frame Q : Frame (adds workedOf Q).
Proof. by apply adds_frame. Qed.

Section WorkedFacts.
Context (env : Env) (config : MonitoringConfig).

Local Abbreviation unasked := (adds workedOf (fun _ => False)).

Lemma whenNotWorkable_worked was jobInfo b w :
  history workedOf (snd (whenNotWorkable env was jobInfo b w)) =
  history workedOf w ++ (if was then [(address jobInfo, b)] else []).
Proof.
  unfold whenNotWorkable, checkWorkTransactionInBlock. destruct was; run_monad.
  - destruct (rpc_worked env (clock w) (address jobInfo) b); cbn;
      rewrite ?history_emit, history_tick, history_emit; cbn; by rewrite ?app_nil_r.
  - by rewrite app_nil_r.
Qed.

Lemma whenWorkable_worked was jobInfo b w :
  history workedOf (snd (whenWorkable env config was jobInfo b w)) = history workedOf w.
Proof.
  apply adds_nothing. apply (preserves_whenWorkable env config unasked).
  intros a. by apply adds_allows.
Qed.

Lemma processJobStatus_worked jobStatus b w t :
  store_ok env -> db w = Some t ->
  history workedOf (snd (processJobStatus env config jobStatus b w)) =
  history workedOf w ++
  (if isCurrentlyWorkable (loadedOr w (st_address jobStatus) b)
      && negb (isWorkableStatus jobStatus)
   then [(st_address jobStatus, b)] else []).
Proof.
  intros Hok Hdb. unfold processJobStatus.
  rewrite try_catch_run, bind_run.
  rewrite (getJob_ok env _ w t Hdb (proj1 (Hok _))).
  fold (loadedOr w (st_address jobStatus) b).
  set (loaded := loadedOr w (st_address jobStatus) b).
  cbv zeta. rewrite bind_run.
  assert (Ha : history workedOf
            (snd ((if isWorkableStatus jobStatus
                   then whenWorkable env config (isCurrentlyWorkable loaded)
                          (set_lastCheckedBlock b
                             (set_isCurrentlyWorkable (isWorkableStatus jobStatus) loaded)) b
                   else whenNotWorkable env (isCurrentlyWorkable loaded)
                          (set_lastCheckedBlock b
                             (set_isCurrentlyWorkable (isWorkableStatus jobStatus) loaded)) b)
                  (tick w))) =
          history workedOf w ++
          (if isCurrentlyWorkable loaded && negb (isWorkableStatus jobStatus)
           then [(st_address jobStatus, b)] else [])).
  { destruct (isWorkableStatus jobStatus).
    - rewrite whenWorkable_worked, history_tick, andb_false_r. by rewrite app_nil_r.
    - rewrite whenNotWorkable_worked, history_tick, andb_true_r. cbn.
      unfold loaded. by rewrite address_loadedOr. }
  match type of Ha with context [snd (?m (tick w))] =>
    destruct (m (tick w)) as [[j1|e] w1]
  end; cbn in Ha; rewrite <- Ha.
  - rewrite bind_run.
    assert (history workedOf (snd (upsertJob env j1 w1)) = history workedOf w1) as Hup.
    { apply adds_nothing. apply (preserves_upsertJob env unasked).
      - apply adds_writes_db.
      - apply adds_writes_disk. }
    destruct (upsertJob env j1 w1) as [[[]|e] w2]; cbn in *;
      rewrite history_emit; cbn; by rewrite app_nil_r.
  - cbn. rewrite history_emit. cbn. by rewrite app_nil_r.
Qed.

End WorkedFacts.
Lemma stored_lastWorkedBlock_nonzero w addr j :
  stored w addr = Some j -> lastWorkedBlock j <> Some 0.
Proof.
  unfold stored, jobOfResult. destruct (db w) as [t|]; [|discriminate].
  destruct (selectRow t addr) as [row|]; [|discriminate].
  destruct (Js.truthyString (db_address row)); [|discriminate].
  intros [= <-]. cbn. unfold Js.orAbsentNum.
  destruct (last_worked_block row) as [z|]; cbn; [|discriminate].
  destruct (z =? 0) eqn:E; cbn; [discriminate|].
  apply Z.eqb_neq in E. congruence.
Qed.

Lemma loadedOr_lastWorkedBlock_nonzero w addr b :
  lastWorkedBlock (loadedOr w addr b) <> Some 0.
Proof.
  unfold loadedOr. destruct (stored w addr) eqn:E; [|discriminate].
  by eapply stored_lastWorkedBlock_nonzero.
Qed.

Lemma lastWorkedBlock_nextJobInfo config loaded isWorkable worked b :
  lastWorkedBlock (nextJobInfo config loaded isWorkable worked b) =
  if isCurrentlyWorkable loaded && negb isWorkable && worked
  then Some b else lastWorkedBlock loaded.
Proof.
  unfold nextJobInfo, counted. destruct isWorkable; cbn.
  - rewrite andb_false_r. cbn.
    destruct (alertDue _ _ _); destruct (isCurrentlyWorkable loaded); reflexivity.
  - rewrite andb_true_r. destruct (isCurrentlyWorkable loaded && worked); reflexivity.
Qed.

(** X12.  For one job with a non-empty address and a store that answers:
    an observation asks the ledger whether [work] was called in the block
    exactly when the job was workable before and is not eligible now, and
    asks about that job and that block; the stored [lastWorkedBlock]
    becomes the block when the ledger then says yes (a block 0 is read back
    as none), and otherwise stays as it was. *)
Theorem last_worked_block_follows_confirmed_work env config addr w t o :
  store_ok env -> addr <> "" -> db w = Some t ->
  let U := obs_unit o in
  let before := loadedOr w addr U in
  let asked := isCurrentlyWorkable before && negb (eligible o) in
  let w' := snd (observe env config addr o w) in
  history workedOf w' = history workedOf w ++ (if asked then [(addr, U)] else []) /\
  exists j, stored w' addr = Some j /\
    lastWorkedBlock j =
      if asked && rpc_worked env (S (clock w)) addr U
      then (if U =? 0 then None else Some U)
      else lastWorkedBlock before.
Proof.
  intros Hok Ha Hdb U before asked w'. split.
  - pose proof (processJobStatus_worked env config (statusOf addr o) U w t Hok Hdb) as H.
    cbn [st_address statusOf] in H. rewrite isWorkableStatus_statusOf in H. exact H.
  - eexists. split; [by apply (observe_stored env config addr Hok Ha o w t)|].
    cbn [lastWorkedBlock reread jobInfoOfRow params last_worked_block].
    rewrite lastWorkedBlock_nextJobInfo. fold U before asked.
    destruct (asked && rpc_worked env (S (clock w)) addr U).
    + rewrite orAbsentNum_idem. unfold Js.orAbsentNum, Js.truthyNum.
      destruct (U =? 0); reflexivity.
    + rewrite orAbsentNum_idem. apply orAbsentNum_keeps, loadedOr_lastWorkedBlock_nonzero.
Qed.

Lemma last_worked_block_follows_confirmed_work_witness :
  let env := calmEnv 200 false in
  let w := worldWith nineInARow 109 in
  let o := {| obs_unit := 110; obs_workable := false; obs_error := None |} in
  let before := loadedOr w autoLine 110 in
  let asked := isCurrentlyWorkable before && negb (eligible o) in
  let w' := snd (observe env testConfig autoLine o w) in
  history workedOf w' = history workedOf w ++ (if asked then [(autoLine, 110)] else []) /\
  exists j, stored w' autoLine = Some j /\
    lastWorkedBlock j =
      if asked && rpc_worked env (S (clock w)) autoLine 110
      then (if 110 =? 0 then None else Some 110)
      else lastWorkedBlock before.
Proof.
  apply (last_worked_block_follows_confirmed_work (calmEnv 200 false) testConfig autoLine
           (worldWith nineInARow 109) {[ autoLine := params nineInARow ]}
           {| obs_unit := 110; obs_workable := false; obs_error := None |}).
  - apply store_ok_calmEnv.
  - discriminate.
  - reflexivity.
Defined.

(** ** The count of alerts *)

Section AlertCount.
Context (env : Env) (config : MonitoringConfig) (addr : string).
Hypothesis store_answers : store_ok env.
Hypothesis addr_nonempty : addr <> "".

Lemma alertsSent_loadedOr w b : alertsSent (loadedOr w addr b) = sentCount w addr.
Proof. unfold loadedOr, sentCount. by destruct (stored w addr). Qed.

Lemma observe_sentCount o w t :
  db w = Some t ->
  exists new,
    history alertOf (snd (observe env config addr o w)) = history alertOf w ++ new /\
    Forall (fun a => jobAddress a = addr) new /\
    sentCount (snd (observe env config addr o w)) addr
    = sentCount w addr + Z.of_nat (length new).
Proof.
  intros Hdb.
  pose proof (observe_alerts env config addr store_answers o w t Hdb) as Hh.
  destruct (observe_alert_fields env config addr store_answers addr_nonempty o w t Hdb)
    as (j & Hj & _ & Hsent & _).
  unfold sentCount at 1. rewrite Hj, Hsent, alertsSent_loadedOr.
  destruct (fires config _ _ _).
  - eexists. split; [exact Hh|]. split; [|cbn; lia].
    constructor; [|constructor]. cbn. rewrite counting_address. apply address_loadedOr.
  - exists []. split; [exact Hh|]. split; [constructor|cbn; lia].
Qed.

End AlertCount.

(** X13.  For one job with a non-empty address and a store that answers:
    over every sequence of observations, every alert sent is for that job,
    and the stored [alertsSent] grows by exactly the number of alerts sent
    (from 0 for a job that had no record). *)
Theorem alertsSent_counts_the_alerts_sent env config addr w t l :
  store_ok env -> addr <> "" -> db w = Some t ->
  let w' := snd (observeAll env config addr l w) in
  exists new,
    history alertOf w' = history alertOf w ++ new /\
    Forall (fun a => jobAddress a = addr) new /\
    sentCount w' addr = sentCount w addr + Z.of_nat (length new).
Proof.
  intros Hok Ha. cbv zeta. revert w t. induction l as [|o l IH]; intros w t Hdb.
  - exists []. cbn. rewrite app_nil_r. split; [reflexivity|]. split; [constructor|lia].
  - unfold observeAll. rewrite forEach_cons by apply observe_returns.
    destruct (observe_sentCount env config addr Hok Ha o w t Hdb) as (new1 & Hh1 & Hf1 & Hc1).
    destruct (observe_db env config addr Hok o w t Hdb) as [t1 Hdb1].
    destruct (IH _ t1 Hdb1) as (new2 & Hh2 & Hf2 & Hc2).
    unfold observeAll in Hh2, Hc2. exists (new1 ++ new2). split; [|split].
    + rewrite Hh2, Hh1. by rewrite app_assoc.
    + by apply Forall_app.
    + rewrite Hc2, Hc1, length_app. lia.
Qed.

Lemma alertsSent_counts_the_alerts_sent_witness :
  let w := worldWith nineInARow 109 in
  let w' := snd (observeAll (calmEnv 200 true) testConfig autoLine
                   (map workableAt (seqZ 110 11)) w) in
  exists new,
    history alertOf w' = history alertOf w ++ new /\
    Forall (fun a => jobAddress a = autoLine) new /\
    sentCount w' autoLine = sentCount w autoLine + Z.of_nat (length new).
Proof.
  apply (alertsSent_counts_the_alerts_sent (calmEnv 200 true) testConfig autoLine
           (worldWith nineInARow 109) {[ autoLine := params nineInARow ]}
           (map workableAt (seqZ 110 11))).
  - apply store_ok_calmEnv.
  - discriminate.
  - reflexivity.
Defined.

(** ** The list of jobs *)

Section JobList.
Context (setup : SetupEnv).

Lemma getJobAddress_run index w :
  fst (getJobAddress setup index w) = rpc_jobAt setup (clock w) index /\
  clock (snd (getJobAddress setup index w)) = S (clock w).
Proof.
  unfold getJobAddress, rpcError. run_monad.
  destruct (rpc_jobAt setup (clock w) index); cbn; auto.
Qed.

Lemma allSettled_jobAt indices w :
  exists w1,
    allSettled (map (getJobAddress setup) indices) w =
    (Ok (imap (fun i index => rpc_jobAt setup (clock w + i)%nat index) indices), w1).
Proof.
  revert w. induction indices as [|index indices IH]; intros w; [by eexists|].
  cbn [map allSettled imap].
  destruct (getJobAddress_run index w) as [Hr Hc].
  destruct (getJobAddress setup index w) as [r w1]; cbn in Hr, Hc.
  rewrite bind_run. destruct (IH w1) as [w2 ->]. exists w2. unfold ret.
  rewrite Hr, Nat.add_0_r. do 3 f_equal. apply imap_ext. intros i x _. cbn. rewrite Hc.
  by replace (S (clock w) + i)%nat with (clock w + S i)%nat by lia.
Qed.

Lemma pushFulfilled_run results addresses w :
  fst (pushFulfilled results addresses w) = Ok (addresses ++ omap fulfilled results).
Proof.
  revert addresses w. induction results as [|[v|e] results IH]; intros addresses w; cbn.
  - by rewrite app_nil_r.
  - rewrite IH. by rewrite <- app_assoc.
  - apply IH.
Qed.

Lemma getJobCount_run w :
  fst (getJobCount setup w) = rpc_numJobs setup (clock w) /\
  clock (snd (getJobCount setup w)) = S (clock w).
Proof.
  unfold getJobCount, rpcError. run_monad.
  destruct (rpc_numJobs setup (clock w)); cbn; auto.
Qed.

End JobList.

(** X14.  [getAllJobAddresses] fails only when the count of jobs cannot be
    read, and then with the error of that call.  Once the count is read it
    returns the addresses that could be fetched, in index order: an index
    whose [jobAt] call is rejected is left out and the others are kept. *)
Theorem getAllJobAddresses_keeps_what_it_fetched setup w :
  match rpc_numJobs setup (clock w) with
  | Ok n =>
      fst (getAllJobAddresses setup w) =
      Ok (omap fulfilled (jobAtAnswers setup (S (clock w)) n))
  | Throw e => fst (getAllJobAddresses setup w) = Throw e
  end.
Proof.
  unfold getAllJobAddresses. rewrite try_catch_run, bind_run.
  destruct (getJobCount_run setup w) as [Hr Hc].
  destruct (getJobCount setup w) as [r w1]; cbn in Hr, Hc. subst r.
  destruct (rpc_numJobs setup (clock w)) as [n|e]; [|reflexivity].
  rewrite bind_run. destruct (allSettled_jobAt setup (seqZ 0 n) w1) as [w2 ->].
  rewrite bind_run. rewrite Hc.
  pose proof (pushFulfilled_run
                (imap (fun i index => rpc_jobAt setup (S (clock w) + i)%nat index) (seqZ 0 n))
                [] w2) as Hp.
  destruct (pushFulfilled _ [] w2) as [[addresses|e] w3]; cbn in Hp; [|discriminate].
  injection Hp as ->. reflexivity.
Qed.

Example getAllJobAddresses_skips_the_failed_index :
  fst (getAllJobAddresses flakySetup (emptyWorld 0 [])) = Ok [autoLine; lerp].
Proof. vm_compute. reflexivity. Qed.

(** ** Start-up *)

Lemma getJobName_nonempty addr : getJobName addr <> "".
Proof.
  unfold getJobName, KNOWN_JOBS. cbn [getJobNameIn].
  repeat match goal with
         | |- (if ?c then _ else _) <> _ => destruct c; [discriminate|]
         end.
  discriminate.
Qed.

Lemma reread_freshJobInfo addr b : reread (freshJobInfo addr b) = freshJobInfo addr b.
Proof.
  unfold reread, freshJobInfo, jobInfoOfRow, params. cbn.
  rewrite orAbsentStr_idem, orAbsentStr_keeps; [reflexivity|].
  intros [= H]. by apply (getJobName_nonempty addr).
Qed.

#[global] Instance recordsKept_preorder : PreOrder recordsKept.
Proof.
  split.
  - intros w a j H. exact H.
  - intros w1 w2 w3 H12 H23 a j H. auto.
Qed.

Lemma recordsKept_ext w w' : db w' = db w -> recordsKept w w'.
Proof. intros Hdb a j H. by rewrite (stored_ext w w' Hdb). Qed.

#[global] Instance recordsKept_frame : Frame recordsKept.
Proof. split; [apply _| |]; intros; by apply recordsKept_ext. Qed.

Section Tracking.
Context (env : Env).

Lemma trackOne_cases addr w :
  let w' := snd (trackOne env addr w) in
  lastProcessedBlock w' = lastProcessedBlock w /\
  (db w' = db w \/
   exists t, db w = Some t /\ stored w addr = None /\
     db w' = Some (<[addr := params (freshJobInfo addr (lastProcessedBlock w))]> t)).
Proof.
  cbv zeta. unfold trackOne. rewrite bind_run.
  pose proof (preserves_getJob env (same db) addr w) as Hdb0.
  pose proof (preserves_getJob env (same lastProcessedBlock) addr w) as Hc0.
  pose proof (getJob_returns env addr w) as Hfound.
  destruct (getJob env addr w) as [[[j|]|e] w0]; cbn in Hdb0, Hc0, Hfound; cbn [snd].
  - auto.
  - rewrite bind_run. cbn. rewrite bind_run. unfold same in *. rewrite Hc0.
    pose proof (upsertJob_db_cases env (freshJobInfo addr (lastProcessedBlock w)) w0) as Hup.
    pose proof (preserves_upsertJob env (same lastProcessedBlock)
                  (freshJobInfo addr (lastProcessedBlock w)) (fun _ _ => eq_refl)
                  (fun _ _ => eq_refl) w0) as Hc1.
    unfold same in Hc1.
    destruct (upsertJob env _ w0) as [[[]|e] w1]; cbn in Hup, Hc1 |- *;
      (split; [congruence|]);
      (destruct Hup as [Hsame|(t & Ht & Hins)];
       [left; congruence
       |right; exists t; split; [congruence|]; split; [symmetry; by apply Hfound|exact Hins]]).
  - auto.
Qed.

Lemma trackOne_keeps_records addr : preserves recordsKept (trackOne env addr).
Proof.
  intros w. destruct (trackOne_cases addr w) as [_ [Hsame|(t & Ht & Hnone & Hins)]].
  - by apply recordsKept_ext.
  - intros a j Hj. destruct (decide (a = addr)) as [->|Hne]; [congruence|].
    rewrite <- Hj.
    apply (stored_insert_ne w _ t (params (freshJobInfo addr (lastProcessedBlock w))) a Ht Hins).
    exact Hne.
Qed.

Lemma trackOne_others addr w a :
  a <> addr -> stored (snd (trackOne env addr w)) a = stored w a.
Proof.
  intros Hne. destruct (trackOne_cases addr w) as [_ [Hsame|(t & Ht & Hnone & Hins)]].
  - by apply stored_ext.
  - by apply (stored_insert_ne w _ t (params (freshJobInfo addr (lastProcessedBlock w))) a Ht Hins).
Qed.

Lemma trackOne_returns addr w :
  fst (trackOne env addr w) = Ok tt -> addr <> "" ->
  stored (snd (trackOne env addr w)) addr = Some (loadedOr w addr (lastProcessedBlock w)).
Proof.
  unfold trackOne. rewrite bind_run.
  pose proof (preserves_getJob env (same db) addr w) as Hdb0.
  pose proof (preserves_getJob env (same lastProcessedBlock) addr w) as Hc0.
  pose proof (getJob_returns env addr w) as Hfound.
  destruct (getJob env addr w) as [[[j|]|e] w0]; cbn in Hdb0, Hc0, Hfound; cbn [snd fst];
    [| |discriminate].
  - intros _ _. unfold loadedOr. rewrite <- (Hfound _ eq_refl).
    rewrite (stored_ext w w0 Hdb0). by rewrite <- (Hfound _ eq_refl).
  - rewrite bind_run. cbn. rewrite bind_run. unfold same in *. rewrite Hc0.
    pose proof (upsertJob_returns env (freshJobInfo addr (lastProcessedBlock w)) w0) as Hup.
    destruct (upsertJob env _ w0) as [[[]|e] w1]; cbn in Hup |- *; [|discriminate].
    intros _ Ha. destruct (Hup eq_refl) as (t & Ht & Hins).
    unfold loadedOr. rewrite <- (Hfound _ eq_refl).
    rewrite <- reread_freshJobInfo.
    by apply (stored_after_insert_at _ t (freshJobInfo addr (lastProcessedBlock w)) addr).
Qed.

End Tracking.
Section TrackingLoop.
Context (env : Env).

Lemma trackAll_keeps_records l : preserves recordsKept (forEach (trackOne env) l).
Proof. apply (preserves_forEach recordsKept). apply trackOne_keeps_records. Qed.

Lemma trackAll_others l w a :
  a ∉ l -> stored (snd (forEach (trackOne env) l w)) a = stored w a.
Proof.
  revert w. induction l as [|b rest IH]; intros w Ha; [reflexivity|].
  apply not_elem_of_cons in Ha as [Hne Hrest].
  cbn [forEach]. rewrite bind_run.
  pose proof (trackOne_others env b w a Hne) as H1.
  destruct (trackOne env b w) as [[[]|e] w1]; cbn in H1 |- *; [|exact H1].
  rewrite IH by exact Hrest. exact H1.
Qed.

Lemma trackAll_returns l w a :
  fst (forEach (trackOne env) l w) = Ok tt -> a ∈ l -> a <> "" ->
  stored (snd (forEach (trackOne env) l w)) a = Some (loadedOr w a (lastProcessedBlock w)).
Proof.
  revert w. induction l as [|b rest IH]; intros w Hret Hin Ha; [by inversion Hin|].
  cbn [forEach] in Hret |- *. rewrite bind_run in Hret |- *.
  pose proof (trackOne_returns env b w) as Hb.
  pose proof (trackOne_others env b w a) as Hothers.
  destruct (trackOne_cases env b w) as [Hcursor _].
  destruct (trackOne env b w) as [[[]|e] w1]; cbn in Hb, Hothers, Hcursor, Hret |- *;
    [|discriminate].
  destruct (decide (a = b)) as [->|Hne].
  - apply (trackAll_keeps_records rest w1). by apply Hb.
  - apply elem_of_cons in Hin as [?|Hin]; [contradiction|].
    rewrite (IH w1 Hret Hin Ha). unfold loadedOr. by rewrite Hcursor, Hothers.
Qed.

End TrackingLoop.

(** X15.  [initializeJobTracking] only adds records.  Whatever the
    collaborators answer, a record [getJob] returned before is returned
    unchanged after, and the record of an address not in [jobAddresses]
    reads as before.  When it returns, every job of the list with a
    non-empty address has a record: the one it had, or else a new one with
    the name of the job, a counter of 0, not workable, no alert, and
    [lastCheckedBlock] at the cursor. *)
Theorem initializeJobTracking_only_adds_records env w :
  let w' := snd (initializeJobTracking env w) in
  (forall a j, stored w a = Some j -> stored w' a = Some j) /\
  (forall a, a ∉ jobAddresses w -> stored w' a = stored w a) /\
  (fst (initializeJobTracking env w) = Ok tt ->
   forall a, a ∈ jobAddresses w -> a <> "" ->
     stored w' a =
     Some (match stored w a with
           | Some j => j
           | None =>
               {| address := a; name := Some (getJobName a); description := None;
                  lastWorkedBlock := None; consecutiveWorkableBlocks := 0;
                  isCurrentlyWorkable := false; lastCheckedBlock := lastProcessedBlock w;
                  alertsSent := 0; lastAlertBlock := None |}
           end)).
Proof.
  cbv zeta.
  change (initializeJobTracking env w) with (forEach (trackOne env) (jobAddresses w) w).
  split; [|split].
  - apply (trackAll_keeps_records env).
  - intros a Ha. by apply trackAll_others.
  - intros Hret a Hin Ha. by apply trackAll_returns.
Qed.

Lemma initializeJobTracking_only_adds_records_witness :
  let w := set_jobAddresses [autoLine; lerp] (worldWith nineInARow 109) in
  let w' := snd (initializeJobTracking (calmEnv 200 true) w) in
  stored w' lerp =
  Some (match stored w lerp with
        | Some j => j
        | None =>
            {| address := lerp; name := Some (getJobName lerp); description := None;
               lastWorkedBlock := None; consecutiveWorkableBlocks := 0;
               isCurrentlyWorkable := false; lastCheckedBlock := lastProcessedBlock w;
               alertsSent := 0; lastAlertBlock := None |}
        end).
Proof.
  apply (proj2 (proj2 (initializeJobTracking_only_adds_records (calmEnv 200 true)
                         (set_jobAddresses [autoLine; lerp] (worldWith nineInARow 109))))).
  - vm_compute. reflexivity.
  - apply elem_of_cons. right. apply elem_of_cons. by left.
  - discriminate.
Defined.

Section StartUp.
Context (env : Env) (setup : SetupEnv).

Lemma preserves_trackOne R `{!Frame R} addr :
  writes_db R -> writes_disk R -> preserves R (trackOne env addr).
Proof.
  intros Hdb Hdisk. unfold trackOne.
  apply (preserves_bind R); [apply (preserves_getJob env R)|]. intros [j|]; [frame|].
  apply (preserves_bind R); [frame|]. intros w0.
  apply (preserves_bind R); [by apply (preserves_upsertJob env R)|]. intros; frame.
Qed.

Lemma preserves_initializeJobTracking R `{!Frame R} :
  writes_db R -> writes_disk R -> preserves R (initializeJobTracking env).
Proof.
  intros Hdb Hdisk. unfold initializeJobTracking.
  apply (preserves_bind R); [frame|]. intros w0.
  apply (preserves_forEach R). intros addr. by apply (preserves_trackOne R).
Qed.

Lemma preserves_getJobCount R `{!Frame R} : preserves R (getJobCount setup).
Proof. unfold getJobCount, rpcError. frame. Qed.

Lemma preserves_healthCheck R `{!Frame R} :
  allows R EvHeadQuery -> preserves R (healthCheck env setup).
Proof.
  intros Hq. unfold healthCheck.
  apply (preserves_try_catch R); [|intros; frame].
  apply (preserves_bind R); [by apply (preserves_getLatestBlock env R)|]. intros _.
  apply (preserves_bind R); [apply (preserves_getJobCount R)|]. intros; frame.
Qed.

Lemma preserves_testWebhook R `{!Frame R} : preserves R (testWebhook env).
Proof. unfold testWebhook. frame. Qed.

Lemma healthCheck_returns w : exists ok, fst (healthCheck env setup w) = Ok ok.
Proof.
  unfold healthCheck. rewrite try_catch_run.
  match goal with |- context [match ?m w with _ => _ end] => destruct (m w) as [[ok|e] w1] end;
    cbn; eauto.
Qed.

Lemma testWebhook_returns w : exists ok, fst (testWebhook env w) = Ok ok.
Proof.
  unfold testWebhook. rewrite try_catch_run.
  match goal with |- context [match ?m w with _ => _ end] => destruct (m w) as [[ok|e] w1] end;
    cbn; eauto.
Qed.

Lemma getLatestBlock_returns w H :
  fst (getLatestBlock env w) = Ok H -> rpc_latest env (clock w) = Ok (Some H).
Proof.
  unfold getLatestBlock, rpcError. run_monad.
  destruct (rpc_latest env (clock w)) as [[n|]|e]; cbn; try discriminate. congruence.
Qed.

Lemma loadJobAddresses_keeps R `{!Frame R} :
  (forall l w, R w (set_jobAddresses l w)) -> preserves R (loadJobAddresses setup).
Proof.
  intros Hset. unfold loadJobAddresses.
  apply (preserves_try_catch R); [|intros; frame].
  apply (preserves_bind R); [|intros; frame].
  unfold getAllJobAddresses.
  apply (preserves_try_catch R); [|intros; frame].
  apply (preserves_bind R); [apply (preserves_getJobCount R)|]. intros n.
  apply (preserves_bind R).
  - apply (preserves_allSettled R). apply Forall_forall. intros m Hm.
    apply list_elem_of_fmap in Hm as (i & -> & _). unfold getJobAddress, rpcError. frame.
  - intros results. apply (preserves_bind R); [|intros; frame].
    generalize (@nil string). induction results as [|[v|e] results IH]; intros acc; cbn.
    + frame.
    + apply IH.
    + apply (preserves_bind R); [frame|]. intros _. apply IH.
Qed.

End StartUp.
Lemma initializeService_returns env setup w b :
  fst (initializeService env setup false w) = Ok b ->
  exists w1 w3 w4 w5 H,
    b = true /\
    db w1 = Some (default ∅ (disk w)) /\
    db w3 = db w1 /\
    initializeJobTracking env w3 = (Ok tt, w4) /\
    getLatestBlock env w4 = (Ok H, w5) /\
    snd (initializeService env setup false w) =
    emit (EvLog INFO "Monitoring service initialized successfully")
      (set_lastProcessedBlock H w5).
Proof.
  unfold initializeService. rewrite try_catch_run, bind_log, bind_run.
  set (w0 := emit (EvLog INFO "Initializing monitoring service...") w).
  pose proof (initialize_returns env setup w0) as Hinit.
  destruct (initialize env setup false w0) as [[b1|e] w1]; cbn in Hinit; [|discriminate].
  destruct (Hinit b1 eq_refl) as (-> & Hdb1 & _). clear Hinit.
  rewrite bind_run.
  destruct (healthCheck_returns env setup w1) as [ok1 Hh].
  pose proof (preserves_healthCheck env setup (same db) (same_db_allows _) w1) as Hdbh.
  destruct (healthCheck env setup w1) as [[h|e] wh]; cbn in Hh, Hdbh; [|discriminate].
  rewrite bind_run.
  destruct (testWebhook_returns env wh) as [ok2 Ht].
  pose proof (preserves_testWebhook env (same db) wh) as Hdbt.
  destruct (testWebhook env wh) as [[h2|e] w2]; cbn in Ht, Hdbt; [|discriminate].
  rewrite bind_run.
  pose proof (loadJobAddresses_keeps setup (same db) (fun _ _ => eq_refl) w2) as Hdbl.
  destruct (loadJobAddresses setup w2) as [[[]|e] w3]; cbn in Hdbl; [|discriminate].
  rewrite bind_run.
  destruct (initializeJobTracking env w3) as [[[]|e] w4] eqn:Etrack; [|discriminate].
  rewrite bind_run.
  destruct (getLatestBlock env w4) as [[H|e] w5] eqn:Ehead; [|discriminate].
  cbn. intros [= <-]. exists w1, w3, w4, w5, H.
  unfold same in *. split; [reflexivity|]. split; [exact Hdb1|]. split; [congruence|].
  split; [exact Etrack|]. split; [exact Ehead|reflexivity].
Qed.

(** X16.  When [MonitoringService.initialize] returns on a gateway that
    was not initialized: every record of the file is a record of the
    service, unchanged, so the counters and alert marks of a run before a
    restart are kept; every job of the loaded list with a non-empty address
    has a record; and the cursor is the head the node answered last, so no
    block at or before it will be scanned. *)
Theorem initializeService_resumes_from_the_file env setup w isInitialized :
  fst (initializeService env setup false w) = Ok isInitialized ->
  let w' := snd (initializeService env setup false w) in
  isInitialized = true /\
  (forall a j, onFile w a = Some j -> stored w' a = Some j) /\
  (forall a, a ∈ jobAddresses w' -> a <> "" -> exists j, stored w' a = Some j) /\
  (exists t, rpc_latest env t = Ok (Some (lastProcessedBlock w'))).
Proof.
  intros Hret w'.
  destruct (initializeService_returns env setup w isInitialized Hret)
    as (w1 & w3 & w4 & w5 & H & -> & Hdb1 & Hdb3 & Htrack & Hhead & Hw').
  subst w'. rewrite Hw'. clear Hw'.
  assert (Hkept : recordsKept w3 w4).
  { pose proof (trackAll_keeps_records env (jobAddresses w3) w3) as K.
    change (forEach (trackOne env) (jobAddresses w3) w3)
      with (initializeJobTracking env w3) in K.
    by rewrite Htrack in K. }
  assert (Htracked : forall a, a ∈ jobAddresses w3 -> a <> "" -> exists j, stored w4 a = Some j).
  { intros a Hin Ha. pose proof (trackAll_returns env (jobAddresses w3) w3 a) as K.
    change (forEach (trackOne env) (jobAddresses w3) w3)
      with (initializeJobTracking env w3) in K.
    rewrite Htrack in K. eexists. by apply K. }
  assert (Hjobs4 : jobAddresses w4 = jobAddresses w3).
  { pose proof (preserves_initializeJobTracking env (same jobAddresses)
                  (fun _ _ => eq_refl) (fun _ _ => eq_refl) w3) as K.
    by rewrite Htrack in K. }
  assert (Hjobs5 : jobAddresses w5 = jobAddresses w4).
  { pose proof (preserves_getLatestBlock env (same jobAddresses) (fun _ => eq_refl) w4) as K.
    by rewrite Hhead in K. }
  assert (Hdb5 : db w5 = db w4).
  { pose proof (preserves_getLatestBlock env (same db) (same_db_allows _) w4) as K.
    by rewrite Hhead in K. }
  assert (Hstored : forall a, stored (emit (EvLog INFO "Monitoring service initialized successfully")
                                        (set_lastProcessedBlock H w5)) a = stored w4 a).
  { apply stored_ext. exact Hdb5. }
  split; [reflexivity|]. split; [|split].
  - intros a j Hj. rewrite Hstored. apply Hkept.
    unfold stored. rewrite Hdb3, Hdb1. exact Hj.
  - intros a Hin Ha. rewrite Hstored. apply Htracked; [|exact Ha].
    change (a ∈ jobAddresses w5) in Hin. by rewrite Hjobs5, Hjobs4 in Hin.
  - exists (clock w4). apply (getLatestBlock_returns env). by rewrite Hhead.
Qed.

Lemma initializeService_resumes_from_the_file_witness :
  let w := restarted (snd (upsertJob (calmEnv 200 true) mockJob (emptyWorld 0 []))) in
  let w' := snd (initializeService (calmEnv 200 true) (calmSetup [autoLine; lerp]) false w) in
  true = true /\
  (forall a j, onFile w a = Some j -> stored w' a = Some j) /\
  (forall a, a ∈ jobAddresses w' -> a <> "" -> exists j, stored w' a = Some j) /\
  (exists t, rpc_latest (calmEnv 200 true) t = Ok (Some (lastProcessedBlock w'))).
Proof.
  apply (initializeService_resumes_from_the_file (calmEnv 200 true)
           (calmSetup [autoLine; lerp])
           (restarted (snd (upsertJob (calmEnv 200 true) mockJob (emptyWorld 0 []))))).
  vm_compute. reflexivity.
Defined.

(** ** The status and the summary report *)

Lemma elem_of_getAllJobs env w jobs a j :
  fst (getAllJobs env w) = Ok jobs -> a <> "" ->
  stored w a = Some j -> j ∈ jobs.
Proof.
  intros Hret Ha. destruct (getAllJobs_returns env w jobs Hret) as (t & Hdb & ->).
  unfold stored. rewrite Hdb.
  destruct (selectRow t a) as [row|] eqn:Hrow; cbn; [|discriminate].
  pose proof (selectRow_address _ _ _ Hrow) as Hra.
  rewrite Hra, truthyString_nonempty by exact Ha. intros [= <-].
  apply list_elem_of_fmap. exists row. split; [reflexivity|].
  apply elem_of_selectAll. rewrite Hra. exact Hrow.
Qed.

Lemma getStatus_returns env config isRunning w s :
  fst (getStatus env config isRunning w) = Ok s ->
  exists jobs,
    fst (getAllJobs env w) = Ok jobs /\
    status_totalJobs s = Z.of_nat (length jobs) /\
    status_workableJobs s = Z.of_nat (length (workableJobsOf jobs)) /\
    status_criticalJobs s = Z.of_nat (length (criticalJobsOf config jobs)) /\
    status_jobs s =
      map (fun job => (address job, name job, isCurrentlyWorkable job,
                       consecutiveWorkableBlocks job, alertsSent job)) jobs.
Proof.
  unfold getStatus. rewrite bind_run.
  destruct (getAllJobs env w) as [[jobs|e] w1]; cbn; [|discriminate].
  intros [= <-]. exists jobs. cbn. auto.
Qed.

Lemma filter_length_bound {A} (p : A -> bool) l : (length (List.filter p l) <= length l)%nat.
Proof. induction l as [|x l IH]; cbn; [lia|]. destruct (p x); cbn; lia. Qed.

Lemma elem_of_criticalJobsOf config jobs j :
  j ∈ criticalJobsOf config jobs <->
  j ∈ jobs /\ isCurrentlyWorkable j = true /\
  alertThresholdBlocks config <= consecutiveWorkableBlocks j.
Proof.
  unfold criticalJobsOf, workableJobsOf.
  rewrite !list_elem_of_In, !List.filter_In, Z.leb_le. tauto.
Qed.

(** X17.  For one job with a non-empty address and a store that answers:
    after an observation for which the tracker sent an alert, [getStatus]
    counts at least one critical job, lists the job as workable with a
    counter at or above the threshold, and reports no more critical jobs
    than workable jobs and no more workable jobs than jobs; and the summary
    report built from [getAllJobs] is red and details at least one and at
    most five critical jobs. *)
Theorem alerted_job_is_counted_critical env config addr w t o isRunning s :
  store_ok env -> addr <> "" -> db w = Some t ->
  fires config (loadedOr w addr (obs_unit o)) (eligible o) (obs_unit o) = true ->
  let w' := snd (observe env config addr o w) in
  fst (getStatus env config isRunning w') = Ok s ->
  0 < status_criticalJobs s <= status_workableJobs s /\
  status_workableJobs s <= status_totalJobs s /\
  (exists n c sent,
     (addr, n, true, c, sent) ∈ status_jobs s /\ alertThresholdBlocks config <= c) /\
  (forall jobs,
     fst (getAllJobs env w') = Ok jobs ->
     red (summaryOf config jobs) = true /\
     (0 < length (criticalDetails (summaryOf config jobs)) <= 5)%nat).
Proof.
  intros Hok Ha Hdb Hfires w' Hret.
  destruct (fires_counter config _ _ _ Hfires) as [Hel HT].
  pose proof (observe_stored env config addr Hok Ha o w t Hdb) as Hj. fold w' in Hj.
  set (j := reread (nextJobInfo config (loadedOr w addr (obs_unit o)) (eligible o)
                      (rpc_worked env (S (clock w)) addr (obs_unit o)) (obs_unit o))) in *.
  assert (Hjw : isCurrentlyWorkable j = true).
  { unfold j. by rewrite reread_isCurrentlyWorkable, workable_nextJobInfo. }
  assert (Hjc : alertThresholdBlocks config <= consecutiveWorkableBlocks j).
  { unfold j. cbn [reread jobInfoOfRow params consecutiveWorkableBlocks consecutive_workable_blocks].
    rewrite counter_nextJobInfo, Hel. exact HT. }
  assert (Hja : address j = addr) by (by apply (stored_address w')).
  assert (Hcrit : forall jobs, fst (getAllJobs env w') = Ok jobs ->
            j ∈ criticalJobsOf config jobs).
  { intros jobs Hjobs. apply elem_of_criticalJobsOf. split; [|by split].
    by apply (elem_of_getAllJobs env w' jobs addr). }
  assert (Hpos : forall jobs, fst (getAllJobs env w') = Ok jobs ->
            (0 < length (criticalJobsOf config jobs))%nat).
  { intros jobs Hjobs. specialize (Hcrit jobs Hjobs).
    destruct (criticalJobsOf config jobs); [by inversion Hcrit | cbn; lia]. }
  destruct (getStatus_returns env config isRunning w' s Hret)
    as (jobs & Hjobs & Htot & Hwork & Hcr & Hlist).
  rewrite Htot, Hwork, Hcr, Hlist. split; [|split; [|split]].
  - specialize (Hpos jobs Hjobs).
    pose proof (filter_length_bound
                  (fun job => alertThresholdBlocks config <=? consecutiveWorkableBlocks job)
                  (workableJobsOf jobs)) as Hle.
    fold (criticalJobsOf config jobs) in Hle. lia.
  - pose proof (filter_length_bound isCurrentlyWorkable jobs) as Hle.
    fold (workableJobsOf jobs) in Hle. lia.
  - exists (name j), (consecutiveWorkableBlocks j), (alertsSent j). split; [|exact Hjc].
    apply list_elem_of_fmap. exists j. rewrite Hja, Hjw. split; [reflexivity|].
    apply (elem_of_criticalJobsOf config jobs j). by apply Hcrit.
  - intros jobs' Hjobs'. specialize (Hpos jobs' Hjobs'). unfold summaryOf. cbn.
    split; [apply Z.ltb_lt; lia|].
    rewrite length_map, length_take. lia.
Qed.

Lemma alerted_job_is_counted_critical_witness :
  let env := calmEnv 200 true in
  let w := worldWith nineInARow 109 in
  let w' := snd (observe env testConfig autoLine (workableAt 110) w) in
  exists s, fst (getStatus env testConfig true w') = Ok s /\
    0 < status_criticalJobs s <= status_workableJobs s /\
    status_workableJobs s <= status_totalJobs s /\
    (exists n c sent,
       (autoLine, n, true, c, sent) ∈ status_jobs s /\ alertThresholdBlocks testConfig <= c) /\
    (forall jobs,
       fst (getAllJobs env w') = Ok jobs ->
       red (summaryOf testConfig jobs) = true /\
       (0 < length (criticalDetails (summaryOf testConfig jobs)) <= 5)%nat).
Proof.
  eexists. split; [vm_compute; reflexivity|].
  apply (alerted_job_is_counted_critical (calmEnv 200 true) testConfig autoLine
           (worldWith nineInARow 109) {[ autoLine := params nineInARow ]}
           (workableAt 110) true).
  - apply store_ok_calmEnv.
  - discriminate.
  - reflexivity.
  - vm_compute. reflexivity.
  - vm_compute. reflexivity.
Defined.

(** ** The search for a [work] transaction *)

Lemma lower_ascii_idem c : Js.lower_ascii (Js.lower_ascii c) = Js.lower_ascii c.
Proof. destruct c as [[] [] [] [] [] [] [] []]; reflexivity. Qed.

Lemma toLowerCase_idem s : Js.toLowerCase (Js.toLowerCase s) = Js.toLowerCase s.
Proof. induction s as [|c s IH]; cbn; [reflexivity|]. by rewrite lower_ascii_idem, IH. Qed.

Section WorkTransactionFacts.
Context (getBlock : Z -> Result (option (list string))).
Context (getTransaction : string -> Result (option Transaction)).
Context (getTransactionReceipt : string -> Result (option (option Z))).

Lemma isWorkTransaction_true jobAddress txHash :
  isWorkTransaction getTransaction getTransactionReceipt jobAddress txHash = true <->
  exists tx to,
    getTransaction txHash = Ok (Some tx) /\
    tx_to tx = Some to /\ Js.toLowerCase to = Js.toLowerCase jobAddress /\
    Js.startsWith "0x26b6308e" (tx_data tx) = true /\
    getTransactionReceipt txHash = Ok (Some (Some 1)).
Proof.
  unfold isWorkTransaction, sentTo, succeeded. split.
  - destruct (getTransaction txHash) as [[tx|]|e]; try discriminate.
    destruct (tx_to tx) as [to|] eqn:Hto; [|discriminate].
    destruct (String.eqb _ _) eqn:Heq; [|discriminate]. apply String.eqb_eq in Heq.
    destruct (Js.startsWith _ _) eqn:Hsel; [|discriminate].
    destruct (getTransactionReceipt txHash) as [[[status|]|]|e]; try discriminate.
    intros Hs. apply Z.eqb_eq in Hs. subst status. by exists tx, to.
  - intros (tx & to & -> & -> & Heq & -> & ->). apply String.eqb_eq in Heq. by rewrite Heq.
Qed.

Lemma anyWorkTransaction_true jobAddress transactions :
  anyWorkTransaction getTransaction getTransactionReceipt jobAddress transactions = true <->
  exists txHash, txHash ∈ transactions /\
    isWorkTransaction getTransaction getTransactionReceipt jobAddress txHash = true.
Proof.
  induction transactions as [|h rest IH]; cbn.
  - split; [discriminate|]. intros (x & Hx & _). inversion Hx.
  - destruct (isWorkTransaction _ _ jobAddress h) eqn:Hh.
    + split; [|reflexivity]. intros _. exists h. split; [by left|exact Hh].
    + rewrite IH. split.
      * intros (x & Hx & Hw). exists x. split; [by right|exact Hw].
      * intros (x & Hx & Hw). apply elem_of_cons in Hx as [->|Hx]; [congruence|eauto].
Qed.

End WorkTransactionFacts.

(** X18.  What [checkWorkTransactionInBlock] answers, from the answers of
    the node: [true] exactly when the block is found and one of its
    transactions can be fetched, is addressed to the job (letter case
    aside), has data that begins with the selector of [work], and has a
    receipt with status 1.  A transaction that cannot be fetched, or whose
    receipt cannot, does not hide a later one; and the answer does not
    depend on the letter case of the job address. *)
Theorem work_transaction_is_a_successful_call_to_the_job
    getBlock getTransaction getTransactionReceipt jobAddress blockNumber :
  (workTransactionInBlock getBlock getTransaction getTransactionReceipt jobAddress blockNumber
   = true <->
   exists transactions txHash tx to,
     getBlock blockNumber = Ok (Some transactions) /\ txHash ∈ transactions /\
     getTransaction txHash = Ok (Some tx) /\
     tx_to tx = Some to /\ Js.toLowerCase to = Js.toLowerCase jobAddress /\
     Js.startsWith "0x26b6308e" (tx_data tx) = true /\
     getTransactionReceipt txHash = Ok (Some (Some 1))) /\
  workTransactionInBlock getBlock getTransaction getTransactionReceipt
    (Js.toLowerCase jobAddress) blockNumber =
  workTransactionInBlock getBlock getTransaction getTransactionReceipt jobAddress blockNumber.
Proof.
  split.
  - unfold workTransactionInBlock. split.
    + destruct (getBlock blockNumber) as [[transactions|]|e]; try discriminate.
      intros H. apply anyWorkTransaction_true in H as (h & Hin & Hw).
      apply isWorkTransaction_true in Hw as (tx & to & ?). by exists transactions, h, tx, to.
    + intros (transactions & h & tx & to & -> & Hin & Hrest).
      apply anyWorkTransaction_true. exists h. split; [exact Hin|].
      apply isWorkTransaction_true. by exists tx, to.
  - unfold workTransactionInBlock. destruct (getBlock blockNumber) as [[transactions|]|e];
      try reflexivity.
    induction transactions as [|h rest IH]; cbn; [reflexivity|]. rewrite IH.
    unfold isWorkTransaction, sentTo. by rewrite toLowerCase_idem.
Qed.

(** ** A batch that is rate limited *)

#[global] Instance adds_workableQuery_frame Q : Frame (adds workableQueryOf Q).
Proof. by apply adds_frame. Qed.

Section BatchQueries.
Context (env : Env) (b : Z).
Hypothesis block_nonzero : b <> 0.

Lemma checkJobWorkable_query a w :
  history workableQueryOf (snd (checkJobWorkable env a b w)) =
  history workableQueryOf w ++ [(a, Some b)].
Proof.
  unfold checkJobWorkable, rpcError.
  rewrite (overridesOf_nonzero b block_nonzero).
  pose proof block_nonzero as Hb. apply Z.eqb_neq in Hb. rewrite Hb.
  run_monad.
  destruct (rpc_workable env (clock w) a (Some b)) as [v|e]; cbn.
  - by rewrite history_tick, history_emit.
  - destruct (rateLimitSignature (messageOr "Unknown error" e)); cbn;
      by rewrite history_emit, history_tick, history_emit, app_nil_r.
Qed.

Lemma allSettled_queries addrs w :
  history workableQueryOf (snd (allSettled (map (fun a => checkJobWorkable env a b) addrs) w)) =
  history workableQueryOf w ++ map (fun a => (a, Some b)) addrs.
Proof.
  revert w. induction addrs as [|a addrs IH]; intros w; cbn [map allSettled].
  - cbn. by rewrite app_nil_r.
  - pose proof (checkJobWorkable_query a w) as Hq.
    destruct (checkJobWorkable env a b w) as [r w1]; cbn in Hq. rewrite bind_run.
    specialize (IH w1).
    destruct (allSettled _ w1) as [[rs|e] w2]; cbn in IH |- *;
      rewrite IH, Hq; by rewrite <- app_assoc.
Qed.

Lemma filter_firstRateLimited results :
  match List.filter isRateLimitingRejection results with
  | Throw reason :: _ => firstRateLimited results = Some reason
  | _ => firstRateLimited results = None
  end.
Proof.
  induction results as [|r rest IH]; cbn; [reflexivity|].
  destruct (isRateLimitingRejection r) eqn:Hr; [|exact IH].
  destruct r as [v|e]; [discriminate|reflexivity].
Qed.

End BatchQueries.

(** X19.  A batch of checks at a block other than 0 is all or nothing, and
    it is not cut short: every job of the list is asked, in order, whatever
    the answers are; when one or more checks are rejected with a rate-limit
    signature, the batch throws the rejection of the first such job in list
    order and returns no status, and otherwise it returns. *)
Theorem batch_asks_every_job_and_fails_as_a_whole env addrs b w :
  b <> 0 ->
  let run := checkMultipleJobsWorkable env addrs b w in
  let answers :=
    imap (fun i a => settledCheck b a (rpc_workable env (clock w + i)%nat a (Some b))) addrs in
  history workableQueryOf (snd run) =
    history workableQueryOf w ++ map (fun a => (a, Some b)) addrs /\
  match firstRateLimited answers with
  | Some e => fst run = Throw e
  | None => exists statuses, fst run = Ok statuses
  end.
Proof.
  intros Hb run answers. subst run. unfold checkMultipleJobsWorkable. rewrite bind_run.
  pose proof (allSettled_checks env b Hb addrs w) as Hall. fold answers in Hall.
  pose proof (allSettled_queries env b Hb addrs w) as Hq.
  destruct (allSettled _ w) as [[results|e] w1]; cbn in Hall, Hq; [|discriminate].
  injection Hall as ->.
  pose proof (filter_firstRateLimited answers) as Hf.
  destruct (List.filter isRateLimitingRejection answers) as [|[v|reason] rest]; cbn;
    rewrite Hf; (split; [exact Hq|]); eauto.
Qed.

Lemma batch_asks_every_job_and_fails_as_a_whole_witness :
  let w := emptyWorld 109 [autoLine; lerp] in
  let run := checkMultipleJobsWorkable (oneRateLimited autoLine) [autoLine; lerp] 110 w in
  let answers :=
    imap (fun i a => settledCheck 110 a
                       (rpc_workable (oneRateLimited autoLine) (clock w + i)%nat a (Some 110)))
         [autoLine; lerp] in
  history workableQueryOf (snd run) =
    history workableQueryOf w ++ map (fun a => (a, Some 110)) [autoLine; lerp] /\
  match firstRateLimited answers with
  | Some e => fst run = Throw e
  | None => exists statuses, fst run = Ok statuses
  end.
Proof.
  apply (batch_asks_every_job_and_fails_as_a_whole (oneRateLimited autoLine)
           [autoLine; lerp] 110 (emptyWorld 109 [autoLine; lerp])).
  lia.
Defined.

(** ** Stopping *)

Lemma run_app s l1 l2 :
  Scheduler.run s (l1 ++ l2) = Scheduler.run (Scheduler.run s l1) l2.
Proof. unfold Scheduler.run. apply fold_left_app. Qed.

Lemma timer_registered_iff_running inputs :
  Scheduler.monitoringInterval (Scheduler.run Scheduler.initial inputs) =
  Scheduler.isRunning (Scheduler.run Scheduler.initial inputs).
Proof.
  induction inputs as [|i inputs IH] using rev_ind; [reflexivity|].
  rewrite run_app. cbn. set (s := Scheduler.run Scheduler.initial inputs) in *.
  destruct i; cbn; unfold Scheduler.beginLoop;
    destruct (Scheduler.isRunning s) eqn:E1;
    destruct (Scheduler.monitoringInterval s) eqn:E2; cbn; congruence.
Qed.

Lemma stopped_begins_no_tick inputs s :
  Scheduler.isRunning s = false -> Scheduler.monitoringInterval s = false ->
  Scheduler.CallStart ∉ inputs ->
  Scheduler.isRunning (Scheduler.run s inputs) = false /\
  Scheduler.monitoringInterval (Scheduler.run s inputs) = false /\
  (Scheduler.inFlight (Scheduler.run s inputs) <= Scheduler.inFlight s)%nat.
Proof.
  revert s. induction inputs as [|i inputs IH]; intros s Hr Ht Hno; [cbn; auto|].
  apply not_elem_of_cons in Hno as [Hi Hno].
  change (Scheduler.run s (i :: inputs)) with (Scheduler.run (Scheduler.step s i) inputs).
  assert (Hstep : Scheduler.isRunning (Scheduler.step s i) = false /\
                  Scheduler.monitoringInterval (Scheduler.step s i) = false /\
                  (Scheduler.inFlight (Scheduler.step s i) <= Scheduler.inFlight s)%nat).
  { destruct i; try congruence; cbn; rewrite ?Hr, ?Ht; cbn; (split; [|split]); auto; lia. }
  destruct Hstep as (A & B & C). destruct (IH _ A B Hno) as (H1 & H2 & H3).
  split; [exact H1|]. split; [exact H2|]. lia.
Qed.

(** X20.  After [stop()] nothing begins a tick until [start()] is called
    again: from the start of the process, after any sequence of calls and
    timer events, once [stop] has been called no timer event and no
    [forceCheck] begins a [monitoringLoop] (a [forceCheck] is rejected), so
    the number of calls in flight only falls.  [stop] itself neither waits
    for nor ends the calls in flight. *)
Theorem stop_lets_no_tick_begin before after :
  Scheduler.CallStart ∉ after ->
  let stopped := Scheduler.run Scheduler.initial (before ++ [Scheduler.CallStop]) in
  Scheduler.inFlight stopped = Scheduler.inFlight (Scheduler.run Scheduler.initial before) /\
  Scheduler.isRunning (Scheduler.run stopped after) = false /\
  (Scheduler.inFlight (Scheduler.run stopped after) <= Scheduler.inFlight stopped)%nat.
Proof.
  intros Hno stopped. subst stopped. rewrite run_app.
  set (s := Scheduler.run Scheduler.initial before).
  pose proof (timer_registered_iff_running before) as Hinv. fold s in Hinv.
  assert (Hstop : Scheduler.isRunning (Scheduler.run s [Scheduler.CallStop]) = false /\
                  Scheduler.monitoringInterval (Scheduler.run s [Scheduler.CallStop]) = false /\
                  Scheduler.inFlight (Scheduler.run s [Scheduler.CallStop]) = Scheduler.inFlight s).
  { cbn. destruct (Scheduler.isRunning s) eqn:E; cbn; [auto|]. rewrite Hinv. auto. }
  destruct Hstop as (Hr & Ht & Hf). split; [exact Hf|].
  destruct (stopped_begins_no_tick after _ Hr Ht Hno) as (H1 & _ & H3). auto.
Qed.

Lemma stop_lets_no_tick_begin_witness :
  let before := [Scheduler.CallStart; Scheduler.TimerFires] in
  let after := [Scheduler.TimerFires; Scheduler.CallForceCheck; Scheduler.LoopSettles] in
  let stopped := Scheduler.run Scheduler.initial (before ++ [Scheduler.CallStop]) in
  Scheduler.inFlight stopped = Scheduler.inFlight (Scheduler.run Scheduler.initial before) /\
  Scheduler.isRunning (Scheduler.run stopped after) = false /\
  (Scheduler.inFlight (Scheduler.run stopped after) <= Scheduler.inFlight stopped)%nat.
Proof.
  apply (stop_lets_no_tick_begin [Scheduler.CallStart; Scheduler.TimerFires]
           [Scheduler.TimerFires; Scheduler.CallForceCheck; Scheduler.LoopSettles]).
  intros Hin. repeat (apply elem_of_cons in Hin as [Hin|Hin]; [discriminate|]).
  inversion Hin.
Defined.

(** ** A tick without rate limiting *)

Section CleanTick.
Context (env : Env) (config : MonitoringConfig).
Hypothesis Hstore : store_ok env.
Hypothesis Hcalm : forall n a tag e,
  rpc_workable env n a tag = Throw e ->
  rateLimitSignature (messageOr "Unknown error" e) = false.

Lemma checkMultipleJobsWorkable_calm addrs b w :
  b <> 0 -> exists statuses, fst (checkMultipleJobsWorkable env addrs b w) = Ok statuses.
Proof.
  intros Hb. unfold checkMultipleJobsWorkable. rewrite bind_run.
  pose proof (allSettled_checks env b Hb addrs w) as Hall.
  destruct (allSettled _ w) as [[results|e] w1]; cbn in Hall; [|discriminate].
  injection Hall as ->. rewrite filter_none; [cbn; eauto|].
  apply Forall_forall. intros r Hr. apply list_elem_of_lookup in Hr as [i Hi].
  rewrite list_lookup_imap in Hi. destruct (addrs !! i) as [a|]; cbn in Hi; [|discriminate].
  injection Hi as <-. unfold settledCheck.
  destruct (rpc_workable env (clock w + i)%nat a (Some b)) as [v|e] eqn:E; [reflexivity|].
  by rewrite (Hcalm _ _ _ _ E).
Qed.

Lemma processBlock_calm b w : b <> 0 -> fst (processBlock env config b w) = Ok tt.
Proof.
  intros Hb. unfold processBlock. rewrite try_catch_run, bind_run. cbn. rewrite bind_run.
  destruct (checkMultipleJobsWorkable_calm (jobAddresses w) b w Hb) as [statuses Hs].
  destruct (checkMultipleJobsWorkable env (jobAddresses w) b w) as [[sts|e] w1];
    cbn in Hs; [|discriminate].
  pose proof (forEach_returns (fun jobStatus => processJobStatus env config jobStatus b)
                sts w1 (fun st w0 => processJobStatus_returns env config st b w0)) as Hok.
  destruct (forEach _ sts w1) as [[[]|e] w2]; cbn in Hok |- *; [reflexivity|discriminate].
Qed.

Lemma processJobStatuses_keep_db_some statuses b w t :
  db w = Some t ->
  exists t', db (snd (forEach (fun jobStatus => processJobStatus env config jobStatus b)
                        statuses w)) = Some t'.
Proof.
  revert w t. induction statuses as [|st rest IH]; intros w t Hdb; [cbn; eauto|].
  rewrite forEach_cons by apply processJobStatus_returns.
  destruct (processJobStatus_keeps_db_some env config Hstore st b w t Hdb) as [t1 Hdb1].
  by apply (IH _ t1).
Qed.

Lemma processBlock_checked b w t :
  db w = Some t -> fst (processBlock env config b w) = Ok tt ->
  (exists t', db (snd (processBlock env config b w)) = Some t') /\
  forall a, a ∈ jobAddresses w -> a <> "" ->
    exists j, stored (snd (processBlock env config b w)) a = Some j /\ lastCheckedBlock j = b.
Proof.
  intros Hdb Hret.
  destruct (processBlock_returns env config b w Hret) as (statuses & w1 & Hbatch & Hdb1 & Hw').
  assert (Haddrs : map st_address statuses = jobAddresses w).
  { apply (checkMultipleJobsWorkable_addresses env _ b w). by rewrite Hbatch. }
  rewrite Hw'. split.
  - apply (processJobStatuses_keep_db_some statuses b w1 t). congruence.
  - intros a Hin Ha. apply (processJobStatuses_checked env config Hstore statuses b w1 t).
    + congruence.
    + by rewrite Haddrs.
    + exact Ha.
Qed.

Lemma processBlockWithRetry_calm b w :
  b <> 0 ->
  processBlockWithRetry env config b w =
  (Ok tt, snd (processBlock env config b (emit (EvAttempt b 0) w))).
Proof.
  intros Hb. unfold processBlockWithRetry, processBlockWithRetryOn. cbn [retryLoop].
  rewrite try_catch_run, bind_record.
  pose proof (processBlock_calm b (emit (EvAttempt b 0) w) Hb) as Hok.
  destruct (processBlock env config b (emit (EvAttempt b 0) w)) as [[[]|e] w1];
    cbn in Hok |- *; [reflexivity|discriminate].
Qed.

Lemma scanBlocks_checked blocks sp w t :
  db w = Some t -> Forall (fun b => b <> 0) blocks -> blocks <> [] ->
  forall a, a ∈ jobAddresses w -> a <> "" ->
    exists j, stored (snd (scanBlocks env config blocks sp w)) a = Some j /\
      lastCheckedBlock j = List.last blocks sp.
Proof.
  intros Hdb Hnz. revert sp w t Hdb.
  induction Hnz as [|b rest Hb Hrest IH]; intros sp w t Hdb Hne a Hin Ha; [congruence|].
  rewrite scanBlocks_step, (processBlockWithRetry_calm b w Hb).
  set (w0 := emit (EvAttempt b 0) w).
  destruct (processBlock_checked b w0 t Hdb (processBlock_calm b w0 Hb)) as [[t1 Hdb1] Hchecked].
  assert (Hjobs : jobAddresses (snd (processBlock env config b w0)) = jobAddresses w).
  { apply (preserves_processBlock_any env config (same jobAddresses)
             (fun j => preserves_upsertJob env (same jobAddresses) j
                         (fun _ _ => eq_refl) (fun _ _ => eq_refl))
             (fun _ _ => eq_refl) b w0). }
  destruct rest as [|b2 rest2].
  - cbn. by apply Hchecked.
  - rewrite last_cons_default.
    destruct (IH b _ t1 Hdb1 ltac:(discriminate) a) as (j & Hj & Hl); [by rewrite Hjobs|exact Ha|].
    exists j. split; [exact Hj|exact Hl].
Qed.

End CleanTick.
Lemma scanBlocks_attempts env config
    (Hcalm : forall n a tag e,
       rpc_workable env n a tag = Throw e ->
       rateLimitSignature (messageOr "Unknown error" e) = false)
    blocks sp w :
  Forall (fun b => b <> 0) blocks ->
  history retryEventOf (snd (scanBlocks env config blocks sp w)) =
  history retryEventOf w ++ map (fun b => EvAttempt b 0) blocks.
Proof.
  intros Hnz. revert sp w. induction Hnz as [|b rest Hb Hrest IH]; intros sp w.
  - cbn. by rewrite app_nil_r.
  - rewrite scanBlocks_step, (processBlockWithRetry_calm env config Hcalm b w Hb).
    rewrite IH.
    pose proof (processBlock_records_no_retry_event env config b Hb (emit (EvAttempt b 0) w)) as Hq.
    apply adds_nothing in Hq. rewrite Hq, history_emit. cbn. by rewrite <- app_assoc.
Qed.
(** X21.  A tick in which no check is rate limited, with a store that
    answers: when the head is ahead of a cursor that is not negative, every
    job of the list with a non-empty address ends the tick with a record
    whose [lastCheckedBlock] is the new cursor, and the tick took one
    attempt per block and made no wait. *)
Theorem clean_tick_checks_every_job_up_to_the_cursor env config w t H :
  store_ok env ->
  (forall n a tag e,
     rpc_workable env n a tag = Throw e ->
     rateLimitSignature (messageOr "Unknown error" e) = false) ->
  db w = Some t -> 0 <= lastProcessedBlock w -> 0 < maxBlocksPerQuery config ->
  rpc_latest env (clock w) = Ok (Some H) -> lastProcessedBlock w < H ->
  let w' := snd (monitoringLoop env config w) in
  (forall a, a ∈ jobAddresses w -> a <> "" ->
     exists j, stored w' a = Some j /\ lastCheckedBlock j = lastProcessedBlock w') /\
  history retryEventOf w' =
    history retryEventOf w ++
    map (fun b => EvAttempt b 0)
        (seqZ (lastProcessedBlock w + 1)
              (Z.min (H - lastProcessedBlock w) (maxBlocksPerQuery config))).
Proof.
  intros Hstore Hcalm Hdb HL HC Hhead Hbehind w'.
  pose proof (monitoringLoop_run env config w H Hhead) as Hrun. cbv zeta in Hrun.
  set (L := lastProcessedBlock w) in *.
  set (window := Z.min (H - L) (maxBlocksPerQuery config)) in *.
  assert (HHL : (H <=? L) = false) by (apply Z.leb_gt; lia).
  rewrite HHL in Hrun.
  set (w0 := emit (EvLog DEBUG "Processing blocks with limit") (tick (emit EvHeadQuery w))) in *.
  set (w2 := snd (scanBlocks env config (seqZ (L + 1) window) L w0)) in *.
  assert (Hnz : Forall (fun b => b <> 0) (seqZ (L + 1) window)).
  { apply Forall_forall. intros b Hb. apply elem_of_seqZ in Hb. lia. }
  assert (Hne : seqZ (L + 1) window <> []).
  { intros E. apply (f_equal length) in E. rewrite length_seqZ in E. cbn in E. lia. }
  assert (Hw' : stored w' = stored w2 /\ lastProcessedBlock w' = List.last (seqZ (L + 1) window) L
                /\ history retryEventOf w' = history retryEventOf w2).
  { subst w'. rewrite Hrun. cbn [snd].
    destruct (L + window <? H); cbn; (split; [reflexivity|]); split; try reflexivity;
      rewrite ?history_emit; cbn; rewrite ?app_nil_r; unfold history; reflexivity. }
  destruct Hw' as (Hst & Hcur & Hhist). split.
  - intros a Hin Ha. rewrite Hst, Hcur.
    apply (scanBlocks_checked env config Hstore Hcalm _ L w0 t); auto.
  - rewrite Hhist. subst w2.
    rewrite (scanBlocks_attempts env config Hcalm _ L w0 Hnz).
    unfold w0. by rewrite history_emit, history_tick, history_emit, !app_nil_r.
Qed.

Lemma clean_tick_checks_every_job_up_to_the_cursor_witness :
  let w := emptyWorld 110 [autoLine; lerp] in
  let w' := snd (monitoringLoop (revertingEnv lerp) testConfig w) in
  (forall a, a ∈ jobAddresses w -> a <> "" ->
     exists j, stored w' a = Some j /\ lastCheckedBlock j = lastProcessedBlock w') /\
  history retryEventOf w' =
    history retryEventOf w ++
    map (fun b => EvAttempt b 0)
        (seqZ (lastProcessedBlock w + 1)
              (Z.min (200 - lastProcessedBlock w) (maxBlocksPerQuery testConfig))).
Proof.
  apply (clean_tick_checks_every_job_up_to_the_cursor (revertingEnv lerp) testConfig
           (emptyWorld 110 [autoLine; lerp]) ∅ 200).
  - intros n. split; reflexivity.
  - intros n a tag e. cbn. destruct (String.eqb a lerp); [|discriminate].
    intros [= <-]. reflexivity.
  - reflexivity.
  - cbn. lia.
  - cbn. lia.
  - reflexivity.
  - cbn. lia.
Defined.

(** ** Every block once *)

Lemma monitoringLoop_returns env config w : fst (monitoringLoop env config w) = Ok tt.
Proof.
  unfold monitoringLoop. rewrite try_catch_run.
  match goal with |- context [match ?m w with _ => _ end] => destruct (m w) as [[[]|e] w'] end;
    reflexivity.
Qed.

Lemma monitoringLoop_units env config w :
  0 <= lastProcessedBlock w ->
  let L := lastProcessedBlock w in
  let w' := snd (monitoringLoop env config w) in
  L <= lastProcessedBlock w' /\
  history unitOf w' = history unitOf w ++ seqZ (L + 1) (lastProcessedBlock w' - L).
Proof.
  intros HL L w'. subst w'.
  destruct (rpc_latest env (clock w)) as [[H|]|e] eqn:E.
  - rewrite (monitoringLoop_run env config w H E). cbv zeta. fold L.
    destruct (H <=? L) eqn:HHL; cbn [snd].
    + change (lastProcessedBlock (tick (emit EvHeadQuery w))) with L.
      rewrite Z.sub_diag, history_tick, history_emit. cbn. split; [lia|]. by rewrite !app_nil_r.
    + apply Z.leb_gt in HHL.
      set (window := Z.min (H - L) (maxBlocksPerQuery config)).
      set (w1 := emit (EvLog DEBUG "Processing blocks with limit") (tick (emit EvHeadQuery w))).
      set (w2 := snd (scanBlocks env config (seqZ (L + 1) window) L w1)).
      set (last := List.last (seqZ (L + 1) window) L).
      assert (Hlast : last = L + Z.max 0 window).
      { unfold last. destruct (decide (0 < window)) as [Hpos|Hneg].
        - rewrite last_seqZ by exact Hpos. lia.
        - rewrite seqZ_nil by lia. cbn. lia. }
      assert (Hw' : forall w3,
                w3 = emit (EvLog INFO "Block processed")
                       (if L + window <? H
                        then emit (EvLog INFO "Still catching up on blocks")
                               (set_lastProcessedBlock last w2)
                        else set_lastProcessedBlock last w2) ->
                lastProcessedBlock w3 = last /\ history unitOf w3 = history unitOf w2).
      { intros w3 ->. destruct (L + window <? H); cbn; (split; [reflexivity|]);
          rewrite !history_emit; cbn; rewrite ?app_nil_r; reflexivity. }
      destruct (Hw' _ eq_refl) as [Hcur Hhist]. rewrite Hcur, Hhist, Hlast.
      split; [lia|]. unfold w2. rewrite scanBlocks_units.
      * unfold w1. rewrite history_emit, history_tick, history_emit. cbn.
        rewrite !app_nil_r. f_equal.
        destruct (decide (0 < window)); [f_equal; lia|]. by rewrite !seqZ_nil by lia.
      * apply Forall_forall. intros b Hb. apply elem_of_seqZ in Hb. lia.
  - rewrite monitoringLoop_without_head by (rewrite E; congruence). cbn [snd].
    change (lastProcessedBlock _) with L. rewrite Z.sub_diag.
    rewrite !history_emit, history_tick, history_emit. cbn. split; [lia|]. by rewrite !app_nil_r.
  - rewrite monitoringLoop_without_head by (rewrite E; congruence). cbn [snd].
    change (lastProcessedBlock _) with L. rewrite Z.sub_diag.
    rewrite !history_emit, history_tick, history_emit. cbn. split; [lia|]. by rewrite !app_nil_r.
Qed.

(** X22.  Every block once.  From a cursor that is not negative, over any
    number of ticks run one after the other, whatever the collaborators
    answer and for every configuration: the units the scanner starts on are
    exactly the blocks after the old cursor up to the new one, each once
    and in ascending order.  No block is scanned twice, none is passed
    over, and none beyond the cursor is scanned. *)
Theorem ticks_scan_every_block_once env config n w :
  0 <= lastProcessedBlock w ->
  let L := lastProcessedBlock w in
  let w' := snd (ticks env config n w) in
  fst (ticks env config n w) = Ok tt /\
  L <= lastProcessedBlock w' /\
  history unitOf w' = history unitOf w ++ seqZ (L + 1) (lastProcessedBlock w' - L).
Proof.
  cbv zeta. revert w. induction n as [|n IH]; intros w HL.
  - cbn. rewrite Z.sub_diag. cbn. rewrite app_nil_r. split; [reflexivity|]. split; [lia|reflexivity].
  - cbn [ticks]. rewrite bind_run.
    pose proof (monitoringLoop_returns env config w) as Hok.
    destruct (monitoringLoop_units env config w HL) as [Hle Hunits].
    destruct (monitoringLoop env config w) as [[[]|e] w1]; cbn in Hok, Hle, Hunits; [|discriminate].
    destruct (IH w1) as (Hret & Hle' & Hunits'); [lia|].
    split; [exact Hret|]. split; [lia|].
    rewrite Hunits', Hunits, <- app_assoc. f_equal.
    set (L := lastProcessedBlock w) in *. set (L1 := lastProcessedBlock w1) in *.
    set (L2 := lastProcessedBlock (snd (ticks env config n w1))) in *.
    replace (L2 - L) with ((L1 - L) + (L2 - L1)) by lia.
    rewrite seqZ_app by lia. f_equal. f_equal. lia.
Qed.

Lemma ticks_scan_every_block_once_witness :
  let w := emptyWorld 110 [autoLine] in
  let w' := snd (ticks (rateLimitedEnv 112) testConfig 2 w) in
  fst (ticks (rateLimitedEnv 112) testConfig 2 w) = Ok tt /\
  lastProcessedBlock w <= lastProcessedBlock w' /\
  history unitOf w' =
    history unitOf w ++ seqZ (lastProcessedBlock w + 1) (lastProcessedBlock w' - lastProcessedBlock w).
Proof.
  apply (ticks_scan_every_block_once (rateLimitedEnv 112) testConfig 2
           (emptyWorld 110 [autoLine])).
  cbn. lia.
Defined.

(** ** Names *)

Lemma getJobNameIn_unknown known addr :
  Forall (fun entry => Js.toLowerCase entry.2 <> Js.toLowerCase addr) known ->
  getJobNameIn known addr = "Job " +:+ Js.slice0 8 addr +:+ "...".
Proof.
  induction 1 as [|[n k] rest Hk _ IH]; cbn; [reflexivity|].
  cbn in Hk. apply String.eqb_neq in Hk. by rewrite Hk.
Qed.

(** X23.  [getJobName] names a job of [KNOWN_JOBS] whatever the letter case
    of the address it is given, names any other address by its first eight
    characters, and never returns the empty string; so the name of a record
    the tracker creates is kept by the store, and such a record is read
    back exactly as it was written. *)
Theorem getJobName_is_case_insensitive_and_never_empty addr :
  (forall name knownAddress,
     (name, knownAddress) ∈ KNOWN_JOBS ->
     Js.toLowerCase addr = Js.toLowerCase knownAddress ->
     getJobName addr = name) /\
  (Forall (fun entry => Js.toLowerCase entry.2 <> Js.toLowerCase addr) KNOWN_JOBS ->
   getJobName addr = "Job " +:+ Js.slice0 8 addr +:+ "...") /\
  getJobName addr <> "" /\
  (forall blockNumber,
     jobInfoOfRow (params (freshJobInfo addr blockNumber)) = freshJobInfo addr blockNumber).
Proof.
  split; [|split; [|split]].
  - intros name known Hin Heq. unfold getJobName, KNOWN_JOBS in *. cbn [getJobNameIn].
    rewrite Heq.
    repeat (apply elem_of_cons in Hin as [Hin|Hin];
            [injection Hin as -> ->; vm_compute; reflexivity|]).
    inversion Hin.
  - apply getJobNameIn_unknown.
  - apply getJobName_nonempty.
  - intros b. apply reread_freshJobInfo.
Qed.

Lemma getJobName_is_case_insensitive_and_never_empty_witness :
  getJobName "0x67ad4000e73579b9725ee3a149f85c4af0a61361" = "AutoLineJob".
Proof.
  apply (proj1 (getJobName_is_case_insensitive_and_never_empty
                  "0x67ad4000e73579b9725ee3a149f85c4af0a61361") "AutoLineJob" autoLine).
  - apply elem_of_cons. by left.
  - vm_compute. reflexivity.
Defined.

(** ** An observation that cannot be read *)

(** X24.  When the SELECT of [getJob] throws, or the gateway has not been
    initialized, [processJobStatus] drops the observation: it returns, logs
    the error, and sends no alert, asks the ledger nothing, and writes
    neither the table nor the file; the counter of the job is neither
    advanced nor reset. *)
Theorem unreadable_record_drops_the_observation env config jobStatus b w :
  (db w = None \/ sql_select env (clock w) <> None) ->
  let w' := snd (processJobStatus env config jobStatus b w) in
  fst (processJobStatus env config jobStatus b w) = Ok tt /\
  "Error processing job status" ∈ history errorLogOf w' /\
  history alertOf w' = history alertOf w /\
  history queryOf w' = history queryOf w /\
  db w' = db w /\ disk w' = disk w.
Proof.
  intros Hcase w'. subst w'. unfold processJobStatus, getJob, select.
  rewrite try_catch_run, bind_run. cbn.
  destruct (db w) as [t|] eqn:Hdb.
  - destruct Hcase as [|Hsel]; [discriminate|].
    rewrite try_catch_run, bind_run, bind_run. cbn. rewrite Hdb. cbn.
    destruct (sql_select env (clock w)) as [e|]; [|congruence]. cbn.
    rewrite !history_emit, !history_tick. cbn. rewrite !app_nil_r.
    repeat split; try reflexivity; try exact Hdb.
    apply elem_of_app. right. apply elem_of_cons. by left.
  - cbn. rewrite !history_emit. cbn. rewrite !app_nil_r.
    repeat split; try reflexivity; try exact Hdb.
    apply elem_of_app. right. apply list_elem_of_singleton. reflexivity.
Qed.

Lemma unreadable_record_drops_the_observation_witness :
  let w := restarted (worldWith nineInARow 109) in
  let w' := snd (processJobStatus (calmEnv 200 true) testConfig
                   (statusOf autoLine (workableAt 110)) 110 w) in
  fst (processJobStatus (calmEnv 200 true) testConfig
         (statusOf autoLine (workableAt 110)) 110 w) = Ok tt /\
  "Error processing job status" ∈ history errorLogOf w' /\
  history alertOf w' = history alertOf w /\
  history queryOf w' = history queryOf w /\
  db w' = db w /\ disk w' = disk w.
Proof.
  apply (unreadable_record_drops_the_observation (calmEnv 200 true) testConfig
           (statusOf autoLine (workableAt 110)) 110 (restarted (worldWith nineInARow 109))).
  left. reflexivity.
Defined.

(** ** What a tick does to the run of each job *)

Lemma effectiveRun_ext w w' a : stored w' a = stored w a -> effectiveRun w' a = effectiveRun w a.
Proof. intros H. unfold effectiveRun. by rewrite H. Qed.

Section TickCounts.
Context (env : Env) (config : MonitoringConfig).
Context (answers : string -> option Z -> Result bool).
Hypothesis Hstore : store_ok env.
Hypothesis Hanswers : forall n a tag, rpc_workable env n a tag = answers a tag.
Hypothesis Hcalm : forall a tag e,
  answers a tag = Throw e -> rateLimitSignature (messageOr "Unknown error" e) = false.

Lemma env_calm n a tag e :
  rpc_workable env n a tag = Throw e ->
  rateLimitSignature (messageOr "Unknown error" e) = false.
Proof. rewrite Hanswers. apply Hcalm. Qed.

Lemma batch_statuses addrs b w :
  b <> 0 ->
  fst (checkMultipleJobsWorkable env addrs b w) =
  Ok (map (fun a => statusOf a (observationAt answers a b)) addrs).
Proof.
  intros Hb. unfold checkMultipleJobsWorkable. rewrite bind_run.
  pose proof (allSettled_checks env b Hb addrs w) as Hall.
  destruct (allSettled _ w) as [[results|e] w1]; cbn in Hall; [|discriminate].
  injection Hall as ->.
  assert (Hres : imap (fun i a => settledCheck b a (rpc_workable env (clock w + i)%nat a (Some b)))
                      addrs
                 = map (fun a => Ok (statusOf a (observationAt answers a b))) addrs).
  { apply list_eq. intros i. rewrite list_lookup_imap, list_lookup_fmap.
    destruct (addrs !! i) as [a|]; cbn; [|reflexivity]. f_equal.
    unfold settledCheck, observationAt, statusOf. rewrite Hanswers.
    destruct (answers a (Some b)) as [v|e] eqn:E; cbn; [reflexivity|].
    by rewrite (Hcalm _ _ _ E). }
  rewrite Hres. rewrite filter_none.
  - cbn. do 2 f_equal. clear. induction addrs as [|a addrs IH]; cbn; [reflexivity|]. by f_equal.
  - apply Forall_forall. intros r Hr. apply list_elem_of_fmap in Hr as (a & -> & _). reflexivity.
Qed.

Lemma obs_unit_observationAt a b : obs_unit (observationAt answers a b) = b.
Proof. unfold observationAt. by destruct (answers a (Some b)). Qed.

Lemma processJobStatuses_effectiveRun addrs b w t a :
  db w = Some t -> NoDup addrs -> a ∈ addrs -> a <> "" ->
  effectiveRun
    (snd (forEach (fun jobStatus => processJobStatus env config jobStatus b)
            (map (fun a => statusOf a (observationAt answers a b)) addrs) w)) a =
  if eligible (observationAt answers a b) then effectiveRun w a + 1 else 0.
Proof.
  intros Hdb Hnd. revert w t Hdb.
  induction Hnd as [|x rest Hx Hnd IH]; intros w t Hdb Hin Ha; [by inversion Hin|].
  cbn [map]. rewrite forEach_cons by apply processJobStatus_returns.
  destruct (decide (a = x)) as [->|Hne].
  - erewrite effectiveRun_ext.
    2:{ apply (processJobStatuses_others env config).
        intros Hin'. apply list_elem_of_fmap in Hin' as (y & Hy & Hyin).
        apply list_elem_of_fmap in Hyin as (z & -> & Hz). cbn in Hy. by subst z. }
    pose proof (observe_effectiveRun env config x Hstore Ha (observationAt answers x b) w t Hdb)
      as Hrun.
    unfold observe in Hrun. rewrite obs_unit_observationAt in Hrun. exact Hrun.
  - apply elem_of_cons in Hin as [?|Hin]; [contradiction|].
    destruct (processJobStatus_keeps_db_some env config Hstore
                (statusOf x (observationAt answers x b)) b w t Hdb) as [t1 Hdb1].
    rewrite (IH _ t1 Hdb1 Hin Ha).
    rewrite (effectiveRun_ext w _ a); [reflexivity|].
    apply (processJobStatus_others env config). cbn. exact Hne.
Qed.

Lemma processBlock_effectiveRun b w t a :
  b <> 0 -> db w = Some t -> NoDup (jobAddresses w) -> a ∈ jobAddresses w -> a <> "" ->
  effectiveRun (snd (processBlock env config b w)) a =
  if eligible (observationAt answers a b) then effectiveRun w a + 1 else 0.
Proof.
  intros Hb Hdb Hnd Hin Ha.
  pose proof (processBlock_calm env config env_calm b w Hb) as Hret.
  destruct (processBlock_returns env config b w Hret) as (statuses & w1 & Hbatch & Hdb1 & ->).
  pose proof (batch_statuses (jobAddresses w) b w Hb) as Hst. rewrite Hbatch in Hst.
  injection Hst as ->.
  rewrite (processJobStatuses_effectiveRun (jobAddresses w) b w1 t a) by (congruence || auto).
  by rewrite (effectiveRun_ext w w1 a) by (by apply stored_ext).
Qed.

Lemma scanBlocks_effectiveRun blocks sp w t a :
  Forall (fun b => b <> 0) blocks ->
  db w = Some t -> NoDup (jobAddresses w) -> a ∈ jobAddresses w -> a <> "" ->
  effectiveRun (snd (scanBlocks env config blocks sp w)) a =
  runFrom (effectiveRun w a) (map (observationAt answers a) blocks).
Proof.
  intros Hnz. revert sp w t.
  induction Hnz as [|b rest Hb Hrest IH]; intros sp w t Hdb Hnd Hin Ha; [reflexivity|].
  rewrite scanBlocks_step, (processBlockWithRetry_calm env config env_calm b w Hb).
  set (w0 := emit (EvAttempt b 0) w).
  destruct (processBlock_checked env config Hstore b w0 t Hdb
              (processBlock_calm env config env_calm b w0 Hb)) as [[t1 Hdb1] _].
  assert (Hjobs : jobAddresses (snd (processBlock env config b w0)) = jobAddresses w).
  { apply (preserves_processBlock_any env config (same jobAddresses)
             (fun j => preserves_upsertJob env (same jobAddresses) j
                         (fun _ _ => eq_refl) (fun _ _ => eq_refl))
             (fun _ _ => eq_refl) b w0). }
  rewrite (IH b _ t1 Hdb1) by (rewrite ?Hjobs; auto).
  rewrite (processBlock_effectiveRun b w0 t a Hb Hdb Hnd Hin Ha).
  cbn [map]. unfold runFrom at 2. cbn [fold_left]. reflexivity.
Qed.

End TickCounts.
(** X25.  What a tick does to the run of each job.  With a store that
    answers, a node whose answers to [workable()] depend on the job and the
    block only and carry no rate-limit signature, a cursor that is not
    negative and a list of jobs without repetition: after a tick the run
    the store holds for a listed job with a non-empty address is the run it
    held before, advanced by one for each block of the window at which the
    job answered workable, and reset to 0 at each block at which it
    answered not workable or its check failed, the blocks taken in
    ascending order. *)
Theorem clean_tick_counts_each_block_for_each_job env config answers w t H a :
  store_ok env ->
  (forall n a tag, rpc_workable env n a tag = answers a tag) ->
  (forall a tag e,
     answers a tag = Throw e -> rateLimitSignature (messageOr "Unknown error" e) = false) ->
  db w = Some t -> 0 <= lastProcessedBlock w ->
  rpc_latest env (clock w) = Ok (Some H) ->
  NoDup (jobAddresses w) -> a ∈ jobAddresses w -> a <> "" ->
  let L := lastProcessedBlock w in
  let window := Z.min (H - L) (maxBlocksPerQuery config) in
  effectiveRun (snd (monitoringLoop env config w)) a =
  runFrom (effectiveRun w a) (map (observationAt answers a) (seqZ (L + 1) window)).
Proof.
  intros Hstore Hanswers Hcalm Hdb HL Hhead Hnd Hin Ha L window.
  rewrite (monitoringLoop_run env config w H Hhead). cbv zeta. fold L window.
  destruct (H <=? L) eqn:HHL; cbn [snd].
  - apply Z.leb_le in HHL. rewrite seqZ_nil by lia. reflexivity.
  - set (w0 := emit (EvLog DEBUG "Processing blocks with limit") (tick (emit EvHeadQuery w))).
    assert (Hnz : Forall (fun b => b <> 0) (seqZ (L + 1) window)).
    { apply Forall_forall. intros b Hb. apply elem_of_seqZ in Hb. lia. }
    transitivity (effectiveRun (snd (scanBlocks env config (seqZ (L + 1) window) L w0)) a).
    + apply effectiveRun_ext. apply stored_ext. destruct (L + window <? H); reflexivity.
    + rewrite (scanBlocks_effectiveRun env config answers Hstore Hanswers Hcalm
                 (seqZ (L + 1) window) L w0 t a Hnz Hdb Hnd Hin Ha).
      reflexivity.
Qed.

Lemma clean_tick_counts_each_block_for_each_job_witness :
  let env := answeringEnv untilBlock112 114 in
  let w := worldWith nineInARow 109 in
  effectiveRun (snd (monitoringLoop env testConfig w)) autoLine =
  runFrom (effectiveRun w autoLine)
    (map (observationAt untilBlock112 autoLine)
       (seqZ (lastProcessedBlock w + 1)
             (Z.min (114 - lastProcessedBlock w) (maxBlocksPerQuery testConfig)))).
Proof.
  apply (clean_tick_counts_each_block_for_each_job (answeringEnv untilBlock112 114) testConfig
           untilBlock112 (worldWith nineInARow 109) {[ autoLine := params nineInARow ]} 114
           autoLine).
  - intros n. split; reflexivity.
  - reflexivity.
  - intros a tag e. unfold untilBlock112.
    destruct (String.eqb a autoLine); [|discriminate].
    destruct tag as [b|]; [|discriminate]. destruct (b <=? 112); [discriminate|].
    intros [= <-]. reflexivity.
  - reflexivity.
  - cbn. lia.
  - reflexivity.
  - apply NoDup_singleton.
  - apply list_elem_of_singleton. reflexivity.
  - discriminate.
Defined.

(** ** A tick as a run of observations of each job *)

Lemma alertSent_address config loaded isWorkable b :
  Forall (fun alert => jobAddress alert = address loaded) (alertSent config loaded isWorkable b).
Proof.
  rewrite alertSent_fires. destruct (fires config loaded isWorkable b); [|constructor].
  constructor; [|constructor]. cbn. apply counting_address.
Qed.

Lemma filter_all {A} (p : A -> bool) l :
  Forall (fun x => p x = true) l -> List.filter p l = l.
Proof. induction 1 as [|x l Hx _ IH]; cbn; [done | by rewrite Hx, IH]. Qed.

Section TickView.
Context (env : Env) (config : MonitoringConfig) (a : string).
Hypothesis Hstore : store_ok env.
Hypothesis Ha : a <> "".

Lemma processJobStatus_alertsFor_other jobStatus b w t :
  db w = Some t -> st_address jobStatus <> a ->
  alertsFor a (snd (processJobStatus env config jobStatus b w)) = alertsFor a w.
Proof.
  intros Hdb Hne. unfold alertsFor.
  rewrite (processJobStatus_alerts env config jobStatus b w t Hstore Hdb), List.filter_app.
  rewrite (filter_none _ (alertSent _ _ _ _)); [by rewrite app_nil_r|].
  eapply Forall_impl; [apply alertSent_address|]. cbn. intros alert ->.
  rewrite address_loadedOr. by apply String.eqb_neq.
Qed.

Lemma processJobStatuses_alertsFor_others statuses b w t :
  db w = Some t -> a ∉ map st_address statuses ->
  alertsFor a (snd (forEach (fun jobStatus => processJobStatus env config jobStatus b)
                      statuses w)) = alertsFor a w.
Proof.
  revert w t. induction statuses as [|st rest IH]; intros w t Hdb Hno; [reflexivity|].
  rewrite forEach_cons by apply processJobStatus_returns.
  cbn in Hno. apply not_elem_of_cons in Hno as [Hne Hrest].
  destruct (processJobStatus_keeps_db_some env config Hstore st b w t Hdb) as [t1 Hdb1].
  rewrite (IH _ t1 Hdb1 Hrest). by apply (processJobStatus_alertsFor_other st b w t).
Qed.

Lemma observe_alertsFor o w t :
  db w = Some t ->
  alertsFor a (snd (observe env config a o w)) =
  alertsFor a w ++ alertSent config (loadedOr w a (obs_unit o)) (eligible o) (obs_unit o).
Proof.
  intros Hdb. unfold alertsFor, observe.
  rewrite (processJobStatus_alerts env config (statusOf a o) (obs_unit o) w t Hstore Hdb).
  rewrite List.filter_app. cbn [st_address statusOf]. rewrite isWorkableStatus_statusOf.
  rewrite (filter_all _ (alertSent _ _ _ _)); [reflexivity|].
  eapply Forall_impl; [apply alertSent_address|]. cbn. intros alert ->.
  rewrite address_loadedOr. apply String.eqb_refl.
Qed.

End TickView.
Lemma viewOf_ext a w w' :
  db w' = db w -> history alertOf w' = history alertOf w -> viewOf a w' = viewOf a w.
Proof.
  intros Hdb Hh. unfold viewOf, alertsFor. by rewrite Hh, (stored_ext w w' Hdb).
Qed.

Section TickAsObservations.
Context (env : Env) (config : MonitoringConfig) (a : string).
Context (answers : string -> option Z -> Result bool) (worked : string -> Z -> bool).
Hypothesis Hstore : store_ok env.
Hypothesis Ha : a <> "".
Hypothesis Hanswers : forall n a tag, rpc_workable env n a tag = answers a tag.
Hypothesis Hworked : forall n a b, rpc_worked env n a b = worked a b.
Hypothesis Hcalm : forall a tag e,
  answers a tag = Throw e -> rateLimitSignature (messageOr "Unknown error" e) = false.

Lemma observe_viewOf o w1 w2 t1 t2 :
  db w1 = Some t1 -> db w2 = Some t2 -> viewOf a w1 = viewOf a w2 ->
  viewOf a (snd (observe env config a o w1)) = viewOf a (snd (observe env config a o w2)).
Proof.
  intros Hdb1 Hdb2 [= Hs Hal]. unfold viewOf.
  rewrite (observe_stored env config a Hstore Ha o w1 t1 Hdb1).
  rewrite (observe_stored env config a Hstore Ha o w2 t2 Hdb2).
  rewrite (observe_alertsFor env config a Hstore o w1 t1 Hdb1).
  rewrite (observe_alertsFor env config a Hstore o w2 t2 Hdb2).
  unfold loadedOr. by rewrite Hs, Hal, !Hworked.
Qed.

Lemma processJobStatuses_viewOf addrs b w1 w2 t1 t2 :
  db w1 = Some t1 -> db w2 = Some t2 -> NoDup addrs -> a ∈ addrs ->
  viewOf a w1 = viewOf a w2 ->
  viewOf a (snd (forEach (fun jobStatus => processJobStatus env config jobStatus b)
                   (map (fun x => statusOf x (observationAt answers x b)) addrs) w1)) =
  viewOf a (snd (observe env config a (observationAt answers a b) w2)).
Proof.
  intros Hdb1 Hdb2 Hnd. revert w1 t1 Hdb1.
  induction Hnd as [|x rest Hx Hnd IH]; intros w1 t1 Hdb1 Hin Hview; [by inversion Hin|].
  cbn [map]. rewrite forEach_cons by apply processJobStatus_returns.
  set (st := statusOf x (observationAt answers x b)).
  destruct (processJobStatus_keeps_db_some env config Hstore st b w1 t1 Hdb1) as [t1' Hdb1'].
  destruct (decide (a = x)) as [<-|Hne].
  - assert (Hrest : a ∉ map st_address
                      (map (fun x => statusOf x (observationAt answers x b)) rest)).
    { intros Hin'. apply list_elem_of_fmap in Hin' as (y & Hy & Hyin).
      apply list_elem_of_fmap in Hyin as (z & -> & Hz). cbn in Hy. by subst z. }
    unfold viewOf at 1.
    rewrite (processJobStatuses_others env config _ b _ a Hrest).
    rewrite (processJobStatuses_alertsFor_others env config a Hstore _ b _ t1' Hdb1' Hrest).
    rewrite <- (observe_viewOf (observationAt answers a b) w1 w2 t1 t2 Hdb1 Hdb2 Hview).
    unfold observe. rewrite (obs_unit_observationAt answers). reflexivity.
  - apply elem_of_cons in Hin as [?|Hin]; [contradiction|].
    apply (IH _ t1' Hdb1' Hin). rewrite <- Hview. unfold viewOf. f_equal.
    + apply (processJobStatus_others env config). cbn. congruence.
    + apply (processJobStatus_alertsFor_other env config a Hstore st b w1 t1 Hdb1).
      cbn. congruence.
Qed.

Lemma processBlock_viewOf b w1 w2 t1 t2 :
  b <> 0 -> db w1 = Some t1 -> db w2 = Some t2 ->
  NoDup (jobAddresses w1) -> a ∈ jobAddresses w1 -> viewOf a w1 = viewOf a w2 ->
  viewOf a (snd (processBlock env config b w1)) =
  viewOf a (snd (observe env config a (observationAt answers a b) w2)).
Proof.
  intros Hb Hdb1 Hdb2 Hnd Hin Hview.
  pose proof (processBlock_calm env config (env_calm env answers Hanswers Hcalm) b w1 Hb) as Hret.
  destruct (processBlock_returns env config b w1 Hret) as (statuses & w0 & Hbatch & Hdb0 & ->).
  pose proof (batch_statuses env answers Hanswers Hcalm (jobAddresses w1) b w1 Hb) as Hst.
  rewrite Hbatch in Hst. injection Hst as ->.
  apply (processJobStatuses_viewOf (jobAddresses w1) b w0 w2 t1 t2); auto; [congruence|].
  rewrite <- Hview. apply viewOf_ext; [exact Hdb0|].
  apply adds_nothing.
  assert (Hallows : forall x, allows (adds alertOf (fun _ => False)) (EvWorkableQuery x (Some b))).
  { intros x. by apply adds_allows. }
  pose proof (preserves_checkMultipleJobsWorkable env (adds alertOf (fun _ => False))
                (jobAddresses w1) b Hb Hallows w1) as Hq.
  by rewrite Hbatch in Hq.
Qed.

Lemma scanBlocks_viewOf blocks sp w1 w2 t1 t2 :
  Forall (fun b => b <> 0) blocks ->
  db w1 = Some t1 -> db w2 = Some t2 ->
  NoDup (jobAddresses w1) -> a ∈ jobAddresses w1 -> viewOf a w1 = viewOf a w2 ->
  viewOf a (snd (scanBlocks env config blocks sp w1)) =
  viewOf a (snd (observeAll env config a (map (observationAt answers a) blocks) w2)).
Proof.
  intros Hnz. revert sp w1 w2 t1 t2.
  induction Hnz as [|b rest Hb Hrest IH]; intros sp w1 w2 t1 t2 Hdb1 Hdb2 Hnd Hin Hview;
    [exact Hview|].
  rewrite scanBlocks_step,
    (processBlockWithRetry_calm env config (env_calm env answers Hanswers Hcalm) b w1 Hb).
  cbn [map]. unfold observeAll. rewrite forEach_cons by apply observe_returns.
  set (w0 := emit (EvAttempt b 0) w1).
  destruct (processBlock_checked env config Hstore b w0 t1 Hdb1
              (processBlock_calm env config (env_calm env answers Hanswers Hcalm) b w0 Hb))
    as [[t1' Hdb1'] _].
  destruct (observe_db env config a Hstore (observationAt answers a b) w2 t2 Hdb2) as [t2' Hdb2'].
  assert (Hjobs : jobAddresses (snd (processBlock env config b w0)) = jobAddresses w1).
  { apply (preserves_processBlock_any env config (same jobAddresses)
             (fun j => preserves_upsertJob env (same jobAddresses) j
                         (fun _ _ => eq_refl) (fun _ _ => eq_refl))
             (fun _ _ => eq_refl) b w0). }
  apply (IH b _ _ t1' t2' Hdb1' Hdb2'); rewrite ?Hjobs; auto.
  apply (processBlock_viewOf b w0 w2 t1 t2 Hb Hdb1 Hdb2 Hnd Hin).
  rewrite <- Hview. apply viewOf_ext; [reflexivity|].
  unfold w0. rewrite history_emit. cbn. by rewrite app_nil_r.
Qed.

End TickAsObservations.
(** X26.  A tick is, for each job, a run of observations.  With a store
    that answers, a node and a ledger whose answers depend on the job and
    the block only, no rate-limit signature among them, a cursor that is
    not negative and a list of jobs without repetition: after a tick, the
    record of a listed job with a non-empty address and the alerts sent for
    it are those the tracker reaches when it is given, for that job alone,
    the observations of the blocks of the window in ascending order.  The
    other jobs of the list, the retry wrapper and the scanner add nothing
    to what one job's tracker sees. *)
Theorem clean_tick_is_a_run_of_observations env config answers worked w t H a :
  store_ok env ->
  (forall n a tag, rpc_workable env n a tag = answers a tag) ->
  (forall n a b, rpc_worked env n a b = worked a b) ->
  (forall a tag e,
     answers a tag = Throw e -> rateLimitSignature (messageOr "Unknown error" e) = false) ->
  db w = Some t -> 0 <= lastProcessedBlock w ->
  rpc_latest env (clock w) = Ok (Some H) ->
  NoDup (jobAddresses w) -> a ∈ jobAddresses w -> a <> "" ->
  let L := lastProcessedBlock w in
  let window := Z.min (H - L) (maxBlocksPerQuery config) in
  let observations := map (observationAt answers a) (seqZ (L + 1) window) in
  let w' := snd (monitoringLoop env config w) in
  let w'' := snd (observeAll env config a observations w) in
  stored w' a = stored w'' a /\ alertsFor a w' = alertsFor a w''.
Proof.
  intros Hstore Hanswers Hworked Hcalm Hdb HL Hhead Hnd Hin Ha L window observations w' w''.
  cut (viewOf a w' = viewOf a w''); [intros [= H1 H2]; by split|].
  subst w' w'' observations.
  rewrite (monitoringLoop_run env config w H Hhead). cbv zeta. fold L window.
  destruct (H <=? L) eqn:HHL; cbn [snd].
  - apply Z.leb_le in HHL. rewrite seqZ_nil by lia. cbn.
    apply viewOf_ext; [reflexivity|]. by rewrite history_tick, history_emit, app_nil_r.
  - set (w0 := emit (EvLog DEBUG "Processing blocks with limit") (tick (emit EvHeadQuery w))).
    assert (Hnz : Forall (fun b => b <> 0) (seqZ (L + 1) window)).
    { apply Forall_forall. intros b Hb. apply elem_of_seqZ in Hb. lia. }
    rewrite <- (scanBlocks_viewOf env config a answers worked Hstore Ha Hanswers Hworked Hcalm
                  (seqZ (L + 1) window) L w0 w t t Hnz Hdb Hdb Hnd Hin).
    + apply viewOf_ext.
      * destruct (L + window <? H); reflexivity.
      * destruct (L + window <? H); rewrite !history_emit; cbn; rewrite ?app_nil_r;
          unfold history; reflexivity.
    + apply viewOf_ext; [reflexivity|].
      unfold w0. by rewrite history_emit, history_tick, history_emit, !app_nil_r.
Qed.

Lemma clean_tick_is_a_run_of_observations_witness :
  let env := tabledEnv untilBlock112 (fun _ _ => true) 114 in
  let w := worldWith nineInARow 109 in
  let observations :=
    map (observationAt untilBlock112 autoLine)
        (seqZ (lastProcessedBlock w + 1)
              (Z.min (114 - lastProcessedBlock w) (maxBlocksPerQuery testConfig))) in
  let w' := snd (monitoringLoop env testConfig w) in
  let w'' := snd (observeAll env testConfig autoLine observations w) in
  stored w' autoLine = stored w'' autoLine /\ alertsFor autoLine w' = alertsFor autoLine w''.
Proof.
  apply (clean_tick_is_a_run_of_observations (tabledEnv untilBlock112 (fun _ _ => true) 114)
           testConfig untilBlock112 (fun _ _ => true) (worldWith nineInARow 109)
           {[ autoLine := params nineInARow ]} 114 autoLine).
  - intros n. split; reflexivity.
  - reflexivity.
  - reflexivity.
  - intros a tag e. unfold untilBlock112.
    destruct (String.eqb a autoLine); [|discriminate].
    destruct tag as [b|]; [|discriminate]. destruct (b <=? 112); [discriminate|].
    intros [= <-]. reflexivity.
  - reflexivity.
  - cbn. lia.
  - reflexivity.
  - apply NoDup_singleton.
  - apply list_elem_of_singleton. reflexivity.
  - discriminate.
Defined.
